(** * SSEElysiaTransport: a server-sent-events transport for MCP on Elysia

    A shallow embedding of [SSEElysiaTransport.ts] and of the routes of
    [index.ts] that own the session registry, with the properties of the
    transport's life cycle, framing and message intake. *)

From Stdlib Require Import ZArith NArith Lia Ascii String List Bool.
From Stdlib Require Import DecimalN DecimalFacts DecimalString.
From stdpp Require Import base option list gmap strings.

Local Open Scope Z_scope.

(* ================================================================= *)
(** ** JavaScript strings and bytes *)

(** A JavaScript string is held as the byte sequence of its UTF-8 encoding
    (one [ascii] per byte), so [TextEncoder.encode] is the list of its bytes.
    Every character the code below inspects is an ASCII character, which UTF-8
    keeps as a single byte that never occurs inside a longer sequence. *)
Definition TextEncoder_encode (s : string) : list Byte.byte :=
  list_byte_of_string s.

Definition TextDecoder_decode (bs : list Byte.byte) : string :=
  string_of_list_byte bs.

Definition LF : ascii := "010"%char.
Definition DQUOTE : ascii := "034"%char.
Definition BACKSLASH : ascii := "092"%char.

Definition str1 (c : ascii) : string := String c EmptyString.

(** [hexdigit n] is the lower-case hexadecimal digit of [n mod 16]. *)
Definition hexdigit (n : N) : ascii :=
  match (n mod 16)%N with
  | 0%N => "0" | 1%N => "1" | 2%N => "2" | 3%N => "3"
  | 4%N => "4" | 5%N => "5" | 6%N => "6" | 7%N => "7"
  | 8%N => "8" | 9%N => "9" | 10%N => "a" | 11%N => "b"
  | 12%N => "c" | 13%N => "d" | 14%N => "e" | _ => "f"
  end%char.

(** Upper-case variant, as [encodeURI] writes its escapes. *)
Definition HEXDIGIT (n : N) : ascii :=
  match (n mod 16)%N with
  | 0%N => "0" | 1%N => "1" | 2%N => "2" | 3%N => "3"
  | 4%N => "4" | 5%N => "5" | 6%N => "6" | 7%N => "7"
  | 8%N => "8" | 9%N => "9" | 10%N => "A" | 11%N => "B"
  | 12%N => "C" | 13%N => "D" | 14%N => "E" | _ => "F"
  end%char.

Definition is_alnum (c : ascii) : bool :=
  let n := N_of_ascii c in
  ((48 <=? n) && (n <=? 57) || (65 <=? n) && (n <=? 90)
   || (97 <=? n) && (n <=? 122))%N.

Fixpoint mem_ascii (c : ascii) (s : string) : bool :=
  match s with
  | EmptyString => false
  | String d s' => Ascii.eqb c d || mem_ascii c s'
  end.

(** The characters [encodeURIComponent] leaves alone (uriUnescaped). *)
Definition uri_unescaped (c : ascii) : bool :=
  is_alnum c || mem_ascii c "-_.!~*'()".

(** [encodeURI] also leaves the reserved characters and [#]. *)
Definition uri_reserved_or_hash (c : ascii) : bool :=
  mem_ascii c ";/?:@&=+$,#".

Definition percent_escape (c : ascii) : string :=
  let n := N_of_ascii c in
  String "%" (String (HEXDIGIT (n / 16)) (String (HEXDIGIT n) EmptyString)).

Fixpoint Encode (keep : ascii -> bool) (s : string) : string :=
  match s with
  | EmptyString => EmptyString
  | String c s' =>
      if keep c then String c (Encode keep s')
      else percent_escape c +:+ Encode keep s'
  end.

Definition encodeURI (s : string) : string :=
  Encode (fun c => uri_unescaped c || uri_reserved_or_hash c) s.

Definition encodeURIComponent (s : string) : string :=
  Encode uri_unescaped s.

(* ================================================================= *)
(** ** [crypto.randomUUID] *)

(** A version-4 UUID rendered from 128 bits of entropy [r]: sixteen bytes,
    the version nibble forced to 4 and the variant bits to binary 10, written
    as lower-case hexadecimal in the groups 8-4-4-4-12. *)
Definition uuid_byte (r : N) (i : nat) : N :=
  let b := ((r / 256 ^ N.of_nat i) mod 256)%N in
  match i with
  | 6%nat => N.lor (N.land b 15) 64
  | 8%nat => N.lor (N.land b 63) 128
  | _ => b
  end.

Definition hex2 (b : N) (rest : string) : string :=
  String (hexdigit (b / 16)) (String (hexdigit b) rest).

Fixpoint hex_bytes (r : N) (ixs : list nat) (rest : string) : string :=
  match ixs with
  | [] => rest
  | i :: ixs' => hex2 (uuid_byte r i) (hex_bytes r ixs' rest)
  end.

Definition randomUUID (r : N) : string :=
  hex_bytes r [0; 1; 2; 3]%nat (String "-"
  (hex_bytes r [4; 5]%nat (String "-"
  (hex_bytes r [6; 7]%nat (String "-"
  (hex_bytes r [8; 9]%nat (String "-"
  (hex_bytes r [10; 11; 12; 13; 14; 15]%nat EmptyString)))))))).

(* ================================================================= *)
(** ** JSON values and [JSON.stringify] *)

(** The decimal digits of a natural number. *)
Definition digits (n : N) : string :=
  DecimalString.NilEmpty.string_of_uint (N.to_uint n).

(** [n] zeros, and the first [n] characters of a text and the rest of it. *)
Fixpoint zeros (n : nat) : string :=
  match n with
  | O => EmptyString
  | S n' => String "0" (zeros n')
  end.

Fixpoint take_chars (n : nat) (s : string) : string :=
  match n, s with
  | S n', String c s' => String c (take_chars n' s')
  | _, _ => EmptyString
  end.

Fixpoint drop_chars (n : nat) (s : string) : string :=
  match n, s with
  | S n', String _ s' => drop_chars n' s'
  | _, _ => s
  end.

(** A JavaScript number.  A finite number that is not zero is held by what
    Number::toString first computes for it: its sign, the integer [s] whose
    [k] decimal digits are the fewest that tell the number from every other
    number (so [s] does not end in 0), and [n], the place of the decimal
    point counted from the front of those digits; the value is
    [s * 10^(n - k)].  Every number has one such form, at most 17 digits
    long, with [n] from -323 to 309; a form that is no number's shortest
    one stands for no JavaScript number. *)
Inductive Number : Type :=
| NaN
| Infinity (negative : bool)
| Zero (negative : bool)
| Finite (negative : bool) (s : positive) (n : Z).

(** [p] without the zeros at the end of its digits. *)
Fixpoint without_trailing_zeros (fuel : nat) (p : positive) : positive :=
  match fuel with
  | O => p
  | S fuel' =>
      match (Npos p mod 10)%N, (Npos p / 10)%N with
      | N0, Npos q => without_trailing_zeros fuel' q
      | _, _ => p
      end
  end.

(** The number an integer literal denotes (an integer below 2^53 in absolute
    value). *)
Definition integer (z : Z) : Number :=
  match z with
  | Z0 => Zero false
  | Zpos p =>
      Finite false (without_trailing_zeros (Pos.size_nat p) p)
             (Z.of_nat (String.length (digits (Npos p))))
  | Zneg p =>
      Finite true (without_trailing_zeros (Pos.size_nat p) p)
             (Z.of_nat (String.length (digits (Npos p))))
  end.

(** The exponent part: the sign, always written, and the digits. *)
Definition exponent_text (e : Z) : string :=
  String (if e <? 0 then "-"%char else "+"%char) (digits (Z.abs_N e)).

(** Number::toString in radix 10 on the digits [ds] of [s] and on [n]: the
    digits with zeros after them, or with the point among them, or after
    ["0."] and zeros, when [n] is from -5 to 21; else the first digit, the
    other digits after a point, and the exponent [n - 1]. *)
Definition decimal_text (ds : string) (n : Z) : string :=
  let k := Z.of_nat (String.length ds) in
  if (k <=? n) && (n <=? 21) then ds +:+ zeros (Z.to_nat (n - k))
  else if (0 <? n) && (n <=? 21) then
    take_chars (Z.to_nat n) ds +:+ String "." (drop_chars (Z.to_nat n) ds)
  else if (-6 <? n) && (n <=? 0) then
    String "0" (String "." (zeros (Z.to_nat (- n)) +:+ ds))
  else
    match ds with
    | String d EmptyString => String d (String "e" (exponent_text (n - 1)))
    | String d more => String d (String "." (more +:+ String "e" (exponent_text (n - 1))))
    | EmptyString => EmptyString
    end.

(** Number::toString(x) in radix 10, which [String(x)] and a template
    literal use. *)
Definition Number_toString (x : Number) : string :=
  match x with
  | NaN => "NaN"
  | Infinity negative => if negative then "-Infinity" else "Infinity"
  | Zero _ => "0"
  | Finite negative s n =>
      if negative then String "-" (decimal_text (digits (Npos s)) n)
      else decimal_text (digits (Npos s)) n
  end.

(** How [JSON.stringify] writes a number: a number that is not finite is
    written as [null]. *)
Definition number_text (x : Number) : string :=
  match x with
  | NaN | Infinity _ => "null"
  | _ => Number_toString x
  end.

(** The JSON-representable JavaScript values.  An object lists its own
    properties in JavaScript's enumeration order. *)
#[warnings="-register-all"]
Inductive Json : Type :=
| JNull
| JBool (b : bool)
| JNumber (x : Number)
| JString (s : string)
| JArray (items : list Json)
| JObject (props : list (string * Json)).

(** [ctx.body] and other values of TypeScript type [unknown]: a JSON value or
    [undefined]. *)
Definition unknown : Type := option Json.

(** QuoteJSONString: the two-character escapes, [\u00xx] for the other
    control characters, every other character as it is. *)
Definition quote_char (c : ascii) : string :=
  let n := N_of_ascii c in
  if (n =? 8)%N then String BACKSLASH "b"
  else if (n =? 9)%N then String BACKSLASH "t"
  else if (n =? 10)%N then String BACKSLASH "n"
  else if (n =? 12)%N then String BACKSLASH "f"
  else if (n =? 13)%N then String BACKSLASH "r"
  else if (n =? 34)%N then String BACKSLASH (str1 DQUOTE)
  else if (n =? 92)%N then String BACKSLASH (str1 BACKSLASH)
  else if (n <? 32)%N then
    String BACKSLASH (String "u" (String "0" (String "0"
      (String (hexdigit (n / 16)) (str1 (hexdigit n))))))
  else str1 c.

Fixpoint quote_body (s : string) : string :=
  match s with
  | EmptyString => EmptyString
  | String c s' => quote_char c +:+ quote_body s'
  end.

Definition QuoteJSONString (s : string) : string :=
  String DQUOTE (quote_body s +:+ str1 DQUOTE).

Fixpoint join_comma (parts : list string) : string :=
  match parts with
  | [] => EmptyString
  | [p] => p
  | p :: ps => p +:+ String "," (join_comma ps)
  end.

(** [JSON.stringify(v)] with no indentation. *)
Fixpoint JSON_stringify (v : Json) : string :=
  match v with
  | JNull => "null"
  | JBool true => "true"
  | JBool false => "false"
  | JNumber x => number_text x
  | JString s => QuoteJSONString s
  | JArray items =>
      String "[" (join_comma (map JSON_stringify items) +:+ "]")
  | JObject props =>
      String "{" (join_comma
        (map (fun kv => QuoteJSONString (fst kv) +:+ String ":" (JSON_stringify (snd kv)))
             props) +:+ "}")
  end.

(* ================================================================= *)
(** ** Errors, effects and the command monad *)

(** The classes of the errors thrown: the built-in ones, and [ZodError] of
    the zod library, which the message schema throws. *)
Inductive ErrorClass : Type :=
| class_Error
| class_ZodError.

(** An [Error] object: its class, its [name] and its [message]. *)
Record JsError : Type := mkError {
  err_class : ErrorClass;
  err_name : string;
  err_message : string
}.

Definition new_Error (message : string) : JsError :=
  mkError class_Error "Error" message.
Definition new_TypeError (message : string) : JsError :=
  mkError class_Error "TypeError" message.

(** [new ZodError(issues)]; [message] is the text of the issues. *)
Definition ZodError (message : string) : JsError :=
  mkError class_ZodError "ZodError" message.

(** Error.prototype.toString. *)
Definition Error_toString (e : JsError) : string :=
  match err_name e, err_message e with
  | EmptyString, m => m
  | n, EmptyString => n
  | n, m => n +:+ ": " +:+ m
  end.

(** [error.toString()]: [ZodError] overrides it and returns the message
    alone; the built-in classes inherit Error.prototype.toString. *)
Definition toString (e : JsError) : string :=
  match err_class e with
  | class_ZodError => err_message e
  | class_Error => Error_toString e
  end.

(** What a [throw] carries: an [Error], or some other value known by its
    string conversion. *)
Inductive Thrown : Type :=
| ThrownError (e : JsError)
| ThrownValue (text : string).

(** [String(error)] *)
Definition String_of (x : Thrown) : string :=
  match x with
  | ThrownError e => toString e
  | ThrownValue s => s
  end.

(** [error instanceof Error ? error : new Error(String(error))] *)
Definition as_Error (x : Thrown) : JsError :=
  match x with
  | ThrownError e => e
  | ThrownValue s => new_Error s
  end.

(** A callback slot holds a function of the protocol layer.  The function is
    known by a name; calling it is recorded in the trace, and it returns
    normally.  What the protocol layer does to the transport in turn (it
    answers a request with a [send] of its own) is no part of the call: it
    is a further action on the transport, see [Action]. *)
Definition Handler : Type := nat.

Inductive Level : Type := info | error.

(** The observable effects of the transport besides its own state. *)
Inductive Event : Type :=
| console_log (line : string)
| console_error (line : string)
| call_onclose (h : Handler)
| call_onerror (h : Handler) (e : JsError)
| call_onmessage (h : Handler) (m : Json).

Definition is_call (ev : Event) : bool :=
  match ev with
  | console_log _ | console_error _ => false
  | _ => true
  end.

(** The callback invocations of a trace, in order. *)
Definition calls (tr : list Event) : list Event := List.filter is_call tr.

(** How a command ends: normally with a value, or by a [throw]. *)
Inductive Completion (A : Type) : Type :=
| Normal (a : A)
| Throw (x : Thrown).
Arguments Normal {A} a.
Arguments Throw {A} x.

(** A command over a state [S]: its completion, the state it leaves and the
    events it emitted. *)
Definition M (S A : Type) : Type := S -> Completion A * S * list Event.

Definition ret {S A} (a : A) : M S A := fun s => (Normal a, s, []).

Definition throw {S A} (x : Thrown) : M S A := fun s => (Throw x, s, []).

Definition bind {S A B} (c : M S A) (k : A -> M S B) : M S B :=
  fun s =>
    match c s with
    | (Normal a, s1, tr1) =>
        match k a s1 with
        | (r, s2, tr2) => (r, s2, tr1 ++ tr2)
        end
    | (Throw x, s1, tr1) => (Throw x, s1, tr1)
    end.

(** [try { c } catch (x) { h x }] *)
Definition try_catch {S A} (c : M S A) (h : Thrown -> M S A) : M S A :=
  fun s =>
    match c s with
    | (Normal a, s1, tr1) => (Normal a, s1, tr1)
    | (Throw x, s1, tr1) =>
        match h x s1 with
        | (r, s2, tr2) => (r, s2, tr1 ++ tr2)
        end
    end.

Definition emit {S} (ev : Event) : M S unit := fun s => (Normal tt, s, [ev]).
Definition get {S} : M S S := fun s => (Normal s, s, []).
Definition modify {S} (f : S -> S) : M S unit := fun s => (Normal tt, f s, []).

Notation "'let*' x ':=' c 'in' k" := (bind c (fun x => k))
  (at level 10, x name, c at level 100, k at level 200, only parsing).
Notation "c ;;; k" := (bind c (fun _ => k))
  (at level 100, k at level 200, right associativity, only parsing).

Definition completion {S A} (r : Completion A * S * list Event) : Completion A :=
  fst (fst r).
Definition state_after {S A} (r : Completion A * S * list Event) : S :=
  snd (fst r).
Definition trace {S A} (r : Completion A * S * list Event) : list Event :=
  snd r.

(** [slot?.(args)]: calls the handler when the slot is set, else does
    nothing. *)
Definition optional_call {S} (slot : option Handler) (ev : Handler -> Event) : M S unit :=
  match slot with
  | Some h => emit (ev h)
  | None => ret tt
  end.

(** [slot(args)] with no guard: calling [undefined] throws a [TypeError]. *)
Definition plain_call {S} (slot : option Handler) (label : string)
    (ev : Handler -> Event) : M S unit :=
  match slot with
  | Some h => emit (ev h)
  | None => throw (ThrownError (new_TypeError (label +:+ " is not a function")))
  end.

Definition not_a_function (x : Thrown) : bool :=
  match x with
  | ThrownError e =>
      String.eqb (err_name e) "TypeError"
      && (String.eqb (err_message e) "this.onclose is not a function"
          || String.eqb (err_message e) "this.onerror is not a function"
          || String.eqb (err_message e) "this.onmessage is not a function")
  | ThrownValue _ => false
  end.

(* ================================================================= *)
(** ** The response stream, responses and the request context *)

(** The transport's [ReadableStream] as its controller sees it: the chunks
    enqueued so far (oldest first), whether the stream is still readable (it
    stops being so when the consumer cancels it), and, under [locked],
    whether the stream can no longer be the body of a response: a reader has
    locked it, or it is disturbed (a cancel disturbs it). *)
Record Stream : Type := mkStream {
  chunks : list (list Byte.byte);
  readable : bool;
  locked : bool
}.

Inductive ResponseBody : Type :=
| body_text (text : string)
| body_stream.

Record Response : Type := mkResponse {
  status : Z;
  headers : list (string * string);
  body : ResponseBody
}.

(** The part of Elysia's [Context] the code touches: the parsed request body,
    the [sessionId] parameter of the request URL's query
    ([url.searchParams.get]), the headers set for the reply, and the
    [response] slot. *)
Record Context : Type := mkContext {
  ctx_body : unknown;
  ctx_sessionId : option string;
  ctx_set_headers : list (string * string);
  ctx_response : option Response
}.

Definition set_response (r : Response) (c : Context) : Context :=
  mkContext (ctx_body c) (ctx_sessionId c) (ctx_set_headers c) (Some r).

Definition set_headers (hs : list (string * string)) (c : Context) : Context :=
  mkContext (ctx_body c) (ctx_sessionId c) hs (ctx_response c).

(* ================================================================= *)
(** ** [class SSEElysiaTransport] *)

Record Transport : Type := mkTransport {
  _sessionId : string;
  _isConnected : bool;
  _stream : Stream;
  _endpoint : string;
  _ctx : Context;
  onclose : option Handler;
  onerror : option Handler;
  onmessage : option Handler
}.

Definition set_isConnected (b : bool) (t : Transport) : Transport :=
  mkTransport (_sessionId t) b (_stream t) (_endpoint t) (_ctx t)
              (onclose t) (onerror t) (onmessage t).

Definition set_stream (st : Stream) (t : Transport) : Transport :=
  mkTransport (_sessionId t) (_isConnected t) st (_endpoint t) (_ctx t)
              (onclose t) (onerror t) (onmessage t).

Definition set_ctx (c : Context) (t : Transport) : Transport :=
  mkTransport (_sessionId t) (_isConnected t) (_stream t) (_endpoint t) c
              (onclose t) (onerror t) (onmessage t).

Definition set_onclose (h : option Handler) (t : Transport) : Transport :=
  mkTransport (_sessionId t) (_isConnected t) (_stream t) (_endpoint t) (_ctx t)
              h (onerror t) (onmessage t).

Definition set_onerror (h : option Handler) (t : Transport) : Transport :=
  mkTransport (_sessionId t) (_isConnected t) (_stream t) (_endpoint t) (_ctx t)
              (onclose t) h (onmessage t).

Definition set_onmessage (h : option Handler) (t : Transport) : Transport :=
  mkTransport (_sessionId t) (_isConnected t) (_stream t) (_endpoint t) (_ctx t)
              (onclose t) (onerror t) h.

(** [new SSEElysiaTransport(_endpoint, _ctx)]; [r] is the entropy
    [randomUUID] draws.  The stream's [start] hook stores the controller at
    once, so the stream is open and empty. *)
Definition constructor (endpoint : string) (ctx : Context) (r : N) : Transport :=
  {| _sessionId := randomUUID r;
     _isConnected := false;
     _stream := mkStream [] true false;
     _endpoint := endpoint;
     _ctx := ctx;
     onclose := None;
     onerror := None;
     onmessage := None |}.

(** [get sessionId] *)
Definition sessionId (t : Transport) : string := _sessionId t.

Definition log (message : string) (level : Level) : M Transport unit :=
  let* t := get in
  let prefix := "[Transport:" +:+ _sessionId t +:+ "]" in
  match level with
  | error => emit (console_error (prefix +:+ " " +:+ message))
  | info => emit (console_log (prefix +:+ " " +:+ message))
  end.

(** [new Response(stream)] throws when the stream is locked or disturbed. *)
Definition body_unusable : JsError :=
  new_TypeError "Response body object should not be disturbed or locked".

(** [this._ctx.response = new Response(this._stream)] *)
Definition _setupResponse : M Transport unit :=
  let* t := get in
  if locked (_stream t) then throw (ThrownError body_unusable)
  else modify (fun t => set_ctx (set_response (mkResponse 200 [] body_stream) (_ctx t)) t).

Definition _markAsConnected : M Transport unit :=
  modify (set_isConnected true) ;;;
  log "Transport connected" info.

(** [controller.enqueue(chunk)] throws once the stream is no longer
    readable. *)
Definition controller_closed : JsError :=
  new_TypeError "Invalid state: Controller is already closed".

Definition controller_enqueue (chunk : list Byte.byte) : M Transport unit :=
  let* t := get in
  if readable (_stream t) then
    modify (fun t =>
      set_stream (mkStream (chunks (_stream t) ++ [chunk])
                           (readable (_stream t)) (locked (_stream t))) t)
  else throw (ThrownError controller_closed).

Definition _handleError (message : string) (x : Thrown) : M Transport unit :=
  log message error ;;;
  modify (set_isConnected false) ;;;
  let* t := get in
  optional_call (onerror t) (fun h => call_onerror h (as_Error x)).

(** The text of one event: [`event: ${event}\ndata: ${data}\n\n`]. *)
Definition eventData (event data : string) : string :=
  "event: " +:+ event +:+ String LF ("data: " +:+ data +:+ String LF (str1 LF)).

Definition _sendEvent (event data : string) : M Transport unit :=
  let* t := get in
  if negb (_isConnected t) then
    log "Cannot send event, not connected" error
  else
    try_catch
      (controller_enqueue (TextEncoder_encode (eventData event data)))
      (fun x => _handleError "Error sending event" x).

Definition endpointUrl (t : Transport) : string :=
  encodeURI (_endpoint t) +:+ "?sessionId=" +:+ _sessionId t.

Definition _sendEndpointEvent : M Transport unit :=
  let* t := get in
  _sendEvent "endpoint" (endpointUrl t) ;;;
  log "Endpoint event sent" info.

Definition start : M Transport unit :=
  log "Starting transport" info ;;;
  let* t := get in
  if _isConnected t then
    log "Already started" info
  else
    try_catch
      (_setupResponse ;;; _markAsConnected ;;; _sendEndpointEvent)
      (fun x => _handleError "Error starting transport" x ;;; throw x).

Definition json_headers : list (string * string) :=
  [("content-type", "application/json")].

Definition _createErrorResponse (message : string) (st : Z) : Response :=
  mkResponse st json_headers
    (body_text (JSON_stringify (JObject [("error", JString message)]))).

Definition _createSuccessResponse : Response :=
  mkResponse 202 json_headers
    (body_text (JSON_stringify (JObject [("success", JBool true)]))).

Section Intake.

(** [JSONRPCMessageSchema.parse] of the MCP SDK: the decoded message, or the
    [ZodError] it throws. *)
Variable JSONRPCMessageSchema_parse : unknown -> JsError + Json.

Definition handleMessage (message : unknown) : M Transport unit :=
  log "Parsing message" info ;;;
  let* parsedMessage :=
    match JSONRPCMessageSchema_parse message with
    | inr m => ret m
    | inl e =>
        let x := ThrownError e in
        log "Invalid message format" error ;;;
        let* t := get in
        optional_call (onerror t) (fun h => call_onerror h (as_Error x)) ;;;
        throw x
    end in
  log "Forwarding message to handler" info ;;;
  let* t := get in
  optional_call (onmessage t) (fun h => call_onmessage h parsedMessage).

Definition handlePostMessage (ctx : Context) : M Transport Response :=
  log "Received message" info ;;;
  let* t := get in
  if negb (_isConnected t) then
    log "Not connected" error ;;;
    ret (_createErrorResponse "SSE connection not established" 500)
  else
    try_catch
      (handleMessage (ctx_body ctx) ;;;
       ret _createSuccessResponse)
      (fun x =>
         log "Error handling message" error ;;;
         ret (_createErrorResponse (String_of x) 400)).

End Intake.

Definition close : M Transport unit :=
  log "Closing transport" info ;;;
  modify (set_isConnected false) ;;;
  let* t := get in
  optional_call (onclose t) call_onclose.

Definition send (message : Json) : M Transport unit :=
  log "Sending message" info ;;;
  let* t := get in
  if negb (_isConnected t) then
    log "Not connected" error ;;;
    throw (ThrownError (new_Error "Not connected"))
  else
    _sendEvent "message" (JSON_stringify message).

(** The [cancel] hook the constructor gives the stream. *)
Definition stream_cancel_hook : M Transport unit :=
  modify (set_isConnected false) ;;;
  let* t := get in
  optional_call (onclose t) call_onclose.

(** The consumer cancels the stream (the client went away).  The stream is
    disturbed from then on; a stream that was still readable is closed and
    its [cancel] hook runs; on a stream that was closed already the hook does
    not run. *)
Definition ReadableStream_cancel : M Transport unit :=
  let* t := get in
  modify (fun t => set_stream (mkStream (chunks (_stream t)) false true) t) ;;;
  if readable (_stream t) then stream_cancel_hook else ret tt.

(** The server takes a reader on the response body. *)
Definition ReadableStream_getReader : M Transport unit :=
  modify (fun t => set_stream (mkStream (chunks (_stream t)) (readable (_stream t)) true) t).

(* ================================================================= *)
(** ** The life of one transport *)

(** What can happen to a transport object: a call of one of its public
    members by the protocol layer or the routes, an assignment to one of its
    callback slots, or an event of its stream. *)
Inductive Action : Type :=
| do_start
| do_send (message : Json)
| do_handlePostMessage (ctx : Context)
| do_handleMessage (message : unknown)
| do_close
| do_cancel
| do_getReader
| do_set_onclose (h : option Handler)
| do_set_onerror (h : option Handler)
| do_set_onmessage (h : option Handler).

Section Life.

Variable JSONRPCMessageSchema_parse : unknown -> JsError + Json.

Definition perform (a : Action) : M Transport unit :=
  match a with
  | do_start => start
  | do_send m => send m
  | do_handlePostMessage ctx =>
      handlePostMessage JSONRPCMessageSchema_parse ctx ;;; ret tt
  | do_handleMessage m => handleMessage JSONRPCMessageSchema_parse m
  | do_close => close
  | do_cancel => ReadableStream_cancel
  | do_getReader => ReadableStream_getReader
  | do_set_onclose h => modify (set_onclose h)
  | do_set_onerror h => modify (set_onerror h)
  | do_set_onmessage h => modify (set_onmessage h)
  end.

(** The transports that exist: a fresh one, and whatever an action leaves,
    however the action ended. *)
Inductive reachable : Transport -> Prop :=
| reachable_new endpoint ctx r :
    reachable (constructor endpoint ctx r)
| reachable_step a t :
    reachable t -> reachable (state_after (perform a t)).

End Life.

(* ================================================================= *)
(** ** The variant with a keep-alive timer *)

Module Keepalive.

(** The second [SSEElysiaTransport] of the file adds a timer handle, which
    nothing ever sets, and clears it wherever the transport goes down. *)
Definition Base : Type := Transport.

Record Transport : Type := mkTransport {
  base : Base;
  _keepaliveInterval : option nat
}.

Definition lift {A} (c : M Base A) : M Transport A :=
  fun t =>
    match c (base t) with
    | (r, b, tr) => (r, mkTransport b (_keepaliveInterval t), tr)
    end.

Definition constructor (endpoint : string) (ctx : Context) (r : N) : Transport :=
  mkTransport (constructor endpoint ctx r) None.

(** [clearInterval] and forget the handle, when there is one. *)
Definition _stopKeepalive : M Transport unit :=
  let* t := get in
  match _keepaliveInterval t with
  | Some _ => modify (fun t => mkTransport (base t) None)
  | None => ret tt
  end.

Definition close : M Transport unit :=
  lift (log "Closing transport" info) ;;;
  _stopKeepalive ;;;
  lift (modify (set_isConnected false)) ;;;
  let* t := get in
  optional_call (onclose (base t)) call_onclose.

Definition stream_cancel_hook : M Transport unit :=
  _stopKeepalive ;;;
  lift (modify (set_isConnected false)) ;;;
  let* t := get in
  optional_call (onclose (base t)) call_onclose.

(** [console.error(line, error)]: the error is printed after the line; its
    printed form is held by its string conversion. *)
Definition console_error_with (message : string) (x : Thrown) : M Transport unit :=
  let* t := get in
  emit (console_error ("[Transport:" +:+ _sessionId (base t) +:+ "] "
                       +:+ message +:+ " " +:+ String_of x)).

Definition _sendEvent (event data : string) : M Transport unit :=
  let* t := get in
  if negb (_isConnected (base t)) then
    lift (log "Cannot send event, not connected" error)
  else
    try_catch
      (lift (controller_enqueue (TextEncoder_encode (eventData event data))))
      (fun x =>
         console_error_with "Error sending event:" x ;;;
         lift (modify (set_isConnected false)) ;;;
         _stopKeepalive ;;;
         let* t := get in
         optional_call (onerror (base t)) (fun h => call_onerror h (as_Error x))).

Definition start : M Transport unit :=
  lift (log "Starting transport" info) ;;;
  let* t := get in
  if _isConnected (base t) then
    lift (log "Already started" info)
  else
    try_catch
      (lift _setupResponse ;;;
       lift (modify (set_isConnected true)) ;;;
       lift (log "Transport connected" info) ;;;
       (let* t := get in _sendEvent "endpoint" (endpointUrl (base t))) ;;;
       lift (log "Endpoint event sent" info))
      (fun x =>
         console_error_with "Error starting transport:" x ;;;
         lift (modify (set_isConnected false)) ;;;
         (let* t := get in
          optional_call (onerror (base t)) (fun h => call_onerror h (as_Error x))) ;;;
         throw x).

Definition send (message : Json) : M Transport unit :=
  lift (log "Sending message" info) ;;;
  let* t := get in
  if negb (_isConnected (base t)) then
    lift (log "Not connected" error) ;;;
    throw (ThrownError (new_Error "Not connected"))
  else
    _sendEvent "message" (JSON_stringify message).

(** The consumer cancels the stream of this variant. *)
Definition ReadableStream_cancel : M Transport unit :=
  let* t := get in
  lift (modify (fun t => set_stream (mkStream (chunks (_stream t)) false true) t)) ;;;
  if readable (_stream (base t)) then stream_cancel_hook else ret tt.

Section Intake.

Variable JSONRPCMessageSchema_parse : unknown -> JsError + Json.

Definition handleMessage (message : unknown) : M Transport unit :=
  lift (log "Parsing message" info) ;;;
  let* parsedMessage :=
    match JSONRPCMessageSchema_parse message with
    | inr m => ret m
    | inl e =>
        let x := ThrownError e in
        console_error_with "Invalid message format:" x ;;;
        let* t := get in
        optional_call (onerror (base t)) (fun h => call_onerror h (as_Error x)) ;;;
        throw x
    end in
  lift (log "Forwarding message to handler" info) ;;;
  let* t := get in
  optional_call (onmessage (base t)) (fun h => call_onmessage h parsedMessage).

Definition handlePostMessage (ctx : Context) : M Transport Response :=
  lift (log "Received message" info) ;;;
  let* t := get in
  if negb (_isConnected (base t)) then
    lift (log "Not connected" error) ;;;
    ret (mkResponse 500 [("content-type", "application/json")]
           (body_text (JSON_stringify
              (JObject [("error", JString "SSE connection not established")]))))
  else
    try_catch
      (handleMessage (ctx_body ctx) ;;;
       ret (mkResponse 202 [("content-type", "application/json")]
              (body_text (JSON_stringify (JObject [("success", JBool true)])))))
      (fun x =>
         console_error_with "Error handling message:" x ;;;
         ret (mkResponse 400 [("content-type", "application/json")]
                (body_text (JSON_stringify
                   (JObject [("error", JString (String_of x))]))))).

(** What can happen to a transport of this variant. *)
Definition perform (a : Action) : M Transport unit :=
  match a with
  | do_start => start
  | do_send m => send m
  | do_handlePostMessage ctx => handlePostMessage ctx ;;; ret tt
  | do_handleMessage m => handleMessage m
  | do_close => close
  | do_cancel => ReadableStream_cancel
  | do_getReader => lift ReadableStream_getReader
  | do_set_onclose h => lift (modify (set_onclose h))
  | do_set_onerror h => lift (modify (set_onerror h))
  | do_set_onmessage h => lift (modify (set_onmessage h))
  end.

End Intake.

End Keepalive.

(* ================================================================= *)
(** ** [JSON.parse] *)

Definition is_ws (c : ascii) : bool :=
  let n := N_of_ascii c in
  ((n =? 32) || (n =? 9) || (n =? 10) || (n =? 13))%N.

Fixpoint skip_ws (s : string) : string :=
  match s with
  | String c s' => if is_ws c then skip_ws s' else s
  | EmptyString => s
  end.

Definition digit_of (c : ascii) : option (Decimal.uint -> Decimal.uint) :=
  match N_of_ascii c with
  | 48%N => Some Decimal.D0 | 49%N => Some Decimal.D1
  | 50%N => Some Decimal.D2 | 51%N => Some Decimal.D3
  | 52%N => Some Decimal.D4 | 53%N => Some Decimal.D5
  | 54%N => Some Decimal.D6 | 55%N => Some Decimal.D7
  | 56%N => Some Decimal.D8 | 57%N => Some Decimal.D9
  | _ => None
  end.

(** The longest run of decimal digits at the front of [s]. *)
Fixpoint read_uint (s : string) : Decimal.uint * string :=
  match s with
  | String c s' =>
      match digit_of c with
      | Some d => let (u, rest) := read_uint s' in (d u, rest)
      | None => (Decimal.Nil, s)
      end
  | EmptyString => (Decimal.Nil, s)
  end.

(** One digit at least and no leading zero. *)
Definition plain_uint (u : Decimal.uint) : bool :=
  Decimal.uint_beq u (Decimal.unorm u).

(** A digit, a point or an exponent mark follows: the text of a number
    would go on. *)
Definition continues_number (s : string) : bool :=
  match s with
  | String c _ => mem_ascii c ".eE" || bool_decide (is_Some (digit_of c))
  | EmptyString => false
  end.

Definition is_digit (c : ascii) : bool :=
  let n := N_of_ascii c in ((48 <=? n) && (n <=? 57))%N.

(** The longest run of decimal digits at the front of [s], as text. *)
Fixpoint read_digits (s : string) : string * string :=
  match s with
  | String c s' =>
      if is_digit c then let (ds, rest) := read_digits s' in (String c ds, rest)
      else (EmptyString, s)
  | EmptyString => (EmptyString, s)
  end.

Fixpoint strip_zeros (s : string) : string :=
  match s with
  | String c s' => if Ascii.eqb c "0" then strip_zeros s' else s
  | EmptyString => s
  end.

Fixpoint strip_trailing_zeros (s : string) : string :=
  match s with
  | EmptyString => EmptyString
  | String c s' =>
      match strip_trailing_zeros s' with
      | EmptyString => if Ascii.eqb c "0" then EmptyString else String c EmptyString
      | t => String c t
      end
  end.

(** The integer part of a JSON number: [0], or digits that do not start
    with 0. *)
Definition valid_int (int : string) : bool :=
  match int with
  | EmptyString => false
  | String _ EmptyString => true
  | String c _ => negb (Ascii.eqb c "0")
  end.

(** The fraction, when there is one: a point and one digit at least. *)
Definition read_fraction (s : string) : option (string * string) :=
  match s with
  | String c s' =>
      if Ascii.eqb c "." then
        match read_digits s' with
        | (EmptyString, _) => None
        | (frac, rest) => Some (frac, rest)
        end
      else Some (EmptyString, s)
  | EmptyString => Some (EmptyString, s)
  end.

Definition read_sign (s : string) : bool * string :=
  match s with
  | String c s' =>
      if Ascii.eqb c "-" then (true, s')
      else if Ascii.eqb c "+" then (false, s')
      else (false, s)
  | EmptyString => (false, s)
  end.

(** The exponent, when there is one: [e] or [E], a sign or none, and one
    digit at least. *)
Definition read_exponent (s : string) : option (Z * string) :=
  match s with
  | String c s' =>
      if Ascii.eqb c "e" || Ascii.eqb c "E" then
        let (negative, s1) := read_sign s' in
        match read_uint s1 with
        | (Decimal.Nil, _) => None
        | (u, rest) =>
            let e := Z.of_N (N.of_uint u) in
            Some (if negative then - e else e, rest)
        end
      else Some (0, s)
  | EmptyString => Some (0, s)
  end.

(** The number a decimal denotes: the digits without the zeros before and
    after them, and the place of the point.  JavaScript takes the number
    nearest to the decimal; the decimal that Number::toString wrote for a
    number denotes that number, so there the decimal is the number.  A
    decimal of more than 17 digits, or out of the range of the numbers, is
    not read. *)
Definition number_of_decimal (negative : bool) (int frac : string) (e : Z) :
    option Number :=
  let all := int +:+ frac in
  let lead := strip_zeros all in
  let ds := strip_trailing_zeros lead in
  let n := Z.of_nat (String.length int) + e
           - Z.of_nat (String.length all - String.length lead) in
  match N.of_uint (fst (read_uint ds)) with
  | N0 => Some (Zero negative)
  | Npos s =>
      if (String.length ds <=? 17)%nat && (-324 <? n) && (n <=? 309)
      then Some (Finite negative s n)
      else None
  end.

Definition parse_unsigned (negative : bool) (s : string) : option (Number * string) :=
  let (int, s2) := read_digits s in
  if valid_int int then
    match read_fraction s2 with
    | Some (frac, s3) =>
        match read_exponent s3 with
        | Some (e, rest) =>
            match number_of_decimal negative int frac e with
            | Some x => Some (x, rest)
            | None => None
            end
        | None => None
        end
    | None => None
    end
  else None.

(** A JSON number: a minus sign or none, the integer part, and a fraction
    and an exponent or neither. *)
Definition parse_number (s : string) : option (Number * string) :=
  match s with
  | String c s' =>
      if Ascii.eqb c "-" then parse_unsigned true s' else parse_unsigned false s
  | EmptyString => None
  end.

Definition hex_value (c : ascii) : option N :=
  let n := N_of_ascii c in
  if ((48 <=? n) && (n <=? 57))%N then Some (n - 48)%N
  else if ((97 <=? n) && (n <=? 102))%N then Some (n - 87)%N
  else if ((65 <=? n) && (n <=? 70))%N then Some (n - 55)%N
  else None.

Definition hex4 (a b c d : ascii) : option N :=
  match hex_value a, hex_value b, hex_value c, hex_value d with
  | Some x, Some y, Some z, Some w => Some (((x * 16 + y) * 16 + z) * 16 + w)%N
  | _, _, _, _ => None
  end.

(** The UTF-8 bytes of a code point of the basic plane; a surrogate (half of
    a pair) is outside the model. *)
Definition utf8_of_codepoint (n : N) (rest : string) : option string :=
  if (n <? 128)%N then Some (String (ascii_of_N n) rest)
  else if (n <? 2048)%N then
    Some (String (ascii_of_N (192 + n / 64))
         (String (ascii_of_N (128 + n mod 64)) rest))
  else if ((55296 <=? n) && (n <=? 57343))%N then None
  else
    Some (String (ascii_of_N (224 + n / 4096))
         (String (ascii_of_N (128 + (n / 64) mod 64))
         (String (ascii_of_N (128 + n mod 64)) rest))).

Definition unescape (c : ascii) : option ascii :=
  match N_of_ascii c with
  | 98%N => Some (ascii_of_N 8)      (* b *)
  | 116%N => Some (ascii_of_N 9)     (* t *)
  | 110%N => Some (ascii_of_N 10)    (* n *)
  | 102%N => Some (ascii_of_N 12)    (* f *)
  | 114%N => Some (ascii_of_N 13)    (* r *)
  | 34%N => Some DQUOTE
  | 92%N => Some BACKSLASH
  | 47%N => Some "/"%char
  | _ => None
  end.

(** The characters of a string literal after its opening quote, decoded, and
    what follows the closing quote. *)
Fixpoint parse_chars (s : string) : option (string * string) :=
  match s with
  | EmptyString => None
  | String c s' =>
      if Ascii.eqb c DQUOTE then Some (EmptyString, s')
      else if Ascii.eqb c BACKSLASH then
        match s' with
        | String e s'' =>
            match unescape e with
            | Some d =>
                match parse_chars s'' with
                | Some (str, rest) => Some (String d str, rest)
                | None => None
                end
            | None =>
                if Ascii.eqb e "u" then
                  match s'' with
                  | String h1 (String h2 (String h3 (String h4 s3))) =>
                      match hex4 h1 h2 h3 h4, parse_chars s3 with
                      | Some n, Some (str, rest) =>
                          match utf8_of_codepoint n str with
                          | Some str' => Some (str', rest)
                          | None => None
                          end
                      | _, _ => None
                      end
                  | _ => None
                  end
                else None
            end
        | EmptyString => None
        end
      else if (N_of_ascii c <? 32)%N then None
      else
        match parse_chars s' with
        | Some (str, rest) => Some (String c str, rest)
        | None => None
        end
  end.

(** [s] is the canonical decimal form of an array index (below 2^32 - 1). *)
Definition array_index (s : string) : option N :=
  match read_uint s with
  | (u, EmptyString) =>
      if plain_uint u && (N.of_uint u <? 4294967295)%N then Some (N.of_uint u)
      else None
  | _ => None
  end.

Definition has_key (k : string) (o : list (string * Json)) : bool :=
  existsb (fun kv => String.eqb k (fst kv)) o.

Fixpoint replace_key (k : string) (v : Json) (o : list (string * Json)) :
    list (string * Json) :=
  match o with
  | [] => []
  | kv :: o' =>
      if String.eqb k (fst kv) then (k, v) :: o' else kv :: replace_key k v o'
  end.

Fixpoint insert_index (i : N) (k : string) (v : Json) (o : list (string * Json)) :
    list (string * Json) :=
  match o with
  | [] => [(k, v)]
  | kv :: o' =>
      match array_index (fst kv) with
      | Some j => if (j <? i)%N then kv :: insert_index i k v o' else (k, v) :: o
      | None => (k, v) :: o
      end
  end.

(** Defining the property [k] of an object: an existing property keeps its
    place; a new array index goes among the indices, in ascending order,
    before every other key; any other new key goes last. *)
Definition obj_set (k : string) (v : Json) (o : list (string * Json)) :
    list (string * Json) :=
  if has_key k o then replace_key k v o
  else
    match array_index k with
    | Some i => insert_index i k v o
    | None => o ++ [(k, v)]
    end.

Definition object_of_members (ms : list (string * Json)) : list (string * Json) :=
  fold_left (fun o kv => obj_set (fst kv) (snd kv) o) ms [].

Fixpoint strip_prefix (p s : string) : option string :=
  match p, s with
  | EmptyString, _ => Some s
  | String a p', String b s' => if Ascii.eqb a b then strip_prefix p' s' else None
  | String _ _, EmptyString => None
  end.

Definition expect (word : string) (s : string) (v : Json) : option (Json * string) :=
  match strip_prefix word s with
  | Some rest => Some (v, rest)
  | None => None
  end.

(** Recursive descent, with [fuel] bounding the nesting and the number of
    items read. *)
Fixpoint parse_value (fuel : nat) (s : string) : option (Json * string) :=
  match fuel with
  | O => None
  | S fuel' =>
      match skip_ws s with
      | EmptyString => None
      | String c s' =>
          if Ascii.eqb c "n" then expect "ull" s' JNull
          else if Ascii.eqb c "t" then expect "rue" s' (JBool true)
          else if Ascii.eqb c "f" then expect "alse" s' (JBool false)
          else if Ascii.eqb c DQUOTE then
            match parse_chars s' with
            | Some (str, rest) => Some (JString str, rest)
            | None => None
            end
          else if Ascii.eqb c "[" then
            match skip_ws s' with
            | String c' rest =>
                if Ascii.eqb c' "]" then Some (JArray [], rest)
                else
                  match parse_elements fuel' s' with
                  | Some (items, rest) => Some (JArray items, rest)
                  | None => None
                  end
            | EmptyString => None
            end
          else if Ascii.eqb c "{" then
            match skip_ws s' with
            | String c' rest =>
                if Ascii.eqb c' "}" then Some (JObject [], rest)
                else
                  match parse_members fuel' s' with
                  | Some (ms, rest) => Some (JObject (object_of_members ms), rest)
                  | None => None
                  end
            | EmptyString => None
            end
          else
            match parse_number (String c s') with
            | Some (n, rest) => Some (JNumber n, rest)
            | None => None
            end
      end
  end
with parse_elements (fuel : nat) (s : string) : option (list Json * string) :=
  match fuel with
  | O => None
  | S fuel' =>
      match parse_value fuel' s with
      | Some (v, rest) =>
          match skip_ws rest with
          | String c rest' =>
              if Ascii.eqb c "," then
                match parse_elements fuel' rest' with
                | Some (vs, rest'') => Some (v :: vs, rest'')
                | None => None
                end
              else if Ascii.eqb c "]" then Some ([v], rest')
              else None
          | EmptyString => None
          end
      | None => None
      end
  end
with parse_members (fuel : nat) (s : string) : option (list (string * Json) * string) :=
  match fuel with
  | O => None
  | S fuel' =>
      match skip_ws s with
      | String q s1 =>
          if Ascii.eqb q DQUOTE then
            match parse_chars s1 with
            | Some (k, s2) =>
                match skip_ws s2 with
                | String colon s3 =>
                    if Ascii.eqb colon ":" then
                      match parse_value fuel' s3 with
                      | Some (v, s4) =>
                          match skip_ws s4 with
                          | String c rest' =>
                              if Ascii.eqb c "," then
                                match parse_members fuel' rest' with
                                | Some (ms, rest'') => Some ((k, v) :: ms, rest'')
                                | None => None
                                end
                              else if Ascii.eqb c "}" then Some ([(k, v)], rest')
                              else None
                          | EmptyString => None
                          end
                      | None => None
                      end
                    else None
                | EmptyString => None
                end
            | None => None
            end
          else None
      | EmptyString => None
      end
  end.

(** [JSON.parse(text)]: one value, then nothing but white space.  A text of
    [n] characters needs no more fuel than [n]. *)
Definition JSON_parse (text : string) : option Json :=
  match parse_value (S (String.length text)) text with
  | Some (v, rest) =>
      match skip_ws rest with
      | EmptyString => Some v
      | _ => None
      end
  | None => None
  end.

(** The numbers that [JSON.stringify] writes and [JSON.parse] reads back:
    the finite ones but negative zero (which is written as [0]), in the form
    a number has, with no zero at the end of the digits, 17 digits at most
    and the point in the range of the numbers. *)
Definition js_number (x : Number) : bool :=
  match x with
  | Zero negative => negb negative
  | Finite _ s n =>
      let ds := digits (Npos s) in
      String.eqb (strip_trailing_zeros ds) ds
      && (String.length ds <=? 17)%nat && (-324 <? n) && (n <=? 309)
  | _ => false
  end.

(** The values of the model that are JSON values of JavaScript: such
    numbers, and objects whose properties are distinct and stand in
    enumeration order. *)
Definition key_before (k1 k2 : string) : bool :=
  match array_index k1, array_index k2 with
  | Some i, Some j => (i <? j)%N
  | Some _, None => true
  | None, None => true
  | None, Some _ => false
  end.

Fixpoint props_ordered (o : list (string * Json)) : bool :=
  match o with
  | [] => true
  | kv :: o' =>
      negb (has_key (fst kv) o')
      && forallb (fun kv' => key_before (fst kv) (fst kv')) o'
      && props_ordered o'
  end.

Fixpoint js_value (v : Json) : bool :=
  match v with
  | JNull | JBool _ | JString _ => true
  | JNumber x => js_number x
  | JArray items => forallb js_value items
  | JObject props =>
      props_ordered props && forallb (fun kv => js_value (snd kv)) props
  end.

(* ================================================================= *)
(** ** Reading an event back from the stream *)

(** The text up to the first line feed, and the text after it. *)
Fixpoint take_line (s : string) : option (string * string) :=
  match s with
  | EmptyString => None
  | String c s' =>
      if Ascii.eqb c LF then Some (EmptyString, s')
      else
        match take_line s' with
        | Some (line, rest) => Some (String c line, rest)
        | None => None
        end
  end.

(** What a client reads from one chunk of the stream: an [event:] line, a
    [data:] line and the blank line that ends the event. *)
Definition read_event (chunk : list Byte.byte) : option (string * string) :=
  match take_line (TextDecoder_decode chunk) with
  | Some (l1, r1) =>
      match strip_prefix "event: " l1, take_line r1 with
      | Some name, Some (l2, r2) =>
          match strip_prefix "data: " l2 with
          | Some data => if String.eqb r2 (str1 LF) then Some (name, data) else None
          | None => None
          end
      | _, _ => None
      end
  | None => None
  end.

(* ================================================================= *)
(** ** [index.ts]: the routes and the session registry *)

Module Index.

(** The three functions the protocol layer puts in the callback slots. *)
Definition Protocol_onclose : Handler := 1%nat.
Definition Protocol_onerror : Handler := 2%nat.
Definition Protocol_onmessage : Handler := 3%nat.

(** [server.connect(transport)] of the MCP SDK.  The protocol layer either
    refuses the transport, throwing before it touches it (later versions of
    the SDK do so when the server is connected to a transport already), or
    fills the callback slots and starts the transport.  Which of the two it
    does is the SDK's decision: [refusal] is what it throws, when it
    refuses.  The protocol layer is one object for all the transports; on
    which of them it sends an answer is its own matter and is not
    modelled. *)
Definition server_connect (refusal : option Thrown) : M Transport unit :=
  match refusal with
  | Some x => throw x
  | None =>
      modify (set_onclose (Some Protocol_onclose)) ;;;
      modify (set_onerror (Some Protocol_onerror)) ;;;
      modify (set_onmessage (Some Protocol_onmessage)) ;;;
      start
  end.

(** The process: the transport objects that were created, by address, and
    [const transports = new Map<string, SSEElysiaTransport>()], which holds
    references to them. *)
Record Server : Type := mkServer {
  objects : list Transport;
  transports : gmap string nat
}.

Definition init : Server := mkServer [] ∅.

(** A command on the object at address [a]; the object is updated in place,
    so every holder of the reference sees the change. *)
Definition at_object {A} (a : nat) (c : M Transport A) : M Server A :=
  fun s =>
    match objects s !! a with
    | Some t =>
        match c t with
        | (r, t', tr) => (r, mkServer (<[a := t']> (objects s)) (transports s), tr)
        end
    | None =>
        (Throw (ThrownError (new_TypeError "undefined is not an object")), s, [])
    end.

Definition SSE_HEADERS : list (string * string) :=
  [("content-type", "text/event-stream");
   ("cache-control", "no-cache");
   ("connection", "keep-alive")].

Fixpoint header_set (k v : string) (hs : list (string * string)) :
    list (string * string) :=
  match hs with
  | [] => [(k, v)]
  | kv :: hs' =>
      if String.eqb k (fst kv) then (k, v) :: hs' else kv :: header_set k v hs'
  end.

Definition createErrorResponse (message : string) (st : Z) (details : option Json) :
    Response :=
  mkResponse st [("Content-Type", "application/json")]
    (body_text (JSON_stringify
      (JObject (("error", JString message) ::
                match details with
                | Some d => [("details", d)]
                | None => []
                end)))).

(** [{ message: error.message, stack: error.stack }]; the stack is held by
    its first line, the engine's list of call sites being left out.  A thrown
    value that is no [Error] has neither property. *)
Definition error_details (x : Thrown) : Json :=
  match x with
  | ThrownError e =>
      JObject [("message", JString (err_message e));
               ("stack", JString (Error_toString e))]
  | ThrownValue _ => JObject []
  end.

Definition handleSSEConnection (context : Context) (r : N) (refusal : option Thrown) :
    M Server (option Response) :=
  emit (console_log "SSE connection requested") ;;;
  try_catch
    (let context :=
       set_headers
         (fold_left (fun hs kv => header_set (fst kv) (snd kv) hs)
                    SSE_HEADERS (ctx_set_headers context))
         context in
     emit (console_log "Headers set for SSE connection") ;;;
     let transport := constructor "/messages" context r in
     emit (console_log ("Transport created with sessionId: " +:+ sessionId transport)) ;;;
     let* s := get in
     let a := length (objects s) in
     modify (fun s => mkServer (objects s ++ [transport])
                               (<[sessionId transport := a]> (transports s))) ;;;
     let* s := get in
     emit (console_log ("Transports map size: "
                        +:+ digits (N.of_nat (size (transports s))))) ;;;
     at_object a (server_connect refusal) ;;;
     emit (console_log "Connected to MCP server") ;;;
     let* s := get in
     ret (match objects s !! a with
          | Some t => ctx_response (_ctx t)
          | None => None
          end))
    (fun x =>
       emit (console_error ("Transport/connection error: " +:+ String_of x)) ;;;
       emit (console_error (String_of x)) ;;;
       ret (Some (createErrorResponse "Transport error" 500 (Some (error_details x))))).

Section Routes.

Variable JSONRPCMessageSchema_parse : unknown -> JsError + Json.

Definition handleMessage (context : Context) : M Server Response :=
  try_catch
    (let sessionId := ctx_sessionId context in
     emit (console_log ("POST /messages Session ID: "
                        +:+ match sessionId with Some sid => sid | None => "null" end)) ;;;
     let* s := get in
     match sessionId with
     | Some (String c sid' as sid) =>
         match transports s !! sid with
         | Some a => at_object a (handlePostMessage JSONRPCMessageSchema_parse context)
         | None => ret (createErrorResponse "Invalid or missing session ID" 400 None)
         end
     | _ => ret (createErrorResponse "Invalid or missing session ID" 400 None)
     end)
    (fun x =>
       emit (console_error ("Error handling message: " +:+ String_of x)) ;;;
       ret (createErrorResponse "Internal server error" 500 None)).

(** What happens in the process: a request to one of the two routes, or
    something that happens to a transport that exists (a call from the
    protocol layer, or an event of its stream). *)
Inductive Happening : Type :=
| GET_sse (context : Context) (r : N) (refusal : option Thrown)
| POST_messages (context : Context)
| on_transport (a : nat) (act : Action).

Definition happen (h : Happening) : M Server unit :=
  match h with
  | GET_sse context r refusal => handleSSEConnection context r refusal ;;; ret tt
  | POST_messages context => handleMessage context ;;; ret tt
  | on_transport a act =>
      fun s =>
        match objects s !! a with
        | Some _ => at_object a (perform JSONRPCMessageSchema_parse act) s
        | None => (Normal tt, s, [])
        end
  end.

Inductive reachable_state : Server -> Prop :=
| reachable_init : reachable_state init
| reachable_happen h s :
    reachable_state s -> reachable_state (state_after (happen h s)).

End Routes.

(** The session ids of the transports that are connected. *)
Definition connected_ids (s : Server) : gset string :=
  list_to_set (sessionId <$> filter (fun t => _isConnected t = true) (objects s)).

(** The session ids of all the transports that were created. *)
Definition created_ids (s : Server) : gset string :=
  list_to_set (sessionId <$> objects s).

(** What the specification asks of the registry: its keys are the session
    ids of the connected transports. *)
Definition keys_are_the_connected (s : Server) : Prop :=
  dom (transports s) = connected_ids s.

(** What the routes maintain: a key leads to a transport that exists and has
    that session id, and every transport that was created is registered. *)
Record registry_ok (s : Server) : Prop := mkRegistryOk {
  key_leads_to_its_transport :
    forall k a, transports s !! k = Some a ->
                exists t, objects s !! a = Some t /\ sessionId t = k;
  created_is_registered :
    forall a t, objects s !! a = Some t -> is_Some (transports s !! sessionId t)
}.

End Index.

(* ================================================================= *)
(** ** The routes as first written, inline in [index.ts] *)

Module Inline.

(** The handler of [.get("/sse", ...)]: the three headers are set one by one,
    and the transport is created, stored and connected inside a second
    [try], whose [catch] answers with the error's message and stack beside
    the error text. *)
Definition get_sse (context : Context) (r : N) (refusal : option Thrown) :
    M Index.Server (option Response) :=
  emit (console_log "SSE connection requested") ;;;
  try_catch
    (let context :=
       set_headers
         (Index.header_set "connection" "keep-alive"
            (Index.header_set "cache-control" "no-cache"
               (Index.header_set "content-type" "text/event-stream"
                  (ctx_set_headers context))))
         context in
     emit (console_log "Headers set for SSE connection") ;;;
     try_catch
       (emit (console_log "Creating transport") ;;;
        let transport := constructor "/messages" context r in
        emit (console_log ("Transport created with sessionId: " +:+ sessionId transport)) ;;;
        emit (console_log "Storing transport in map") ;;;
        let* s := get in
        let a := length (Index.objects s) in
        modify (fun s => Index.mkServer (Index.objects s ++ [transport])
                           (<[sessionId transport := a]> (Index.transports s))) ;;;
        let* s := get in
        emit (console_log ("Transports map size: "
                           +:+ digits (N.of_nat (size (Index.transports s))))) ;;;
        emit (console_log "Connecting to MCP server") ;;;
        Index.at_object a (Index.server_connect refusal) ;;;
        emit (console_log "Connected to MCP server") ;;;
        emit (console_log "SSE connection successful") ;;;
        let* s := get in
        ret (match Index.objects s !! a with
             | Some t => ctx_response (_ctx t)
             | None => None
             end))
       (fun x =>
          emit (console_error ("Transport/connection error: " +:+ String_of x)) ;;;
          emit (console_error (String_of x)) ;;;
          ret (Some (mkResponse 500 [("content-type", "application/json")]
                 (body_text (JSON_stringify
                    (JObject (("error", JString "Transport error") ::
                              match Index.error_details x with
                              | JObject props => props
                              | _ => []
                              end))))))))
    (fun x =>
       emit (console_error ("Outer error in SSE handler: " +:+ String_of x)) ;;;
       emit (console_error (String_of x)) ;;;
       ret (Some (mkResponse 500 [("content-type", "application/json")]
              (body_text (JSON_stringify
                 (JObject (("error", JString "Server error") ::
                           match Index.error_details x with
                           | JObject props => props
                           | _ => []
                           end))))))).

Section Routes.

Variable JSONRPCMessageSchema_parse : unknown -> JsError + Json.

(** The handler of [.post("/messages", ...)]. *)
Definition post_messages (context : Context) : M Index.Server Response :=
  try_catch
    (let sessionId := ctx_sessionId context in
     let* s := get in
     match sessionId with
     | Some (String c sid' as sid) =>
         match Index.transports s !! sid with
         | Some a =>
             Index.at_object a (handlePostMessage JSONRPCMessageSchema_parse context)
         | None =>
             ret (mkResponse 400 [("Content-Type", "application/json")]
                    (body_text (JSON_stringify
                       (JObject [("error", JString "Invalid or missing session ID")]))))
         end
     | _ =>
         ret (mkResponse 400 [("Content-Type", "application/json")]
                (body_text (JSON_stringify
                   (JObject [("error", JString "Invalid or missing session ID")]))))
     end)
    (fun x =>
       emit (console_error ("Error handling message: " +:+ String_of x)) ;;;
       ret (mkResponse 500 [("Content-Type", "application/json")]
              (body_text (JSON_stringify
                 (JObject [("error", JString "Internal server error")]))))).

End Routes.

End Inline.

(** [headers[key]] *)
Fixpoint header_get (k : string) (hs : list (string * string)) : option string :=
  match hs with
  | [] => None
  | kv :: hs' => if String.eqb k (fst kv) then Some (snd kv) else header_get k hs'
  end.

(* ================================================================= *)
(** ** The [get-weather] tool *)

Definition is_upper (c : ascii) : bool :=
  let n := N_of_ascii c in ((65 <=? n) && (n <=? 90))%N.

(** [String.prototype.toLowerCase] on a text of ASCII characters; the case
    mapping of other characters is outside the model, and the result is
    [None] for a text that holds one. *)
Fixpoint toLowerCase (s : string) : option string :=
  match s with
  | EmptyString => Some EmptyString
  | String c s' =>
      if (N_of_ascii c <? 128)%N then
        match toLowerCase s' with
        | Some l =>
            Some (String (if is_upper c then ascii_of_N (N_of_ascii c + 32) else c) l)
        | None => None
        end
      else None
  end.

Record WeatherData : Type := mkWeather { temp : Number; condition : string }.

(** The own properties of the object literal [mockWeatherData]. *)
Definition mockWeatherData : list (string * WeatherData) :=
  [("new york", mkWeather (integer 22) "Partly cloudy");
   ("london", mkWeather (integer 18) "Rainy");
   ("tokyo", mkWeather (integer 26) "Sunny");
   ("sydney", mkWeather (integer 30) "Clear")].

(** The properties every object literal inherits from [Object.prototype]. *)
Definition Object_prototype_names : list string :=
  ["constructor"; "__defineGetter__"; "__defineSetter__"; "hasOwnProperty";
   "__lookupGetter__"; "__lookupSetter__"; "isPrototypeOf";
   "propertyIsEnumerable"; "toString"; "valueOf"; "__proto__"; "toLocaleString"].

(** What [object[key]] finds: an own property, a property inherited from
    [Object.prototype] (a function or an object: truthy, and with no [temp]
    or [condition] of its own), or nothing ([undefined]). *)
Inductive Found : Type :=
| found_own (w : WeatherData)
| found_inherited
| found_nothing.

Fixpoint own_property (k : string) (o : list (string * WeatherData)) : option WeatherData :=
  match o with
  | [] => None
  | kv :: o' => if String.eqb k (fst kv) then Some (snd kv) else own_property k o'
  end.

Definition property (k : string) (o : list (string * WeatherData)) : Found :=
  match own_property k o with
  | Some w => found_own w
  | None =>
      if existsb (String.eqb k) Object_prototype_names then found_inherited
      else found_nothing
  end.

(** The text of the reply:
    [`Weather in ${city}: ${weather.temp}°C, ${weather.condition}`], where
    [weather] is what the lookup found, or the default when it found nothing;
    a property that is missing prints as [undefined]. *)
Definition weather_text (city : string) (found : Found) : string :=
  let '(t, c) :=
    match found with
    | found_own w => (Number_toString (temp w), condition w)
    | found_inherited => ("undefined", "undefined")
    | found_nothing => (Number_toString (integer 25), "Unknown")
    end in
  "Weather in " +:+ city +:+ ": " +:+ t +:+ "°C, " +:+ c.

(** The handler of the tool [get-weather]. *)
Definition get_weather (city : string) : option Json :=
  match toLowerCase city with
  | Some cityLower =>
      Some (JObject [("content",
              JArray [JObject [("type", JString "text");
                               ("text", JString (weather_text city
                                           (property cityLower mockWeatherData)))]])])
  | None => None
  end.

Definition text_reply (text : string) : Json :=
  JObject [("content", JArray [JObject [("type", JString "text"); ("text", JString text)]])].

(* ================================================================= *)
(** ** A schema to run the model on *)

Fixpoint lookup_key (k : string) (o : list (string * Json)) : option Json :=
  match o with
  | [] => None
  | kv :: o' => if String.eqb k (fst kv) then Some (snd kv) else lookup_key k o'
  end.

(** A schema in the shape of the SDK's [JSONRPCMessageSchema], for running
    the model: an object whose [jsonrpc] is ["2.0"] and that has a string
    [method], or a [result], or an [error]; the value is passed on as it
    is. *)
Definition envelope_parse (x : unknown) : JsError + Json :=
  match x with
  | Some (JObject props) =>
      match lookup_key "jsonrpc" props with
      | Some (JString "2.0") =>
          match lookup_key "method" props, lookup_key "result" props,
                lookup_key "error" props with
          | Some (JString _), _, _ => inr (JObject props)
          | None, Some _, _ => inr (JObject props)
          | None, None, Some _ => inr (JObject props)
          | _, _, _ => inl (ZodError "Invalid input")
          end
      | _ => inl (ZodError "Invalid literal value, expected 2.0")
      end
  | _ => inl (ZodError "Invalid input")
  end.

Definition ping : Json :=
  JObject [("jsonrpc", JString "2.0"); ("id", JNumber (integer 1)); ("method", JString "ping")].

Definition pong : Json :=
  JObject [("jsonrpc", JString "2.0"); ("id", JNumber (integer 1)); ("result", JObject [])].

(** A notification that carries a fraction (0.5) and a number that is
    written with an exponent (1.5e+21). *)
Definition progress : Json :=
  JObject [("jsonrpc", JString "2.0");
           ("method", JString "notifications/progress");
           ("params", JObject [("progress", JNumber (Finite false 5 0));
                               ("total", JNumber (Finite false 15 22))])].

Definition a_context : Context := mkContext None None [] None.

Definition post_of (sid : option string) (b : unknown) : Context :=
  mkContext b sid [] None.

(* ================================================================= *)
(** ** Predicates used by the properties *)

Fixpoint all_chars (p : ascii -> bool) (s : string) : bool :=
  match s with
  | EmptyString => true
  | String c s' => p c && all_chars p s'
  end.

(** The text does not go on with a digit. *)
Definition stops (rest : string) : Prop :=
  match rest with
  | String c _ => is_digit c = false
  | EmptyString => True
  end.

(** The fuel [parse_value] needs to read a value back. *)
Fixpoint weight (v : Json) : nat :=
  match v with
  | JArray items => S (list_sum (map (fun x => S (weight x)) items))
  | JObject props => S (list_sum (map (fun kv => S (weight (snd kv))) props))
  | _ => 1%nat
  end.

(** The characters a JSON value can start with. *)
Definition value_start (c : ascii) : bool :=
  mem_ascii c "ntf[{-0123456789" || Ascii.eqb c DQUOTE.

(** One property of an object as [JSON.stringify] writes it. *)
Definition member_text (kv : string * Json) : string :=
  QuoteJSONString (fst kv) +:+ String ":" (JSON_stringify (snd kv)).

(** [v] is read back from its text, whatever follows the text, given fuel
    for its weight. *)
Definition reads_back (v : Json) : Prop :=
  js_value v = true ->
  forall fuel rest,
    (weight v <= fuel)%nat ->
    continues_number rest = false ->
    parse_value fuel (JSON_stringify v +:+ rest) = Some (v, rest).

(** The chunk [send] writes for a message, and the message a client decodes
    from a chunk. *)
Definition message_chunk (m : Json) : list Byte.byte :=
  TextEncoder_encode (eventData "message" (JSON_stringify m)).

Definition read_message (chunk : list Byte.byte) : option Json :=
  match read_event chunk with
  | Some (name, data) =>
      if String.eqb name "message" then JSON_parse data else None
  | None => None
  end.

(** No line feed in the text: it fits on one line of an event. *)
Definition no_LF (s : string) : bool :=
  all_chars (fun c => negb (Ascii.eqb c LF)) s.

(** The chunk that carries the [endpoint] event of a transport. *)
Definition endpoint_chunk (t : Transport) : list Byte.byte :=
  TextEncoder_encode (eventData "endpoint" (endpointUrl t)).

Definition bound (t : Transport) : Transport :=
  set_ctx (set_response (mkResponse 200 [] body_stream) (_ctx t)) t.

(** The transport a successful [start] leaves. *)
Definition started (t : Transport) : Transport :=
  set_stream (mkStream (chunks (_stream t) ++ [endpoint_chunk t]) true (locked (_stream t)))
             (set_isConnected true (bound t)).

(** A connected transport has a readable stream and has written; the first
    chunk of the stream, when there is one, is the transport's [endpoint]
    event; the session id is a UUID. *)
Record sound (t : Transport) : Prop := mkSound {
  sound_readable : _isConnected t = true -> readable (_stream t) = true;
  sound_written : _isConnected t = true -> chunks (_stream t) <> [];
  sound_first : forall c, head (chunks (_stream t)) = Some c -> c = endpoint_chunk t;
  sound_uuid : exists r, _sessionId t = randomUUID r
}.

(** A transport that was created and started, and one whose protocol layer
    has taken the callback slots, as [server.connect] leaves it. *)
Definition a_transport : Transport :=
  state_after (start (constructor "/messages" a_context 5)).

Definition a_served_transport : Transport :=
  state_after (Index.server_connect None (constructor "/messages" a_context 5)).

(** Two states of the process: after one client has connected, and after its
    transport was then closed. *)
Definition one_session : Index.Server :=
  state_after (Index.happen envelope_parse (Index.GET_sse a_context 5 None) Index.init).

Definition one_session_closed : Index.Server :=
  state_after (Index.happen envelope_parse (Index.on_transport 0 do_close) one_session).

(** A chunk that reads as the transport's [endpoint] event or as a [message]
    event carrying the text of some JSON value. *)
Definition endpoint_or_message (t : Transport) (chunk : list Byte.byte) : Prop :=
  read_event chunk = Some ("endpoint", endpointUrl t)
  \/ exists m, read_event chunk = Some ("message", JSON_stringify m).

(** The actions in which the transport hands a message it was posted to the
    protocol layer. *)
Definition is_intake (a : Action) : bool :=
  match a with
  | do_handlePostMessage _ | do_handleMessage _ => true
  | _ => false
  end.

(** The headers the route of [GET /sse] leaves on the context. *)
Definition sse_headers_on (context : Context) : list (string * string) :=
  fold_left (fun hs kv => Index.header_set (fst kv) (snd kv) hs)
            Index.SSE_HEADERS (ctx_set_headers context).

(** The transport the route of [GET /sse] creates and the state it leaves
    it in when the connection succeeds. *)
Definition fresh_transport (context : Context) (r : N) : Transport :=
  constructor "/messages" (set_headers (sse_headers_on context) context) r.

Definition served (t : Transport) : Transport :=
  started (set_onmessage (Some Index.Protocol_onmessage)
            (set_onerror (Some Index.Protocol_onerror)
              (set_onclose (Some Index.Protocol_onclose) t))).

(** The session id of the request is missing, empty or unknown. *)
Definition no_such_session (context : Context) (s : Index.Server) : Prop :=
  match ctx_sessionId context with
  | None => True
  | Some sid => sid = EmptyString \/ Index.transports s !! sid = None
  end.

(* ================================================================= *)
(** * Properties *)

(** ** Running the commands *)

Ltac unfold_monad :=
  unfold completion, state_after, trace, bind, ret, throw, try_catch, emit,
         get, modify, optional_call in *.

Ltac unfold_transport :=
  unfold start, send, close, handlePostMessage, handleMessage, _sendEndpointEvent,
         _sendEvent, _handleError, _markAsConnected, _setupResponse,
         controller_enqueue, ReadableStream_cancel, ReadableStream_getReader,
         stream_cancel_hook, log in *.

Ltac run := unfold_transport; unfold_monad; simpl.

(** Reads the three components of a result that is a triple. *)
Ltac projections := cbn [completion state_after trace fst snd Keepalive.base] in *.

Lemma append_cons (c : ascii) (s t : string) : String c s +:+ t = String c (s +:+ t).
Proof. reflexivity. Qed.

Lemma append_empty_l (t : string) : EmptyString +:+ t = t.
Proof. reflexivity. Qed.

Lemma append_empty_r (s : string) : s +:+ EmptyString = s.
Proof.
  induction s as [|c s IH]; [reflexivity|]. rewrite append_cons, IH. reflexivity.
Qed.

Lemma append_assoc (s t u : string) : (s +:+ t) +:+ u = s +:+ (t +:+ u).
Proof.
  induction s as [|c s IH]; [reflexivity|]. rewrite !append_cons, IH. reflexivity.
Qed.

Lemma set_isConnected_same (t : Transport) :
  set_isConnected (_isConnected t) t = t.
Proof. destruct t; reflexivity. Qed.

Lemma set_isConnected_false_closed (t : Transport) :
  _isConnected t = false -> set_isConnected false t = t.
Proof. intros H. rewrite <- H. apply set_isConnected_same. Qed.

Lemma calls_app (tr1 tr2 : list Event) : calls (tr1 ++ tr2) = calls tr1 ++ calls tr2.
Proof. unfold calls. apply List.filter_app. Qed.

Lemma calls_cons (ev : Event) (tr : list Event) :
  calls (ev :: tr) = if is_call ev then ev :: calls tr else calls tr.
Proof. reflexivity. Qed.

Lemma calls_nil : calls [] = [].
Proof. reflexivity. Qed.

Ltac calls_norm :=
  repeat first [rewrite calls_app | rewrite calls_cons | rewrite calls_nil];
  cbn [is_call]; rewrite ?app_nil_r.

(** [send] on a transport that is not connected. *)
Lemma send_closed_run (t : Transport) (m : Json) :
  _isConnected t = false ->
  exists tr,
    send m t = (Throw (ThrownError (new_Error "Not connected")), t, tr)
    /\ calls tr = [].
Proof.
  intros H. run. rewrite H. simpl. eexists. split; reflexivity.
Qed.

(** The event-write primitive on a transport that is not connected. *)
Lemma sendEvent_closed_run (t : Transport) (event data : string) :
  _isConnected t = false ->
  exists tr, _sendEvent event data t = (Normal tt, t, tr) /\ calls tr = [].
Proof.
  intros H. run. rewrite H. simpl. eexists. split; reflexivity.
Qed.

(** The primitive on a connected transport whose stream is readable. *)
Lemma sendEvent_open_run (t : Transport) (event data : string) :
  _isConnected t = true ->
  readable (_stream t) = true ->
  _sendEvent event data t =
    (Normal tt,
     set_stream (mkStream (chunks (_stream t) ++ [TextEncoder_encode (eventData event data)])
                          true (locked (_stream t))) t,
     []).
Proof.
  intros Hc Hr. run. rewrite Hc. simpl. rewrite Hr. simpl. rewrite Hr. reflexivity.
Qed.

(** The primitive on a connected transport whose stream refuses the chunk:
    the write failure takes the transport down and is reported. *)
Lemma sendEvent_broken_run (t : Transport) (event data : string) :
  _isConnected t = true ->
  readable (_stream t) = false ->
  exists tr,
    _sendEvent event data t = (Normal tt, set_isConnected false t, tr)
    /\ calls tr = match onerror t with
                  | Some h => [call_onerror h controller_closed]
                  | None => []
                  end.
Proof.
  intros Hc Hr. run. rewrite Hc. simpl. rewrite Hr. simpl.
  destruct (onerror t); simpl; eexists; split; reflexivity.
Qed.

Lemma close_run (t : Transport) :
  exists tr,
    close t = (Normal tt, set_isConnected false t, tr)
    /\ calls tr = match onclose t with
                  | Some h => [call_onclose h]
                  | None => []
                  end.
Proof.
  run. destruct (onclose t); simpl; eexists; split; reflexivity.
Qed.

Lemma keepalive_close_run (t : Keepalive.Transport) :
  exists tr,
    Keepalive.close t =
      (Normal tt, Keepalive.mkTransport (set_isConnected false (Keepalive.base t)) None, tr)
    /\ calls tr = match onclose (Keepalive.base t) with
                  | Some h => [call_onclose h]
                  | None => []
                  end.
Proof.
  unfold Keepalive.close, Keepalive._stopKeepalive, Keepalive.lift. run.
  destruct t as [b k]; simpl.
  destruct k; simpl; destruct (onclose b); simpl; eexists; split; reflexivity.
Qed.

(** The transport a cancel leaves: disturbed and closed, and not connected
    when the stream was readable, so that the hook ran. *)
Lemma cancel_run (t : Transport) :
  exists tr,
    ReadableStream_cancel t =
      (Normal tt,
       set_isConnected (_isConnected t && negb (readable (_stream t)))
         (set_stream (mkStream (chunks (_stream t)) false true) t),
       tr)
    /\ calls tr = if readable (_stream t) then
                    match onclose t with
                    | Some h => [call_onclose h]
                    | None => []
                    end
                  else [].
Proof.
  run. destruct (readable (_stream t)); simpl.
  - rewrite andb_false_r.
    destruct (onclose t); simpl; eexists; split; reflexivity.
  - rewrite andb_true_r. eexists; split; reflexivity.
Qed.

Lemma handleError_run (message : string) (x : Thrown) (t : Transport) :
  exists tr,
    _handleError message x t = (Normal tt, set_isConnected false t, tr)
    /\ calls tr = match onerror t with
                  | Some h => [call_onerror h (as_Error x)]
                  | None => []
                  end.
Proof.
  run. destruct (onerror t); simpl; eexists; split; reflexivity.
Qed.

Section IntakeRuns.

Variable parse : unknown -> JsError + Json.

Lemma handleMessage_valid_run (t : Transport) (b : unknown) (m : Json) :
  parse b = inr m ->
  exists tr,
    handleMessage parse b t = (Normal tt, t, tr)
    /\ calls tr = match onmessage t with
                  | Some h => [call_onmessage h m]
                  | None => []
                  end.
Proof.
  intros Hp. run. rewrite Hp. simpl.
  destruct (onmessage t); simpl; eexists; split; reflexivity.
Qed.

Lemma handleMessage_invalid_run (t : Transport) (b : unknown) (e : JsError) :
  parse b = inl e ->
  exists tr,
    handleMessage parse b t = (Throw (ThrownError e), t, tr)
    /\ calls tr = match onerror t with
                  | Some h => [call_onerror h e]
                  | None => []
                  end.
Proof.
  intros Hp. run. rewrite Hp. simpl.
  destruct (onerror t); simpl; eexists; split; reflexivity.
Qed.

Lemma handlePostMessage_valid_run (t : Transport) (ctx : Context) (m : Json) :
  _isConnected t = true ->
  parse (ctx_body ctx) = inr m ->
  exists tr,
    handlePostMessage parse ctx t = (Normal _createSuccessResponse, t, tr)
    /\ calls tr = match onmessage t with
                  | Some h => [call_onmessage h m]
                  | None => []
                  end.
Proof.
  intros Hc Hp.
  destruct (handleMessage_valid_run t _ _ Hp) as (tr & Hrun & Hcalls).
  unfold handlePostMessage. unfold_monad. unfold log at 1. unfold_monad. simpl.
  rewrite Hc. simpl. rewrite Hrun. simpl.
  eexists. split; [reflexivity|]. calls_norm. exact Hcalls.
Qed.

Lemma handlePostMessage_invalid_run (t : Transport) (ctx : Context) (e : JsError) :
  _isConnected t = true ->
  parse (ctx_body ctx) = inl e ->
  exists tr,
    handlePostMessage parse ctx t =
      (Normal (_createErrorResponse (String_of (ThrownError e)) 400), t, tr)
    /\ calls tr = match onerror t with
                  | Some h => [call_onerror h e]
                  | None => []
                  end.
Proof.
  intros Hc Hp.
  destruct (handleMessage_invalid_run t _ _ Hp) as (tr & Hrun & Hcalls).
  unfold handlePostMessage. unfold_monad. unfold log at 1. unfold_monad. simpl.
  rewrite Hc. simpl. rewrite Hrun. simpl. unfold log. unfold_monad. simpl.
  eexists. split; [reflexivity|]. calls_norm. exact Hcalls.
Qed.

Lemma handlePostMessage_closed_run (t : Transport) (ctx : Context) :
  _isConnected t = false ->
  exists tr,
    handlePostMessage parse ctx t =
      (Normal (_createErrorResponse "SSE connection not established" 500), t, tr)
    /\ calls tr = [].
Proof.
  intros Hc. run. rewrite Hc. simpl. eexists. split; reflexivity.
Qed.

End IntakeRuns.

(** *** [start], case by case *)

Lemma start_connected_run (t : Transport) :
  _isConnected t = true ->
  exists tr, start t = (Normal tt, t, tr) /\ calls tr = [].
Proof.
  intros Hc. run. rewrite Hc. simpl. eexists. split; reflexivity.
Qed.

Lemma start_locked_run (t : Transport) :
  _isConnected t = false ->
  locked (_stream t) = true ->
  exists tr,
    start t = (Throw (ThrownError body_unusable), t, tr)
    /\ calls tr = match onerror t with
                  | Some h => [call_onerror h body_unusable]
                  | None => []
                  end.
Proof.
  intros Hc Hl. run. rewrite Hc. simpl. rewrite Hl. simpl.
  rewrite (set_isConnected_false_closed t Hc).
  destruct (onerror t); simpl; eexists; split; reflexivity.
Qed.

Lemma start_open_run (t : Transport) :
  _isConnected t = false ->
  locked (_stream t) = false ->
  readable (_stream t) = true ->
  exists tr, start t = (Normal tt, started t, tr) /\ calls tr = [].
Proof.
  intros Hc Hl Hr. run. rewrite Hc. simpl. rewrite Hl. simpl. rewrite Hr. simpl.
  unfold started, bound, endpoint_chunk, endpointUrl. simpl. rewrite Hr.
  eexists. split; reflexivity.
Qed.

Lemma start_broken_run (t : Transport) :
  _isConnected t = false ->
  locked (_stream t) = false ->
  readable (_stream t) = false ->
  exists tr,
    start t = (Normal tt, bound t, tr)
    /\ calls tr = match onerror t with
                  | Some h => [call_onerror h controller_closed]
                  | None => []
                  end.
Proof.
  intros Hc Hl Hr.
  destruct t as [sid c [cs rd lk] ep cx oc oe om]; simpl in *. subst c lk rd.
  run. destruct oe; simpl; eexists; split; reflexivity.
Qed.

(** The session id never changes. *)
Lemma sessionId_sendEvent (t : Transport) (event data : string) :
  _sessionId (state_after (_sendEvent event data t)) = _sessionId t.
Proof.
  destruct (_isConnected t) eqn:Hc.
  - destruct (readable (_stream t)) eqn:Hr.
    + rewrite (sendEvent_open_run t event data Hc Hr). reflexivity.
    + destruct (sendEvent_broken_run t event data Hc Hr) as (tr & -> & _).
      reflexivity.
  - destruct (sendEvent_closed_run t event data Hc) as (tr & -> & _). reflexivity.
Qed.

Lemma sessionId_start (t : Transport) :
  _sessionId (state_after (start t)) = _sessionId t.
Proof.
  destruct (_isConnected t) eqn:Hc.
  - destruct (start_connected_run t Hc) as (tr & -> & _). reflexivity.
  - destruct (locked (_stream t)) eqn:Hl.
    + destruct (start_locked_run t Hc Hl) as (tr & -> & _). reflexivity.
    + destruct (readable (_stream t)) eqn:Hr.
      * destruct (start_open_run t Hc Hl Hr) as (tr & -> & _). reflexivity.
      * destruct (start_broken_run t Hc Hl Hr) as (tr & -> & _). reflexivity.
Qed.

(** ** What holds of every transport that exists *)

Lemma sound_constructor endpoint ctx r : sound (constructor endpoint ctx r).
Proof.
  split; simpl; try discriminate. exists r. reflexivity.
Qed.

Lemma sound_set_closed (t : Transport) : sound t -> sound (set_isConnected false t).
Proof.
  intros [Hr Hw Hf Hu]. split; simpl; try discriminate; assumption.
Qed.

Lemma sound_cancelled (t : Transport) :
  sound t ->
  sound (set_isConnected (_isConnected t && negb (readable (_stream t)))
           (set_stream (mkStream (chunks (_stream t)) false true) t)).
Proof.
  intros [Hr Hw Hf Hu]. split; simpl; try assumption.
  - intros [Hc Hn]%andb_true_iff. rewrite (Hr Hc) in Hn. discriminate Hn.
  - intros [Hc Hn]%andb_true_iff. apply Hw, Hc.
Qed.

Lemma sound_getReader (t : Transport) :
  sound t ->
  sound (set_stream (mkStream (chunks (_stream t)) (readable (_stream t)) true) t).
Proof.
  intros [Hr Hw Hf Hu]. split; simpl; assumption.
Qed.

Lemma sound_bound (t : Transport) : sound t -> sound (bound t).
Proof.
  intros [Hr Hw Hf Hu]. split; simpl; assumption.
Qed.

Lemma sound_set_onclose h (t : Transport) : sound t -> sound (set_onclose h t).
Proof. intros [Hr Hw Hf Hu]. split; simpl; assumption. Qed.

Lemma sound_set_onerror h (t : Transport) : sound t -> sound (set_onerror h t).
Proof. intros [Hr Hw Hf Hu]. split; simpl; assumption. Qed.

Lemma sound_set_onmessage h (t : Transport) : sound t -> sound (set_onmessage h t).
Proof. intros [Hr Hw Hf Hu]. split; simpl; assumption. Qed.

Lemma head_app_nonempty {A} (l : list A) (x : A) :
  l <> [] -> head (l ++ [x]) = head l.
Proof. destruct l; [congruence | reflexivity]. Qed.

(** Appending a chunk to a connected transport keeps it sound. *)
Lemma sound_enqueue (t : Transport) (chunk : list Byte.byte) :
  sound t ->
  _isConnected t = true ->
  sound (set_stream (mkStream (chunks (_stream t) ++ [chunk]) true (locked (_stream t))) t).
Proof.
  intros [Hr Hw Hf Hu] Hc. split; simpl; auto.
  - intros _. destruct (chunks (_stream t)); discriminate.
  - intros c. rewrite head_app_nonempty by auto. apply Hf.
Qed.

Lemma sound_started (t : Transport) :
  sound t -> _isConnected t = false -> sound (started t).
Proof.
  intros [Hr Hw Hf Hu] Hc. split; simpl; auto.
  - intros _. destruct (chunks (_stream t)); discriminate.
  - intros c. destruct (chunks (_stream t)) as [|c0 cs] eqn:E; simpl.
    + intros [= <-]. reflexivity.
    + intros [= <-]. apply (Hf c0). reflexivity.
Qed.

Lemma sound_start (t : Transport) : sound t -> sound (state_after (start t)).
Proof.
  intros Hs.
  destruct (_isConnected t) eqn:Hc.
  - destruct (start_connected_run t Hc) as (tr & -> & _). exact Hs.
  - destruct (locked (_stream t)) eqn:Hl.
    + destruct (start_locked_run t Hc Hl) as (tr & -> & _). exact Hs.
    + destruct (readable (_stream t)) eqn:Hr.
      * destruct (start_open_run t Hc Hl Hr) as (tr & -> & _).
        apply sound_started; assumption.
      * destruct (start_broken_run t Hc Hl Hr) as (tr & -> & _).
        apply sound_bound; assumption.
Qed.

Lemma sound_sendEvent (t : Transport) (event data : string) :
  sound t -> sound (state_after (_sendEvent event data t)).
Proof.
  intros Hs.
  destruct (_isConnected t) eqn:Hc.
  - rewrite (sendEvent_open_run t event data Hc (sound_readable t Hs Hc)).
    apply sound_enqueue; assumption.
  - destruct (sendEvent_closed_run t event data Hc) as (tr & -> & _). exact Hs.
Qed.

Lemma send_connected (t : Transport) (m : Json) :
  _isConnected t = true ->
  completion (send m t) = completion (_sendEvent "message" (JSON_stringify m) t)
  /\ state_after (send m t) = state_after (_sendEvent "message" (JSON_stringify m) t)
  /\ calls (trace (send m t)) = calls (trace (_sendEvent "message" (JSON_stringify m) t)).
Proof.
  intros Hc. unfold send. unfold_monad. unfold log at 1. unfold_monad. simpl.
  rewrite Hc. simpl.
  destruct (_sendEvent "message" (JSON_stringify m) t) as [[r t'] tr]. simpl.
  repeat split. 
Qed.

Lemma sound_send (t : Transport) (m : Json) :
  sound t -> sound (state_after (send m t)).
Proof.
  intros Hs.
  destruct (_isConnected t) eqn:Hc.
  - destruct (send_connected t m Hc) as (_ & -> & _). apply sound_sendEvent, Hs.
  - destruct (send_closed_run t m Hc) as (tr & -> & _). exact Hs.
Qed.

Section Invariant.

Variable parse : unknown -> JsError + Json.

Lemma handleMessage_state (t : Transport) (b : unknown) :
  state_after (handleMessage parse b t) = t.
Proof.
  destruct (parse b) as [e|m] eqn:Hp.
  - destruct (handleMessage_invalid_run parse t b e Hp) as (tr & -> & _). reflexivity.
  - destruct (handleMessage_valid_run parse t b m Hp) as (tr & -> & _). reflexivity.
Qed.

Lemma handlePostMessage_state (t : Transport) (ctx : Context) :
  state_after (handlePostMessage parse ctx t) = t.
Proof.
  destruct (_isConnected t) eqn:Hc.
  - destruct (parse (ctx_body ctx)) as [e|m] eqn:Hp.
    + destruct (handlePostMessage_invalid_run parse t ctx e Hc Hp) as (tr & -> & _).
      reflexivity.
    + destruct (handlePostMessage_valid_run parse t ctx m Hc Hp) as (tr & -> & _).
      reflexivity.
  - destruct (handlePostMessage_closed_run parse t ctx Hc) as (tr & -> & _).
    reflexivity.
Qed.

Lemma sound_perform (a : Action) (t : Transport) :
  sound t -> sound (state_after (perform parse a t)).
Proof.
  intros Hs. destruct a; simpl.
  - apply sound_start, Hs.
  - apply sound_send, Hs.
  - pose proof (handlePostMessage_state t ctx) as E.
    unfold state_after, bind in *.
    destruct (handlePostMessage parse ctx t) as [[[r|x] t'] tr]; simpl in *; subst; exact Hs.
  - rewrite handleMessage_state. exact Hs.
  - destruct (close_run t) as (tr & -> & _). apply sound_set_closed, Hs.
  - destruct (cancel_run t) as (tr & -> & _). apply sound_cancelled, Hs.
  - apply sound_getReader, Hs.
  - apply sound_set_onclose, Hs.
  - apply sound_set_onerror, Hs.
  - apply sound_set_onmessage, Hs.
Qed.

Lemma reachable_sound (t : Transport) : reachable parse t -> sound t.
Proof.
  induction 1 as [endpoint ctx r | a t _ IH].
  - apply sound_constructor.
  - apply sound_perform, IH.
Qed.

End Invariant.

(* ================================================================= *)
(** ** The claims about one transport *)

(** C1, as the code has it: [close()] always ends normally and leaves the
    transport not connected, so closing twice leaves the same state as
    closing once; and every call of [close()] invokes the registered
    [onclose] callback once, whether or not the transport was connected: a
    second [close()] on a closed transport invokes it again.  The variant
    with the keep-alive timer does the same. *)
Theorem close_invokes_onclose_on_every_call
    (t : Transport) (k : option nat) (h : Handler) :
  onclose t = Some h ->
  (completion (close t) = Normal tt
   /\ _isConnected (state_after (close t)) = false
   /\ state_after (close (state_after (close t))) = state_after (close t)
   /\ calls (trace (close t)) = [call_onclose h]
   /\ calls (trace (close (state_after (close t)))) = [call_onclose h])
  /\
  (let kt := Keepalive.mkTransport t k in
   completion (Keepalive.close kt) = Normal tt
   /\ _isConnected (Keepalive.base (state_after (Keepalive.close kt))) = false
   /\ state_after (Keepalive.close (state_after (Keepalive.close kt)))
      = state_after (Keepalive.close kt)
   /\ calls (trace (Keepalive.close kt)) = [call_onclose h]
   /\ calls (trace (Keepalive.close (state_after (Keepalive.close kt))))
      = [call_onclose h]).
Proof.
  intros Hh. split.
  - destruct (close_run t) as (tr & E & Hcalls). rewrite E. projections.
    destruct (close_run (set_isConnected false t)) as (tr' & E' & Hcalls').
    rewrite E'. projections. simpl in Hcalls'. rewrite Hh in *. auto.
  - cbv zeta.
    destruct (keepalive_close_run (Keepalive.mkTransport t k)) as (tr & E & Hcalls).
    rewrite E. projections. simpl in Hcalls.
    destruct (keepalive_close_run
                (Keepalive.mkTransport (set_isConnected false t) None))
      as (tr' & E' & Hcalls').
    rewrite E'. projections. simpl in Hcalls'. rewrite Hh in *. auto.
Qed.

(** The second [close()] of a transport the protocol layer serves. *)
Lemma close_invokes_onclose_on_every_call_witness :
  onclose a_served_transport = Some Index.Protocol_onclose
  /\ calls (trace (close (state_after (close a_served_transport))))
     = [call_onclose Index.Protocol_onclose].
Proof.
  split; [reflexivity|].
  apply (close_invokes_onclose_on_every_call a_served_transport None
           Index.Protocol_onclose).
  reflexivity.
Defined.

(** C1 as the specification states it fails: on a connected transport with a
    registered [onclose], the first [close()] makes the one transition to
    Closed, and the second [close()], on the transport that is closed by
    then, invokes the callback again: two invocations for one transition. *)
Lemma close_twice_invokes_onclose_twice :
  _isConnected a_served_transport = true
  /\ _isConnected (state_after (close a_served_transport)) = false
  /\ calls (trace (close (state_after (close a_served_transport))))
     = [call_onclose Index.Protocol_onclose]
  /\ calls (trace ((close ;;; close) a_served_transport))
     = [call_onclose Index.Protocol_onclose; call_onclose Index.Protocol_onclose]
  /\ calls (trace ((Keepalive.close ;;; Keepalive.close)
                     (Keepalive.mkTransport a_served_transport None)))
     = [call_onclose Index.Protocol_onclose; call_onclose Index.Protocol_onclose].
Proof. repeat split. Qed.

(** C3: on a connected transport, a body the schema accepts as the message
    [m] is answered with 202 and the body [{success: true}], the registered
    [onmessage] callback is invoked once, with [m], nothing else is called,
    and the transport is left as it was; [handleMessage] alone does the same
    call and returns normally. *)
Theorem valid_message_is_accepted_and_delivered_once
    (parse : unknown -> JsError + Json) (t : Transport) (ctx : Context)
    (m : Json) (h : Handler) :
  _isConnected t = true ->
  parse (ctx_body ctx) = inr m ->
  onmessage t = Some h ->
  completion (handlePostMessage parse ctx t) = Normal _createSuccessResponse
  /\ status _createSuccessResponse = 202
  /\ body _createSuccessResponse
     = body_text (JSON_stringify (JObject [("success", JBool true)]))
  /\ calls (trace (handlePostMessage parse ctx t)) = [call_onmessage h m]
  /\ state_after (handlePostMessage parse ctx t) = t
  /\ completion (handleMessage parse (ctx_body ctx) t) = Normal tt
  /\ calls (trace (handleMessage parse (ctx_body ctx) t)) = [call_onmessage h m].
Proof.
  intros Hc Hp Hh.
  destruct (handlePostMessage_valid_run parse t ctx m Hc Hp) as (tr & -> & Hcalls).
  destruct (handleMessage_valid_run parse t _ m Hp) as (tr' & -> & Hcalls').
  rewrite Hh in *. simpl. auto 10.
Qed.

(** A [ping] request posted to a served transport. *)
Lemma valid_message_is_accepted_and_delivered_once_witness :
  completion (handlePostMessage envelope_parse (post_of None (Some ping)) a_served_transport)
  = Normal _createSuccessResponse
  /\ calls (trace (handlePostMessage envelope_parse (post_of None (Some ping))
                     a_served_transport))
     = [call_onmessage Index.Protocol_onmessage ping].
Proof.
  pose proof (valid_message_is_accepted_and_delivered_once envelope_parse
                a_served_transport (post_of None (Some ping)) ping
                Index.Protocol_onmessage eq_refl eq_refl eq_refl) as H.
  split; apply H.
Defined.

(** C4: on a connected transport, a body the schema rejects with the error
    [e] is answered with 400 and the body [{error: String(e)}], which for
    the [ZodError] the schema throws is the error's message alone; the
    registered [onerror] callback is invoked with [e] and [onmessage] is not
    invoked; the transport is left as it was, connected, and a well-formed
    body sent next is accepted with 202. *)
Theorem invalid_message_is_rejected_and_transport_stays_connected
    (parse : unknown -> JsError + Json) (t : Transport) (ctx ctx' : Context)
    (e : JsError) (m : Json) (h : Handler) :
  _isConnected t = true ->
  parse (ctx_body ctx) = inl e ->
  parse (ctx_body ctx') = inr m ->
  onerror t = Some h ->
  let r := handlePostMessage parse ctx t in
  completion r = Normal (_createErrorResponse (String_of (ThrownError e)) 400)
  /\ status (_createErrorResponse (String_of (ThrownError e)) 400) = 400
  /\ body (_createErrorResponse (String_of (ThrownError e)) 400)
     = body_text (JSON_stringify
                    (JObject [("error", JString (String_of (ThrownError e)))]))
  /\ (err_class e = class_ZodError -> String_of (ThrownError e) = err_message e)
  /\ calls (trace r) = [call_onerror h e]
  /\ state_after r = t
  /\ _isConnected (state_after r) = true
  /\ completion (handlePostMessage parse ctx' (state_after r))
     = Normal _createSuccessResponse.
Proof.
  intros Hc Hp Hp' Hh r. subst r.
  destruct (handlePostMessage_invalid_run parse t ctx e Hc Hp) as (tr & -> & Hcalls).
  projections.
  destruct (handlePostMessage_valid_run parse t ctx' m Hc Hp') as (tr' & -> & _).
  rewrite Hh in Hcalls. projections.
  repeat split; try assumption.
  intros Hz. simpl. unfold toString. rewrite Hz. reflexivity.
Qed.

(** A [null] body, then a [ping] request, posted to a served transport. *)
Lemma invalid_message_is_rejected_and_transport_stays_connected_witness :
  let r := handlePostMessage envelope_parse (post_of None (Some JNull)) a_served_transport in
  completion r = Normal (_createErrorResponse "Invalid input" 400)
  /\ calls (trace r) = [call_onerror Index.Protocol_onerror (ZodError "Invalid input")]
  /\ completion (handlePostMessage envelope_parse (post_of None (Some ping)) (state_after r))
     = Normal _createSuccessResponse.
Proof.
  pose proof (invalid_message_is_rejected_and_transport_stays_connected envelope_parse
                a_served_transport (post_of None (Some JNull)) (post_of None (Some ping))
                (ZodError "Invalid input") ping Index.Protocol_onerror
                eq_refl eq_refl eq_refl eq_refl) as H.
  cbv zeta in H. destruct H as (H1 & _ & _ & _ & H2 & _ & _ & H3).
  repeat split; assumption.
Defined.

(** C5: [send] on a transport that is not connected throws the error
    [Not connected], calls nothing, and leaves the transport, its stream
    included, as it was. *)
Theorem send_when_not_connected_throws (t : Transport) (m : Json) :
  _isConnected t = false ->
  completion (send m t) = Throw (ThrownError (new_Error "Not connected"))
  /\ state_after (send m t) = t
  /\ chunks (_stream (state_after (send m t))) = chunks (_stream t)
  /\ calls (trace (send m t)) = [].
Proof.
  intros Hc. destruct (send_closed_run t m Hc) as (tr & -> & Hcalls).
  simpl. auto.
Qed.

(** [send] on a transport that was never started. *)
Lemma send_when_not_connected_throws_witness :
  _isConnected (constructor "/messages" a_context 5) = false
  /\ completion (send ping (constructor "/messages" a_context 5))
     = Throw (ThrownError (new_Error "Not connected")).
Proof.
  split; [reflexivity|].
  apply (send_when_not_connected_throws (constructor "/messages" a_context 5) ping).
  reflexivity.
Defined.

(** The three ways of not being connected that C5 names. *)
Lemma not_connected_before_start endpoint ctx r :
  _isConnected (constructor endpoint ctx r) = false.
Proof. reflexivity. Qed.

Lemma not_connected_after_close (t : Transport) :
  _isConnected (state_after (close t)) = false.
Proof. destruct (close_run t) as (tr & -> & _). reflexivity. Qed.

Lemma not_connected_after_write_failure (t : Transport) (event data : string) :
  _isConnected t = true ->
  readable (_stream t) = false ->
  _isConnected (state_after (_sendEvent event data t)) = false.
Proof.
  intros Hc Hr. destruct (sendEvent_broken_run t event data Hc Hr) as (tr & -> & _).
  reflexivity.
Qed.

Lemma eventData_concat (event data : string) :
  eventData event data
  = (((("event: " +:+ event) +:+ str1 LF) +:+ "data: ") +:+ data) +:+ String LF (str1 LF).
Proof.
  unfold eventData, str1. rewrite !append_assoc. reflexivity.
Qed.

(** C7: on a connected transport, the event-write primitive returns
    normally, calls and logs nothing, and changes nothing but the stream, to
    which it appends one chunk: the bytes of
    ["event: " + name + "\n" + "data: " + payload + "\n\n"]. *)
Theorem sendEvent_appends_exactly_one_frame
    (parse : unknown -> JsError + Json) (t : Transport) (event data : string) :
  reachable parse t ->
  _isConnected t = true ->
  _sendEvent event data t
  = (Normal tt,
     set_stream (mkStream (chunks (_stream t) ++ [TextEncoder_encode (eventData event data)])
                          true (locked (_stream t))) t,
     [])
  /\ chunks (_stream (state_after (_sendEvent event data t)))
     = chunks (_stream t) ++ [TextEncoder_encode (eventData event data)]
  /\ eventData event data
     = (((("event: " +:+ event) +:+ str1 LF) +:+ "data: ") +:+ data)
       +:+ String LF (str1 LF).
Proof.
  intros Hreach Hc.
  pose proof (sound_readable t (reachable_sound parse t Hreach) Hc) as Hr.
  rewrite (sendEvent_open_run t event data Hc Hr).
  split; [reflexivity|]. split; [reflexivity|]. apply eventData_concat.
Qed.

(** One more event on a started transport. *)
Lemma sendEvent_appends_exactly_one_frame_witness :
  chunks (_stream (state_after (_sendEvent "message" "hello" a_transport)))
  = chunks (_stream a_transport) ++ [TextEncoder_encode (eventData "message" "hello")].
Proof.
  apply (sendEvent_appends_exactly_one_frame envelope_parse a_transport "message" "hello").
  - apply (reachable_step envelope_parse do_start). apply reachable_new.
  - reflexivity.
Defined.

(** C8: after [close()], whatever the transport was, the event-write
    primitive returns normally, calls nothing, and leaves the transport as
    [close()] left it: the stream holds the chunks it held before
    [close()]. *)
Theorem sendEvent_after_close_is_a_no_op (t : Transport) (event data : string) :
  let closed := state_after (close t) in
  completion (_sendEvent event data closed) = Normal tt
  /\ state_after (_sendEvent event data closed) = closed
  /\ chunks (_stream (state_after (_sendEvent event data closed))) = chunks (_stream t)
  /\ calls (trace (_sendEvent event data closed)) = [].
Proof.
  intros closed. subst closed.
  destruct (close_run t) as (tr & -> & _). projections.
  destruct (sendEvent_closed_run (set_isConnected false t) event data eq_refl)
    as (tr' & -> & Hcalls).
  projections. auto.
Qed.

(** Calling an empty slot without the guard is what would throw. *)
Example plain_call_of_an_unset_slot_throws (t : Transport) :
  exists x,
    completion (plain_call None "this.onclose" call_onclose t) = Throw x
    /\ not_a_function x = true.
Proof. eexists. split; reflexivity. Qed.

(** C10: with the three callback slots unset, in any state, no member throws
    for want of a callback and nothing is called.  [start] throws only the
    error of binding the response, [send] only [Not connected] (and only when
    the transport is not connected), [handleMessage] only the validation
    error of a body the schema rejects; [handleMessage] on a valid body,
    [handlePostMessage], [close], the write-failure handling, the
    event-write primitive and the stream's cancellation all return
    normally. *)
Theorem unset_callbacks_are_never_called
    (parse : unknown -> JsError + Json) (t : Transport) :
  onclose t = None ->
  onerror t = None ->
  onmessage t = None ->
  (forall x, completion (start t) = Throw x ->
             x = ThrownError body_unusable /\ not_a_function x = false)
  /\ calls (trace (start t)) = []
  /\ (forall m x, completion (send m t) = Throw x ->
                  x = ThrownError (new_Error "Not connected")
                  /\ not_a_function x = false /\ _isConnected t = false)
  /\ (forall m, calls (trace (send m t)) = [])
  /\ (forall b m, parse b = inr m ->
                  completion (handleMessage parse b t) = Normal tt)
  /\ (forall b e, parse b = inl e ->
                  completion (handleMessage parse b t) = Throw (ThrownError e))
  /\ (forall b, calls (trace (handleMessage parse b t)) = [])
  /\ (forall ctx, exists resp,
        completion (handlePostMessage parse ctx t) = Normal resp)
  /\ completion (close t) = Normal tt
  /\ calls (trace (close t)) = []
  /\ (forall message x, completion (_handleError message x t) = Normal tt
                        /\ calls (trace (_handleError message x t)) = [])
  /\ (forall event data, completion (_sendEvent event data t) = Normal tt
                         /\ calls (trace (_sendEvent event data t)) = [])
  /\ completion (ReadableStream_cancel t) = Normal tt
  /\ calls (trace (ReadableStream_cancel t)) = [].
Proof.
  intros Hoc Hoe Hom.
  assert (Hse : forall event data,
             completion (_sendEvent event data t) = Normal tt
             /\ calls (trace (_sendEvent event data t)) = []).
  { intros event data. destruct (_isConnected t) eqn:Hc.
    - destruct (readable (_stream t)) eqn:Hr.
      + rewrite (sendEvent_open_run t event data Hc Hr). split; reflexivity.
      + destruct (sendEvent_broken_run t event data Hc Hr) as (tr & -> & Hcalls).
        rewrite Hoe in Hcalls. split; [reflexivity | exact Hcalls].
    - destruct (sendEvent_closed_run t event data Hc) as (tr & -> & Hcalls).
      split; [reflexivity | exact Hcalls]. }
  assert (Hstart : (forall x, completion (start t) = Throw x ->
                      x = ThrownError body_unusable /\ not_a_function x = false)
                   /\ calls (trace (start t)) = []).
  { destruct (_isConnected t) eqn:Hc.
    - destruct (start_connected_run t Hc) as (tr & -> & Hcalls).
      split; [discriminate | exact Hcalls].
    - destruct (locked (_stream t)) eqn:Hl.
      + destruct (start_locked_run t Hc Hl) as (tr & -> & Hcalls).
        rewrite Hoe in Hcalls. split; [|exact Hcalls].
        intros x [= <-]. split; reflexivity.
      + destruct (readable (_stream t)) eqn:Hr.
        * destruct (start_open_run t Hc Hl Hr) as (tr & -> & Hcalls).
          split; [discriminate | exact Hcalls].
        * destruct (start_broken_run t Hc Hl Hr) as (tr & -> & Hcalls).
          rewrite Hoe in Hcalls. split; [discriminate | exact Hcalls]. }
  destruct Hstart as [Hstart1 Hstart2].
  split; [exact Hstart1|]. split; [exact Hstart2|].
  split.
  { intros m x. destruct (_isConnected t) eqn:Hc.
    - destruct (send_connected t m Hc) as (-> & _ & _).
      destruct (Hse "message" (JSON_stringify m)) as [-> _]. discriminate.
    - destruct (send_closed_run t m Hc) as (tr & -> & _).
      intros [= <-]. repeat split. }
  split.
  { intros m. destruct (_isConnected t) eqn:Hc.
    - destruct (send_connected t m Hc) as (_ & _ & ->). apply Hse.
    - destruct (send_closed_run t m Hc) as (tr & -> & Hcalls). exact Hcalls. }
  split.
  { intros b m Hp. destruct (handleMessage_valid_run parse t b m Hp) as (tr & -> & _).
    reflexivity. }
  split.
  { intros b e Hp. destruct (handleMessage_invalid_run parse t b e Hp) as (tr & -> & _).
    reflexivity. }
  split.
  { intros b. destruct (parse b) as [e|m] eqn:Hp.
    - destruct (handleMessage_invalid_run parse t b e Hp) as (tr & -> & Hcalls).
      rewrite Hoe in Hcalls. exact Hcalls.
    - destruct (handleMessage_valid_run parse t b m Hp) as (tr & -> & Hcalls).
      rewrite Hom in Hcalls. exact Hcalls. }
  split.
  { intros ctx. destruct (_isConnected t) eqn:Hc.
    - destruct (parse (ctx_body ctx)) as [e|m] eqn:Hp.
      + destruct (handlePostMessage_invalid_run parse t ctx e Hc Hp) as (tr & -> & _).
        eexists; reflexivity.
      + destruct (handlePostMessage_valid_run parse t ctx m Hc Hp) as (tr & -> & _).
        eexists; reflexivity.
    - destruct (handlePostMessage_closed_run parse t ctx Hc) as (tr & -> & _).
      eexists; reflexivity. }
  destruct (close_run t) as (tr & -> & Hcalls). rewrite Hoc in Hcalls.
  split; [reflexivity|]. split; [exact Hcalls|].
  split.
  { intros message x. destruct (handleError_run message x t) as (tr' & -> & Hcalls').
    rewrite Hoe in Hcalls'. split; [reflexivity | exact Hcalls']. }
  split; [exact Hse|].
  destruct (cancel_run t) as (tr' & -> & Hcalls'). rewrite Hoc in Hcalls'.
  split; [reflexivity|]. projections. rewrite Hcalls'.
  destruct (readable (_stream t)); reflexivity.
Qed.

(** A started transport whose slots nobody has filled. *)
Lemma unset_callbacks_are_never_called_witness :
  onclose a_transport = None
  /\ completion (close a_transport) = Normal tt
  /\ completion (ReadableStream_cancel a_transport) = Normal tt
  /\ completion (handleMessage envelope_parse (Some ping) a_transport) = Normal tt.
Proof.
  pose proof (unset_callbacks_are_never_called envelope_parse a_transport
                eq_refl eq_refl eq_refl) as H.
  destruct H as (_ & _ & _ & _ & Hvalid & _ & _ & _ & Hclose & _ & _ & _ & Hcancel & _).
  split; [reflexivity|]. split; [exact Hclose|]. split; [exact Hcancel|].
  apply (Hvalid (Some ping) ping). reflexivity.
Defined.

(* ================================================================= *)
(** ** Lines, events and the endpoint URL *)

Lemma all_chars_app (p : ascii -> bool) (s t : string) :
  all_chars p (s +:+ t) = all_chars p s && all_chars p t.
Proof.
  induction s as [|c s IH]; [reflexivity|].
  rewrite append_cons. simpl. rewrite IH. apply andb_assoc.
Qed.

Lemma all_chars_weaken (p q : ascii -> bool) (s : string) :
  (forall c, p c = true -> q c = true) ->
  all_chars p s = true -> all_chars q s = true.
Proof.
  intros Hpq. induction s as [|c s IH]; simpl; [reflexivity|].
  intros [Hc Hs]%andb_true_iff. rewrite (Hpq c Hc), (IH Hs). reflexivity.
Qed.

Lemma take_line_app (s rest : string) :
  no_LF s = true -> take_line (s +:+ String LF rest) = Some (s, rest).
Proof.
  unfold no_LF. induction s as [|c s IH]; simpl.
  - reflexivity.
  - intros [Hc Hs]%andb_true_iff. rewrite ?append_cons. simpl.
    apply negb_true_iff in Hc. rewrite Hc, (IH Hs). reflexivity.
Qed.

Lemma strip_prefix_app (p s : string) : strip_prefix p (p +:+ s) = Some s.
Proof.
  induction p as [|c p IH]; simpl.
  - destruct s; reflexivity.
  - rewrite ?append_cons, Ascii.eqb_refl. exact IH.
Qed.

Lemma decode_encode (s : string) : TextDecoder_decode (TextEncoder_encode s) = s.
Proof. apply string_of_list_byte_of_string. Qed.

(** An event whose name and payload hold no line feed is read back as it
    was written. *)
Lemma read_event_eventData (event data : string) :
  no_LF event = true ->
  no_LF data = true ->
  read_event (TextEncoder_encode (eventData event data)) = Some (event, data).
Proof.
  intros He Hd. unfold read_event, eventData. rewrite decode_encode.
  rewrite <- append_assoc.
  rewrite take_line_app
    by (unfold no_LF in *; rewrite all_chars_app, He; reflexivity).
  rewrite strip_prefix_app.
  rewrite <- append_assoc.
  rewrite take_line_app
    by (unfold no_LF in *; rewrite all_chars_app, Hd; reflexivity).
  rewrite strip_prefix_app. reflexivity.
Qed.

Lemma Encode_kept (keep : ascii -> bool) (s : string) :
  all_chars keep s = true -> Encode keep s = s.
Proof.
  induction s as [|c s IH]; simpl; [reflexivity|].
  intros [Hc Hs]%andb_true_iff. rewrite Hc, (IH Hs). reflexivity.
Qed.

Lemma HEXDIGIT_not_LF (n : N) : Ascii.eqb (HEXDIGIT n) LF = false.
Proof.
  unfold HEXDIGIT. destruct (n mod 16)%N as [|p]; [reflexivity|].
  do 4 (try destruct p as [p|p|]); reflexivity.
Qed.

(** Percent-encoding leaves no line feed, whichever characters it keeps, as
    long as the line feed is not one of them. *)
Lemma Encode_no_LF (keep : ascii -> bool) (s : string) :
  keep LF = false -> no_LF (Encode keep s) = true.
Proof.
  intros Hk. unfold no_LF. induction s as [|c s IH]; simpl; [reflexivity|].
  destruct (keep c) eqn:Hc.
  - simpl. rewrite IH, andb_true_r. apply negb_true_iff.
    destruct (Ascii.eqb_spec c LF) as [->|]; [congruence | reflexivity].
  - unfold percent_escape. rewrite !append_cons, append_empty_l. simpl.
    rewrite !HEXDIGIT_not_LF, IH. reflexivity.
Qed.

Lemma hexdigit_unescaped (n : N) : uri_unescaped (hexdigit n) = true.
Proof.
  unfold hexdigit. destruct (n mod 16)%N as [|p]; [reflexivity|].
  do 4 (try destruct p as [p|p|]); reflexivity.
Qed.

(** A UUID is made of characters that percent-encoding leaves alone. *)
Lemma randomUUID_unescaped (r : N) : all_chars uri_unescaped (randomUUID r) = true.
Proof.
  unfold randomUUID, hex_bytes, hex2. simpl.
  rewrite !hexdigit_unescaped. reflexivity.
Qed.

Lemma encodeURIComponent_randomUUID (r : N) :
  encodeURIComponent (randomUUID r) = randomUUID r.
Proof. apply Encode_kept, randomUUID_unescaped. Qed.

Lemma unescaped_not_LF (c : ascii) :
  uri_unescaped c = true -> negb (Ascii.eqb c LF) = true.
Proof.
  intros H. apply negb_true_iff.
  destruct (Ascii.eqb_spec c LF) as [->|]; [discriminate H | reflexivity].
Qed.

Lemma endpointUrl_no_LF (t : Transport) :
  (exists r, _sessionId t = randomUUID r) -> no_LF (endpointUrl t) = true.
Proof.
  intros [r Hr]. unfold endpointUrl, no_LF. rewrite !all_chars_app.
  fold (no_LF (encodeURI (_endpoint t))). unfold encodeURI.
  rewrite Encode_no_LF by reflexivity. rewrite Hr.
  rewrite (all_chars_weaken _ _ _ unescaped_not_LF (randomUUID_unescaped r)).
  reflexivity.
Qed.

Lemma endpoint_chunk_start (t : Transport) :
  endpoint_chunk (state_after (start t)) = endpoint_chunk t.
Proof.
  destruct (_isConnected t) eqn:Hc.
  - destruct (start_connected_run t Hc) as (tr & -> & _). reflexivity.
  - destruct (locked (_stream t)) eqn:Hl.
    + destruct (start_locked_run t Hc Hl) as (tr & -> & _). reflexivity.
    + destruct (readable (_stream t)) eqn:Hr.
      * destruct (start_open_run t Hc Hl Hr) as (tr & -> & _). reflexivity.
      * destruct (start_broken_run t Hc Hl Hr) as (tr & -> & _). reflexivity.
Qed.

(** C6: when [start()] returns normally and leaves the transport connected,
    the first chunk the stream ever received is one event [endpoint] whose
    payload is the messages path (URI-encoded, which leaves [/messages] as
    it is) followed by [?sessionId=] and the transport's own session id,
    which is its own percent-encoding.  If
    the transport was not connected before, [start()] has appended exactly
    that chunk, so the stream of a transport that had written nothing holds
    that chunk alone. *)
Theorem start_writes_the_endpoint_event_first
    (parse : unknown -> JsError + Json) (t : Transport) :
  reachable parse t ->
  completion (start t) = Normal tt ->
  _isConnected (state_after (start t)) = true ->
  head (chunks (_stream (state_after (start t)))) = Some (endpoint_chunk t)
  /\ (_isConnected t = false ->
      chunks (_stream (state_after (start t))) = chunks (_stream t) ++ [endpoint_chunk t])
  /\ (chunks (_stream t) = [] ->
      chunks (_stream (state_after (start t))) = [endpoint_chunk t])
  /\ read_event (endpoint_chunk t) = Some ("endpoint", endpointUrl t)
  /\ endpointUrl t
     = encodeURI (_endpoint t) +:+ "?sessionId=" +:+ encodeURIComponent (sessionId t)
  /\ (_endpoint t = "/messages" ->
      endpointUrl t = "/messages?sessionId=" +:+ sessionId t)
  /\ sessionId (state_after (start t)) = sessionId t.
Proof.
  intros Hreach Hnormal Hafter.
  pose proof (reachable_sound parse t Hreach) as Hs.
  pose proof (sound_start t Hs) as Hs'.
  assert (Happend : _isConnected t = false ->
            chunks (_stream (state_after (start t)))
            = chunks (_stream t) ++ [endpoint_chunk t]).
  { intros Hc. destruct (locked (_stream t)) eqn:Hl.
    - destruct (start_locked_run t Hc Hl) as (tr & E & _).
      rewrite E in Hnormal. discriminate Hnormal.
    - destruct (readable (_stream t)) eqn:Hr.
      + destruct (start_open_run t Hc Hl Hr) as (tr & -> & _). reflexivity.
      + destruct (start_broken_run t Hc Hl Hr) as (tr & E & _).
        rewrite E in Hafter. projections. simpl in Hafter. congruence. }
  split.
  { destruct (chunks (_stream (state_after (start t)))) as [|c cs] eqn:Hch.
    - exfalso. apply (sound_written _ Hs' Hafter). exact Hch.
    - simpl. f_equal. rewrite <- (endpoint_chunk_start t).
      apply (sound_first _ Hs'). rewrite Hch. reflexivity. }
  split; [exact Happend|].
  split.
  { intros Hempty. destruct (_isConnected t) eqn:Hc.
    - exfalso. apply (sound_written t Hs Hc). exact Hempty.
    - rewrite (Happend eq_refl), Hempty. reflexivity. }
  split.
  { unfold endpoint_chunk. apply read_event_eventData; [reflexivity|].
    apply endpointUrl_no_LF, (sound_uuid t Hs). }
  split; [|split; [|apply sessionId_start]].
  - destruct (sound_uuid t Hs) as [r Hr].
    unfold endpointUrl, sessionId. rewrite Hr, encodeURIComponent_randomUUID.
    reflexivity.
  - intros Hpath. unfold endpointUrl, sessionId. rewrite Hpath. reflexivity.
Qed.

(** The first [start()] of a fresh transport on [/messages]. *)
Lemma start_writes_the_endpoint_event_first_witness :
  chunks (_stream (state_after (start (constructor "/messages" a_context 5))))
  = [endpoint_chunk (constructor "/messages" a_context 5)]
  /\ endpointUrl (constructor "/messages" a_context 5)
     = "/messages?sessionId=05000000-0000-4000-8000-000000000000".
Proof.
  pose proof (start_writes_the_endpoint_event_first envelope_parse
                (constructor "/messages" a_context 5)
                (reachable_new envelope_parse "/messages" a_context 5)
                eq_refl eq_refl) as H.
  destruct H as (_ & _ & Hfresh & _).
  split; [apply Hfresh; reflexivity | reflexivity].
Defined.

(* ================================================================= *)
(** ** The session registry *)

Lemma sessionId_send (t : Transport) (m : Json) :
  _sessionId (state_after (send m t)) = _sessionId t.
Proof.
  destruct (_isConnected t) eqn:Hc.
  - destruct (send_connected t m Hc) as (_ & -> & _). apply sessionId_sendEvent.
  - destruct (send_closed_run t m Hc) as (tr & -> & _). reflexivity.
Qed.

Lemma server_connect_state (t : Transport) :
  state_after (Index.server_connect None t)
  = state_after (start (set_onmessage (Some Index.Protocol_onmessage)
                         (set_onerror (Some Index.Protocol_onerror)
                           (set_onclose (Some Index.Protocol_onclose) t)))).
Proof.
  unfold Index.server_connect. unfold_monad. simpl.
  destruct (start _) as [[r t'] tr]. reflexivity.
Qed.

Lemma sessionId_server_connect (refusal : option Thrown) (t : Transport) :
  _sessionId (state_after (Index.server_connect refusal t)) = _sessionId t.
Proof.
  destruct refusal as [x|]; [reflexivity|].
  rewrite server_connect_state, sessionId_start. reflexivity.
Qed.

Section Registry.

Variable parse : unknown -> JsError + Json.

Lemma sessionId_perform (a : Action) (t : Transport) :
  _sessionId (state_after (perform parse a t)) = _sessionId t.
Proof.
  destruct a; simpl.
  - apply sessionId_start.
  - apply sessionId_send.
  - pose proof (handlePostMessage_state parse t ctx) as E.
    unfold state_after, bind in *.
    destruct (handlePostMessage parse ctx t) as [[[r|x] t'] tr]; simpl in *;
      subst; reflexivity.
  - rewrite handleMessage_state. reflexivity.
  - destruct (close_run t) as (tr & -> & _). reflexivity.
  - destruct (cancel_run t) as (tr & -> & _). reflexivity.
  - reflexivity.
  - reflexivity.
  - reflexivity.
  - reflexivity.
Qed.

Lemma at_object_state {A} (a : nat) (c : M Transport A) (s : Index.Server)
    (t : Transport) :
  Index.objects s !! a = Some t ->
  state_after (Index.at_object a c s)
  = Index.mkServer (<[a := state_after (c t)]> (Index.objects s)) (Index.transports s).
Proof.
  intros H. unfold Index.at_object. rewrite H.
  destruct (c t) as [[r t'] tr]. reflexivity.
Qed.

Lemma at_object_nowhere {A} (a : nat) (c : M Transport A) (s : Index.Server) :
  Index.objects s !! a = None ->
  state_after (Index.at_object a c s) = s.
Proof. intros H. unfold Index.at_object. rewrite H. reflexivity. Qed.

(** The route of [GET /sse] adds one transport and registers it, whether or
    not the transport then connects. *)
Lemma handleSSEConnection_state (context : Context) (r : N) (refusal : option Thrown)
    (s : Index.Server) :
  exists t',
    state_after (Index.handleSSEConnection context r refusal s)
    = Index.mkServer (Index.objects s ++ [t'])
                     (<[randomUUID r := length (Index.objects s)]> (Index.transports s))
    /\ sessionId t' = randomUUID r.
Proof.
  set (context' := set_headers
         (fold_left (fun hs kv => Index.header_set (fst kv) (snd kv) hs)
                    Index.SSE_HEADERS (ctx_set_headers context)) context).
  exists (state_after (Index.server_connect refusal (constructor "/messages" context' r))).
  split; [|apply sessionId_server_connect].
  assert (Hput : forall t' : Transport,
             <[length (Index.objects s) := t']>
               (Index.objects s ++ [constructor "/messages" context' r])
             = Index.objects s ++ [t']).
  { intros t'.
    replace (length (Index.objects s)) with (length (Index.objects s) + 0)%nat at 1 by lia.
    rewrite insert_app_r. reflexivity. }
  unfold Index.handleSSEConnection. fold context'.
  remember (Index.server_connect refusal (constructor "/messages" context' r)) as res eqn:Hres.
  unfold bind at 1. unfold emit at 1. unfold try_catch.
  unfold bind at 1. unfold emit at 1.
  unfold bind at 1. unfold emit at 1.
  unfold bind at 1. unfold get at 1.
  unfold bind at 1. unfold modify at 1.
  unfold bind at 1. unfold get at 1.
  unfold bind at 1. unfold emit at 1.
  unfold bind at 1. unfold Index.at_object.
  cbn [Index.objects Index.transports].
  rewrite list_lookup_middle by reflexivity.
  rewrite <- Hres. destruct res as [[[[]|x] t'] tr].
  - unfold bind, emit, get, ret. cbn [Index.objects Index.transports state_after fst snd].
    rewrite Hput. reflexivity.
  - unfold bind, emit, get, ret. cbn [Index.objects Index.transports state_after fst snd].
    rewrite Hput. reflexivity.
Qed.

(** The route of [POST /messages] leaves the registry and every transport's
    session id as they were. *)
Lemma handleMessage_route_state (context : Context) (s : Index.Server) :
  state_after (Index.handleMessage parse context s) = s.
Proof.
  unfold Index.handleMessage. unfold_monad. simpl.
  destruct (ctx_sessionId context) as [[|c sid]|]; simpl; try reflexivity.
  destruct (Index.transports s !! String c sid) as [a|] eqn:Hk; simpl; [|reflexivity].
  unfold Index.at_object.
  destruct (Index.objects s !! a) as [t|] eqn:Ha; simpl; [|reflexivity].
  pose proof (handlePostMessage_state parse t context) as E.
  unfold state_after in E.
  destruct (handlePostMessage parse context t) as [[[resp|x] t'] tr]; simpl in *; subst t';
    rewrite list_insert_id by exact Ha; destruct s; reflexivity.
Qed.

Lemma registry_ok_init : Index.registry_ok Index.init.
Proof.
  split; simpl.
  - intros k a H. rewrite lookup_empty in H. discriminate.
  - intros a t H. rewrite lookup_nil in H. discriminate.
Qed.

Lemma registry_ok_register (s : Index.Server) (t' : Transport) :
  Index.registry_ok s ->
  Index.registry_ok
    (Index.mkServer (Index.objects s ++ [t'])
                    (<[sessionId t' := length (Index.objects s)]> (Index.transports s))).
Proof.
  intros [Hk Hc]. split; simpl.
  - intros k a. rewrite lookup_insert. case_decide as Hd.
    + intros [= <-]. subst k. exists t'. split; [|reflexivity].
      apply list_lookup_middle. reflexivity.
    + intros H. destruct (Hk k a H) as (t & Ht & Hid). exists t. split; [|exact Hid].
      rewrite lookup_app_l; [exact Ht | eapply lookup_lt_Some, Ht].
  - intros a t. rewrite lookup_snoc_Some. intros [[_ H] | [_ <-]].
    + rewrite lookup_insert. case_decide; [eauto | apply (Hc a t H)].
    + rewrite lookup_insert_eq. eauto.
Qed.

Lemma registry_ok_update (s : Index.Server) (a : nat) (t t' : Transport) :
  Index.registry_ok s ->
  Index.objects s !! a = Some t ->
  sessionId t' = sessionId t ->
  Index.registry_ok (Index.mkServer (<[a := t']> (Index.objects s)) (Index.transports s)).
Proof.
  intros [Hk Hc] Ha Hid. split; simpl.
  - intros k b H. destruct (Hk k b H) as (u & Hu & Huid).
    destruct (decide (a = b)) as [<-|Hne].
    + exists t'. split.
      * apply list_lookup_insert_eq. eapply lookup_lt_Some, Ha.
      * rewrite Hid. congruence.
    + exists u. split; [|exact Huid]. rewrite list_lookup_insert_ne by exact Hne.
      exact Hu.
  - intros b u. destruct (decide (a = b)) as [<-|Hne].
    + rewrite list_lookup_insert_eq by (eapply lookup_lt_Some, Ha).
      intros [= <-]. rewrite Hid. apply (Hc a t Ha).
    + rewrite list_lookup_insert_ne by exact Hne. apply Hc.
Qed.

Lemma happen_on_transport_state (a : nat) (act : Action) (s : Index.Server) :
  state_after (Index.happen parse (Index.on_transport a act) s)
  = match Index.objects s !! a with
    | Some t => Index.mkServer (<[a := state_after (perform parse act t)]> (Index.objects s))
                               (Index.transports s)
    | None => s
    end.
Proof.
  simpl. destruct (Index.objects s !! a) as [t|] eqn:Ha; [|reflexivity].
  apply at_object_state, Ha.
Qed.

Lemma happen_GET_state (context : Context) (r : N) (refusal : option Thrown)
    (s : Index.Server) :
  state_after (Index.happen parse (Index.GET_sse context r refusal) s)
  = state_after (Index.handleSSEConnection context r refusal s).
Proof.
  simpl. unfold bind, state_after.
  destruct (Index.handleSSEConnection context r refusal s) as [[[resp|x] s'] tr];
    reflexivity.
Qed.

Lemma happen_POST_state (context : Context) (s : Index.Server) :
  state_after (Index.happen parse (Index.POST_messages context) s) = s.
Proof.
  pose proof (handleMessage_route_state context s) as E.
  simpl. unfold bind, state_after in *.
  destruct (Index.handleMessage parse context s) as [[[resp|x] s'] tr]; exact E.
Qed.

Lemma registry_ok_happen (h : Index.Happening) (s : Index.Server) :
  Index.registry_ok s -> Index.registry_ok (state_after (Index.happen parse h s)).
Proof.
  intros Hok. destruct h as [context r refusal | context | a act].
  - rewrite happen_GET_state.
    destruct (handleSSEConnection_state context r refusal s) as (t' & -> & Hid).
    rewrite <- Hid. apply registry_ok_register, Hok.
  - rewrite happen_POST_state. exact Hok.
  - rewrite happen_on_transport_state.
    destruct (Index.objects s !! a) as [t|] eqn:Ha; [|exact Hok].
    apply (registry_ok_update s a t); [exact Hok | exact Ha |].
    apply sessionId_perform.
Qed.

Lemma reachable_registry_ok (s : Index.Server) :
  Index.reachable_state parse s -> Index.registry_ok s.
Proof.
  induction 1 as [|h s _ IH].
  - apply registry_ok_init.
  - apply registry_ok_happen, IH.
Qed.

(** Nothing that happens removes a key of the registry. *)
Lemma happen_keeps_keys (h : Index.Happening) (s : Index.Server) :
  dom (Index.transports s) ⊆ dom (Index.transports (state_after (Index.happen parse h s))).
Proof.
  destruct h as [context r refusal | context | a act].
  - rewrite happen_GET_state.
    destruct (handleSSEConnection_state context r refusal s) as (t' & -> & _).
    simpl. apply dom_insert_subseteq.
  - rewrite happen_POST_state. reflexivity.
  - rewrite happen_on_transport_state.
    destruct (Index.objects s !! a); reflexivity.
Qed.

Lemma registry_ok_keys (s : Index.Server) :
  Index.registry_ok s -> dom (Index.transports s) = Index.created_ids s.
Proof.
  intros [Hk Hc]. apply set_eq. intros k. unfold Index.created_ids.
  rewrite elem_of_dom, elem_of_list_to_set, list_elem_of_fmap. split.
  - intros [a Ha]. destruct (Hk k a Ha) as (t & Ht & Hid).
    exists t. split; [symmetry; exact Hid|]. eapply list_elem_of_lookup_2, Ht.
  - intros (t & -> & Hin). apply list_elem_of_lookup_1 in Hin as [a Ha].
    apply (Hc a t Ha).
Qed.

Lemma connected_are_created (s : Index.Server) :
  Index.connected_ids s ⊆ Index.created_ids s.
Proof.
  unfold Index.connected_ids, Index.created_ids. intros k.
  rewrite !elem_of_list_to_set, !list_elem_of_fmap.
  intros (t & -> & Hin). exists t. split; [reflexivity|].
  apply list_elem_of_filter in Hin. apply Hin.
Qed.

End Registry.

(** C2, as the code has it: in every state the process can reach, the keys
    of the registry are the session ids of all the transports that were
    created, each key leading to the transport with that session id; so the
    session id of every connected transport is a key; and nothing that
    happens afterwards, a close, a cancellation or a write failure included,
    removes a key. *)
Theorem registry_keys_are_the_created_sessions
    (parse : unknown -> JsError + Json) (s : Index.Server) :
  Index.reachable_state parse s ->
  dom (Index.transports s) = Index.created_ids s
  /\ Index.connected_ids s ⊆ dom (Index.transports s)
  /\ (forall k a, Index.transports s !! k = Some a ->
        exists t, Index.objects s !! a = Some t /\ sessionId t = k)
  /\ (forall h, dom (Index.transports s)
                ⊆ dom (Index.transports (state_after (Index.happen parse h s)))).
Proof.
  intros Hreach. pose proof (reachable_registry_ok parse s Hreach) as Hok.
  split; [apply registry_ok_keys, Hok|].
  split; [rewrite (registry_ok_keys s Hok); apply connected_are_created|].
  split; [apply Hok|].
  intros h. apply happen_keeps_keys.
Qed.

(** The process after one client has connected and its transport was closed. *)
Lemma registry_keys_are_the_created_sessions_witness :
  dom (Index.transports one_session_closed) = Index.created_ids one_session_closed
  /\ Index.connected_ids one_session_closed ⊆ dom (Index.transports one_session_closed).
Proof.
  pose proof (registry_keys_are_the_created_sessions envelope_parse one_session_closed
                (Index.reachable_happen envelope_parse _ _
                   (Index.reachable_happen envelope_parse _ _
                      (Index.reachable_init envelope_parse))))
    as (H1 & H2 & _).
  split; [exact H1 | exact H2].
Defined.

(** C2 as the specification states it fails: after a client has connected
    and its transport was closed, no transport is connected and the registry
    still holds the session's key. *)
Lemma registry_keeps_the_key_of_a_closed_transport :
  Index.reachable_state envelope_parse one_session_closed
  /\ Index.connected_ids one_session_closed = ∅
  /\ dom (Index.transports one_session_closed)
     = {[ "05000000-0000-4000-8000-000000000000" ]}
  /\ ~ Index.keys_are_the_connected one_session_closed.
Proof.
  split; [do 2 apply Index.reachable_happen; apply Index.reachable_init|].
  split; [vm_compute; reflexivity|].
  split; [vm_compute; reflexivity|].
  unfold Index.keys_are_the_connected. vm_compute. intros H. discriminate H.
Qed.

(* ================================================================= *)
(** ** [JSON.parse] reads back what [JSON.stringify] wrote *)

(** *** String literals *)

(** Reading one character as [QuoteJSONString] wrote it. *)
Lemma parse_chars_quote_char (c : ascii) (tail : string) :
  parse_chars (quote_char c +:+ tail)
  = match parse_chars tail with
    | Some (str, rest) => Some (String c str, rest)
    | None => None
    end.
Proof.
  destruct c as [[|] [|] [|] [|] [|] [|] [|] [|]]; reflexivity.
Qed.

Lemma parse_chars_quote_body (s rest : string) :
  parse_chars (quote_body s +:+ String DQUOTE rest) = Some (s, rest).
Proof.
  induction s as [|c s IH].
  - reflexivity.
  - simpl quote_body. rewrite append_assoc, parse_chars_quote_char, IH. reflexivity.
Qed.

Lemma no_LF_quote_char (c : ascii) : no_LF (quote_char c) = true.
Proof.
  destruct c as [[|] [|] [|] [|] [|] [|] [|] [|]]; reflexivity.
Qed.

Lemma no_LF_app (s t : string) : no_LF (s +:+ t) = no_LF s && no_LF t.
Proof. apply all_chars_app. Qed.

Lemma no_LF_QuoteJSONString (s : string) : no_LF (QuoteJSONString s) = true.
Proof.
  unfold QuoteJSONString.
  assert (H : no_LF (quote_body s) = true).
  { induction s as [|c s IH]; [reflexivity|].
    simpl quote_body. rewrite no_LF_app, no_LF_quote_char, IH. reflexivity. }
  change (no_LF (str1 DQUOTE +:+ (quote_body s +:+ str1 DQUOTE)) = true).
  rewrite !no_LF_app, H. reflexivity.
Qed.

(** *** Numbers *)

Lemma read_uint_stop (rest : string) :
  continues_number rest = false -> read_uint rest = (Decimal.Nil, rest).
Proof.
  destruct rest as [|c rest]; [reflexivity|]. simpl.
  intros [_ H]%orb_false_iff. destruct (digit_of c); [|reflexivity].
  rewrite bool_decide_eq_false in H. exfalso. apply H. eauto.
Qed.

Lemma read_uint_string_of_uint (u : Decimal.uint) (rest : string) :
  continues_number rest = false ->
  read_uint (NilEmpty.string_of_uint u +:+ rest) = (u, rest).
Proof.
  intros Hrest. induction u; simpl NilEmpty.string_of_uint;
    rewrite ?append_cons, ?append_empty_l;
    try (apply read_uint_stop, Hrest);
    simpl; rewrite IHu; reflexivity.
Qed.

Lemma unorm_to_uint (n : N) : Decimal.unorm (N.to_uint n) = N.to_uint n.
Proof.
  rewrite <- (DecimalN.Unsigned.to_of (N.to_uint n)), DecimalN.Unsigned.of_to.
  reflexivity.
Qed.

Lemma length_append (s t : string) :
  String.length (s +:+ t) = (String.length s + String.length t)%nat.
Proof.
  induction s as [|c s IH]; [reflexivity|].
  rewrite append_cons. simpl. rewrite IH. reflexivity.
Qed.

Lemma continues_stops (rest : string) : continues_number rest = false -> stops rest.
Proof.
  destruct rest as [|c rest]; simpl; [auto|].
  intros [_ H]%orb_false_iff. rewrite bool_decide_eq_false in H.
  destruct c as [[|] [|] [|] [|] [|] [|] [|] [|]]; try reflexivity;
    exfalso; apply H; simpl; eauto.
Qed.

Lemma read_digits_app (ds rest : string) :
  all_chars is_digit ds = true -> stops rest ->
  read_digits (ds +:+ rest) = (ds, rest).
Proof.
  induction ds as [|c ds IH]; simpl.
  - intros _ H. destruct rest as [|c rest]; [reflexivity|]. simpl in *. rewrite H. reflexivity.
  - intros [Hc Hds]%andb_true_iff H. rewrite Hc, (IH Hds H). reflexivity.
Qed.

Lemma digits_string_of_uint (u : Decimal.uint) : all_chars is_digit (NilEmpty.string_of_uint u) = true.
Proof. induction u; simpl; auto. Qed.

Lemma digits_are_digits (n : N) : all_chars is_digit (digits n) = true.
Proof. apply digits_string_of_uint. Qed.

Lemma zeros_are_digits (m : nat) : all_chars is_digit (zeros m) = true.
Proof. induction m; simpl; auto. Qed.

Lemma take_are_digits (m : nat) (ds : string) :
  all_chars is_digit ds = true -> all_chars is_digit (take_chars m ds) = true.
Proof.
  revert ds. induction m as [|m IH]; intros [|c ds]; simpl; auto.
  intros [Hc Hds]%andb_true_iff. rewrite Hc. simpl. auto.
Qed.

Lemma drop_are_digits (m : nat) (ds : string) :
  all_chars is_digit ds = true -> all_chars is_digit (drop_chars m ds) = true.
Proof.
  revert ds. induction m as [|m IH]; intros [|c ds]; simpl; auto.
  intros [Hc Hds]%andb_true_iff. auto.
Qed.

Lemma take_drop (m : nat) (ds : string) : take_chars m ds +:+ drop_chars m ds = ds.
Proof.
  revert ds. induction m as [|m IH]; intros [|c ds]; simpl; auto.
  rewrite append_cons, IH. reflexivity.
Qed.

Lemma length_take (m : nat) (ds : string) :
  (m <= String.length ds)%nat -> String.length (take_chars m ds) = m.
Proof.
  revert ds. induction m as [|m IH]; intros [|c ds]; simpl; auto; try lia.
  intros H. rewrite IH; lia.
Qed.

Lemma length_zeros (m : nat) : String.length (zeros m) = m.
Proof. induction m; simpl; auto. Qed.

Lemma strip_zeros_zeros (m : nat) (ds : string) : strip_zeros (zeros m +:+ ds) = strip_zeros ds.
Proof. induction m; simpl; auto. Qed.

Lemma strip_trailing_zeros_zeros (m : nat) : strip_trailing_zeros (zeros m) = EmptyString.
Proof. induction m; simpl; auto. rewrite IHm. reflexivity. Qed.

Lemma strip_trailing_app_zeros (ds : string) (m : nat) :
  strip_trailing_zeros (ds +:+ zeros m) = strip_trailing_zeros ds.
Proof.
  induction ds as [|c ds IH].
  - rewrite append_empty_l. apply strip_trailing_zeros_zeros.
  - rewrite append_cons. simpl. rewrite IH. reflexivity.
Qed.

(** The digits of a positive number start with a digit that is not 0. *)
Lemma nzhead_head (u : Decimal.uint) :
  forall u', Decimal.nzhead u <> Decimal.D0 u'.
Proof. induction u; simpl; intros u'; first [congruence | apply IHu]. Qed.

Lemma digits_pos_head (p : positive) :
  exists c more, digits (Npos p) = String c more /\ Ascii.eqb c "0" = false
                 /\ is_digit c = true.
Proof.
  unfold digits. pose proof (unorm_to_uint (Npos p)) as Hn.
  pose proof (DecimalPos.Unsigned.to_uint_nonzero p) as Hz.
  change (N.to_uint (N.pos p)) with (Pos.to_uint p) in *.
  destruct (Pos.to_uint p) as [|u|u|u|u|u|u|u|u|u|u] eqn:E.
  all: try (simpl; eexists _, _; repeat split; reflexivity).
  - discriminate Hn.
  - exfalso. unfold Decimal.unorm in Hn. simpl in Hn.
    destruct (Decimal.nzhead u) eqn:Eu; try discriminate Hn.
    + apply Hz. injection Hn as <-. reflexivity.
    + apply (nzhead_head u u). rewrite Eu. exact Hn.
Qed.

Lemma value_of_digits (n : N) : N.of_uint (fst (read_uint (digits n))) = n.
Proof.
  rewrite <- (append_empty_r (digits n)). unfold digits.
  rewrite read_uint_string_of_uint by reflexivity. simpl.
  apply DecimalN.Unsigned.of_to.
Qed.

Lemma read_fraction_stop (rest : string) :
  continues_number rest = false -> read_fraction rest = Some (EmptyString, rest).
Proof.
  destruct rest as [|c rest]; [reflexivity|]. simpl.
  intros [H _]%orb_false_iff.
  destruct (Ascii.eqb_spec c "."); [subst; discriminate H | reflexivity].
Qed.

Lemma read_exponent_stop (rest : string) :
  continues_number rest = false -> read_exponent rest = Some (0, rest).
Proof.
  destruct rest as [|c rest]; [reflexivity|]. simpl.
  intros [H _]%orb_false_iff.
  destruct (Ascii.eqb_spec c "e"); [subst; discriminate H |].
  destruct (Ascii.eqb_spec c "E"); [subst; discriminate H | reflexivity].
Qed.


Lemma length_drop (m : nat) (ds : string) :
  String.length (drop_chars m ds) = (String.length ds - m)%nat.
Proof. revert ds. induction m as [|m IH]; intros [|c ds]; simpl; auto. Qed.

Lemma strip_zeros_head (c : ascii) (more : string) :
  Ascii.eqb c "0" = false -> strip_zeros (String c more) = String c more.
Proof. intros H. simpl. rewrite H. reflexivity. Qed.

(** The number of an integer part and a fraction that hold the digits of
    [p] between [a] zeros and [b] zeros. *)
Lemma number_of_digits (negative : bool) (p : positive) (n e : Z)
    (int frac : string) (a b : nat) :
  int +:+ frac = zeros a +:+ digits (Npos p) +:+ zeros b ->
  js_number (Finite negative p n) = true ->
  Z.of_nat (String.length int) + e - Z.of_nat a = n ->
  number_of_decimal negative int frac e = Some (Finite negative p n).
Proof.
  intros Hall Hjs Hn. unfold number_of_decimal. rewrite Hall.
  simpl in Hjs.
  apply andb_true_iff in Hjs as [Hjs Hhi].
  apply andb_true_iff in Hjs as [Hjs Hlo].
  apply andb_true_iff in Hjs as [Hcanon Hlen].
  apply String.eqb_eq in Hcanon.
  destruct (digits_pos_head p) as (c & more & E & Hc & _).
  rewrite strip_zeros_zeros.
  assert (Hlead : strip_zeros (digits (Npos p) +:+ zeros b) = digits (Npos p) +:+ zeros b).
  { rewrite E, append_cons. apply strip_zeros_head, Hc. }
  rewrite Hlead, strip_trailing_app_zeros, Hcanon, value_of_digits.
  rewrite !length_append, !length_zeros.
  replace (a + (String.length (digits (N.pos p)) + b)
           - (String.length (digits (N.pos p)) + b))%nat with a by lia.
  rewrite Hn.
  rewrite Hlen, Hlo, Hhi. reflexivity.
Qed.

Lemma digits_nonnil (n : N) : N.to_uint n <> Decimal.Nil.
Proof.
  pose proof (DecimalFacts.unorm_nonnil (N.to_uint n)) as H.
  rewrite unorm_to_uint in H. exact H.
Qed.

Lemma read_exponent_text (e : Z) (rest : string) :
  continues_number rest = false ->
  read_exponent (String "e" (exponent_text e +:+ rest)) = Some (e, rest).
Proof.
  intros Hrest. unfold exponent_text. rewrite append_cons.
  unfold read_exponent. cbn [Ascii.eqb Bool.eqb orb].
  assert (Hs : read_sign (String (if e <? 0 then "-"%char else "+"%char)
                                 (digits (Z.abs_N e) +:+ rest))
               = (e <? 0, digits (Z.abs_N e) +:+ rest)).
  { destruct (e <? 0); reflexivity. }
  rewrite Hs. unfold digits. rewrite (read_uint_string_of_uint _ _ Hrest).
  pose proof (digits_nonnil (Z.abs_N e)) as Hnil.
  destruct (N.to_uint (Z.abs_N e)) eqn:Eu; try congruence;
    rewrite <- Eu, DecimalN.Unsigned.of_to;
    (destruct (Z.ltb_spec e 0); f_equal; f_equal; lia).
Qed.

(** Each of the four forms Number::toString writes is read back. *)
Section Forms.

Variables (negative : bool) (p : positive) (n : Z) (rest : string).
Hypothesis Hjs : js_number (Finite negative p n) = true.
Hypothesis Hrest : continues_number rest = false.

Lemma form_integer :
  Z.of_nat (String.length (digits (Npos p))) <= n ->
  parse_unsigned negative
    ((digits (Npos p) +:+ zeros (Z.to_nat (n - Z.of_nat (String.length (digits (Npos p)))))) +:+ rest)
  = Some (Finite negative p n, rest).
Proof.
  set (ds := digits (Npos p)).
  intros Hk.
  destruct (digits_pos_head p) as (c & more & E & Hc & Hcd). fold ds in E.
  unfold parse_unsigned.
  rewrite read_digits_app;
    [| rewrite all_chars_app, zeros_are_digits; unfold ds; rewrite digits_are_digits; reflexivity
     | apply continues_stops, Hrest].
  assert (Hv : valid_int (ds +:+ zeros (Z.to_nat (n - Z.of_nat (String.length ds)))) = true).
  { rewrite E, append_cons. simpl. rewrite Hc. destruct (more +:+ _); reflexivity. }
  rewrite Hv, (read_fraction_stop _ Hrest), (read_exponent_stop _ Hrest).
  rewrite (number_of_digits negative p n 0 _ _ 0 (Z.to_nat (n - Z.of_nat (String.length ds))));
    [reflexivity | | exact Hjs |].
  - rewrite append_empty_r. reflexivity.
  - rewrite length_append, length_zeros. lia.
Qed.

Lemma form_fraction :
  0 < n < Z.of_nat (String.length (digits (Npos p))) ->
  parse_unsigned negative
    ((take_chars (Z.to_nat n) (digits (Npos p)) +:+ String "." (drop_chars (Z.to_nat n) (digits (Npos p)))) +:+ rest)
  = Some (Finite negative p n, rest).
Proof.
  set (ds := digits (Npos p)).
  intros Hn.
  destruct (digits_pos_head p) as (c & more & E & Hc & Hcd). fold ds in E.
  pose proof (digits_are_digits (Npos p)) as Hds. fold ds in Hds.
  unfold parse_unsigned. rewrite append_assoc, append_cons.
  rewrite read_digits_app; [| apply take_are_digits, Hds | reflexivity].
  assert (Hv : valid_int (take_chars (Z.to_nat n) ds) = true).
  { rewrite E. destruct (Z.to_nat n) as [|m] eqn:Em; [lia|]. simpl. rewrite Hc.
    destruct (take_chars m more); reflexivity. }
  rewrite Hv. unfold read_fraction. cbn [Ascii.eqb Bool.eqb].
  rewrite read_digits_app; [| apply drop_are_digits, Hds | apply continues_stops, Hrest].
  pose proof (length_drop (Z.to_nat n) ds) as Hld.
  destruct (drop_chars (Z.to_nat n) ds) as [|d frac] eqn:Ed; [simpl in Hld; lia|].
  rewrite (read_exponent_stop _ Hrest).
  rewrite (number_of_digits negative p n 0 _ _ 0 0); [reflexivity | | exact Hjs |].
  - rewrite <- Ed, take_drop. simpl. rewrite append_empty_r. reflexivity.
  - rewrite length_take by lia. lia.
Qed.

Lemma form_small :
  n <= 0 ->
  parse_unsigned negative
    (String "0" (String "." (zeros (Z.to_nat (- n)) +:+ (digits (Npos p)))) +:+ rest)
  = Some (Finite negative p n, rest).
Proof.
  set (ds := digits (Npos p)).
  intros Hn.
  destruct (digits_pos_head p) as (c & more & E & Hc & Hcd). fold ds in E.
  pose proof (digits_are_digits (Npos p)) as Hds. fold ds in Hds.
  unfold parse_unsigned. rewrite !append_cons.
  cbn [read_digits is_digit N_of_ascii]. 
  change (is_digit "0") with true. change (is_digit ".") with false.
  cbn [valid_int read_fraction Ascii.eqb Bool.eqb].
  rewrite read_digits_app;
    [| rewrite all_chars_app, zeros_are_digits, Hds; reflexivity
     | apply continues_stops, Hrest].
  assert (Hne : exists d frac, zeros (Z.to_nat (- n)) +:+ ds = String d frac).
  { rewrite E. destruct (Z.to_nat (- n)); simpl; eauto. }
  destruct Hne as (d & frac & Ef). rewrite Ef. rewrite <- Ef.
  rewrite (read_exponent_stop _ Hrest).
  rewrite (number_of_digits negative p n 0 _ _ (S (Z.to_nat (- n))) 0);
    [reflexivity | | exact Hjs |].
  - simpl. rewrite append_empty_r. reflexivity.
  - simpl String.length. lia.
Qed.

Lemma form_exponent :
  parse_unsigned negative
    (match (digits (Npos p)) with
     | String d EmptyString => String d (String "e" (exponent_text (n - 1)))
     | String d more => String d (String "." (more +:+ String "e" (exponent_text (n - 1))))
     | EmptyString => EmptyString
     end +:+ rest)
  = Some (Finite negative p n, rest).
Proof.
  set (ds := digits (Npos p)).
  destruct (digits_pos_head p) as (c & more & E & Hc & Hcd). fold ds in E.
  pose proof (digits_are_digits (Npos p)) as Hds. fold ds in Hds.
  rewrite E in Hds |- *. simpl in Hds. apply andb_true_iff in Hds as [_ Hmore].
  unfold parse_unsigned.
  destruct more as [|d more].
  - rewrite !append_cons. cbn [read_digits]. rewrite Hcd.
    change (is_digit "e") with false.
    cbn [valid_int read_fraction Ascii.eqb Bool.eqb].
    replace (Ascii.eqb "e" ".") with false by reflexivity.
    rewrite (read_exponent_text _ _ Hrest).
    rewrite (number_of_digits negative p n (n - 1) _ _ 0 0); [reflexivity | | exact Hjs |].
    + fold ds. rewrite E. reflexivity.
    + simpl. lia.
  - cbn iota. remember (String d more) as frac eqn:Ef.
    rewrite !append_cons. cbn [read_digits]. rewrite Hcd.
    change (is_digit ".") with false.
    cbn [valid_int read_fraction Ascii.eqb Bool.eqb].
    rewrite append_assoc, append_cons.
    rewrite read_digits_app; [| exact Hmore | reflexivity].
    assert (Hm : match frac with
                 | EmptyString => None
                 | String _ _ => Some (frac, String "e" (exponent_text (n - 1) +:+ rest))
                 end = Some (frac, String "e" (exponent_text (n - 1) +:+ rest)))
      by (rewrite Ef; reflexivity).
    rewrite Hm.
    rewrite (read_exponent_text _ _ Hrest).
    rewrite (number_of_digits negative p n (n - 1) _ _ 0 0); [reflexivity | | exact Hjs |].
    + fold ds. rewrite E. simpl. rewrite append_empty_r. reflexivity.
    + simpl. lia.
Qed.

Lemma parse_unsigned_decimal_text :
  parse_unsigned negative (decimal_text (digits (Npos p)) n +:+ rest)
  = Some (Finite negative p n, rest).
Proof.
  unfold decimal_text.
  destruct (Z.leb_spec (Z.of_nat (String.length (digits (Npos p)))) n) as [Hk|Hk];
    destruct (Z.leb_spec n 21) as [H21|H21]; cbn [andb].
  - apply form_integer, Hk.
  - destruct (Z.ltb_spec 0 n); cbn [andb]; [|lia].
    destruct (Z.ltb_spec (-6) n); cbn [andb]; [|lia].
    destruct (Z.leb_spec n 0); [lia|]. apply form_exponent.
  - destruct (Z.ltb_spec 0 n); cbn [andb].
    + apply form_fraction. lia.
    + destruct (Z.ltb_spec (-6) n); cbn [andb].
      * destruct (Z.leb_spec n 0); [|lia]. apply form_small. lia.
      * apply form_exponent.
  - destruct (Z.ltb_spec 0 n); cbn [andb]; [|lia].
    destruct (Z.ltb_spec (-6) n); cbn [andb]; [|lia].
    destruct (Z.leb_spec n 0); [lia|]. apply form_exponent.
Qed.

End Forms.

Lemma decimal_text_head (p : positive) (n : Z) :
  exists c s, decimal_text (digits (Npos p)) n = String c s /\ is_digit c = true.
Proof.
  destruct (digits_pos_head p) as (c & more & E & Hc & Hcd).
  unfold decimal_text. rewrite E.
  destruct (_ && _).
  - rewrite append_cons. eauto.
  - destruct (Z.ltb_spec 0 n); cbn [andb].
    + destruct (n <=? 21).
      * destruct (Z.to_nat n) eqn:En; [lia|]. simpl. eauto.
      * destruct (_ && _); [eexists _, _; split; reflexivity|].
        destruct more; eauto.
    + destruct (_ && _); [eexists _, _; split; reflexivity|].
      destruct more; eauto.
Qed.

Lemma digit_facts (c : ascii) :
  is_digit c = true ->
  Ascii.eqb c "-" = false /\ (is_Some (digit_of c) \/ c = "-"%char).
Proof.
  destruct c as [[|] [|] [|] [|] [|] [|] [|] [|]]; intros H; try discriminate H;
    (split; [reflexivity | left; simpl; eauto]).
Qed.

Lemma parse_number_toString (x : Number) (rest : string) :
  js_number x = true ->
  continues_number rest = false ->
  parse_number (Number_toString x +:+ rest) = Some (x, rest).
Proof.
  intros Hjs Hrest. destruct x as [ | neg | neg | neg p n]; try discriminate Hjs.
  - destruct neg; [discriminate Hjs|]. simpl Number_toString.
    rewrite append_cons, append_empty_l. unfold parse_number. cbn [Ascii.eqb Bool.eqb].
    unfold parse_unsigned. cbn [read_digits]. change (is_digit "0") with true.
    pose proof (read_digits_app "" rest eq_refl (continues_stops rest Hrest)) as Hd.
    rewrite append_empty_l in Hd. rewrite Hd.
    cbn [valid_int]. rewrite (read_fraction_stop _ Hrest), (read_exponent_stop _ Hrest).
    reflexivity.
  - destruct neg; simpl Number_toString.
    + rewrite append_cons. unfold parse_number. cbn [Ascii.eqb Bool.eqb].
      apply parse_unsigned_decimal_text; assumption.
    + destruct (decimal_text_head p n) as (c & s & E & Hc).
      destruct (digit_facts c Hc) as [Hm _].
      transitivity (parse_unsigned false (decimal_text (digits (N.pos p)) n +:+ rest)).
      * rewrite E, append_cons. unfold parse_number. rewrite Hm. reflexivity.
      * apply parse_unsigned_decimal_text; assumption.
Qed.

Lemma number_text_head (x : Number) :
  exists c s, number_text x = String c s
              /\ (is_Some (digit_of c) \/ c = "-"%char \/ c = "n"%char).
Proof.
  destruct x as [ | neg | neg | neg p n]; simpl.
  - eexists _, _; split; [reflexivity|]. auto.
  - eexists _, _; split; [reflexivity|]. auto.
  - eexists _, _; split; [reflexivity|]. left. simpl. eauto.
  - destruct neg.
    + eexists _, _; split; [reflexivity|]. auto.
    + destruct (decimal_text_head p n) as (c & s & E & Hc).
      exists c, s. split; [exact E|]. destruct (digit_facts c Hc) as [_ [H|H]]; auto.
Qed.

Lemma digit_not_LF (c : ascii) : is_digit c = true -> negb (Ascii.eqb c LF) = true.
Proof.
  destruct c as [[|] [|] [|] [|] [|] [|] [|] [|]]; intros H; try discriminate H; reflexivity.
Qed.

Lemma no_LF_digit_string (ds : string) : all_chars is_digit ds = true -> no_LF ds = true.
Proof. apply all_chars_weaken, digit_not_LF. Qed.

Lemma no_LF_decimal_text (ds : string) (n : Z) :
  all_chars is_digit ds = true -> no_LF (decimal_text ds n) = true.
Proof.
  intros Hds. unfold decimal_text.
  assert (He : no_LF (exponent_text (n - 1)) = true).
  { unfold exponent_text.
    change (no_LF (str1 (if n - 1 <? 0 then "-"%char else "+"%char)
                   +:+ digits (Z.abs_N (n - 1))) = true).
    rewrite no_LF_app, (no_LF_digit_string _ (digits_are_digits _)).
    destruct (n - 1 <? 0); reflexivity. }
  destruct (_ && _).
  { rewrite no_LF_app, (no_LF_digit_string _ Hds),
      (no_LF_digit_string _ (zeros_are_digits _)). reflexivity. }
  destruct (_ && _).
  { change (String "." ?s) with (str1 "." +:+ s).
    rewrite !no_LF_app, (no_LF_digit_string _ (take_are_digits _ _ Hds)),
      (no_LF_digit_string _ (drop_are_digits _ _ Hds)). reflexivity. }
  destruct (_ && _).
  { change (no_LF ("0." +:+ (zeros (Z.to_nat (- n)) +:+ ds)) = true).
    rewrite !no_LF_app, (no_LF_digit_string _ Hds),
      (no_LF_digit_string _ (zeros_are_digits _)). reflexivity. }
  destruct ds as [|d more]; [reflexivity|].
  simpl in Hds. apply andb_true_iff in Hds as [Hd Hmore].
  destruct more as [|d' more].
  - change (no_LF (str1 d +:+ (str1 "e" +:+ exponent_text (n - 1))) = true).
    rewrite !no_LF_app, He. unfold no_LF, str1. cbn [all_chars].
    rewrite (digit_not_LF d Hd). reflexivity.
  - change (no_LF (str1 d +:+ (str1 "." +:+ (String d' more +:+ (str1 "e" +:+ exponent_text (n - 1))))) = true).
    rewrite !no_LF_app, He, (no_LF_digit_string _ Hmore). unfold no_LF, str1. cbn [all_chars].
    rewrite (digit_not_LF d Hd). reflexivity.
Qed.

Lemma no_LF_number_text (x : Number) : no_LF (number_text x) = true.
Proof.
  destruct x as [ | neg | neg | neg p n]; try reflexivity.
  simpl. destruct neg.
  - change (no_LF (str1 "-" +:+ decimal_text (digits (N.pos p)) n) = true).
    rewrite no_LF_app, no_LF_decimal_text; [reflexivity | apply digits_are_digits].
  - apply no_LF_decimal_text, digits_are_digits.
Qed.

(** *** Objects *)

Lemma props_ordered_app_inv (pre : list (string * Json)) (x : string * Json)
    (l : list (string * Json)) :
  props_ordered (pre ++ x :: l) = true ->
  has_key (fst x) pre = false
  /\ forallb (fun kv' => key_before (fst kv') (fst x)) pre = true.
Proof.
  induction pre as [|p pre IH]; simpl; [auto|].
  intros [[Hnew Hbefore]%andb_true_iff Hrest]%andb_true_iff.
  destruct (IH Hrest) as [Hk Hb]. rewrite Hk, Hb.
  apply negb_true_iff in Hnew. unfold has_key in Hnew.
  rewrite existsb_app in Hnew. apply orb_false_iff in Hnew as [_ Hnew].
  simpl in Hnew. apply orb_false_iff in Hnew as [Hnew _].
  rewrite forallb_app in Hbefore. apply andb_true_iff in Hbefore as [_ Hbefore].
  simpl in Hbefore. apply andb_true_iff in Hbefore as [Hbefore _].
  rewrite String.eqb_sym, Hnew, Hbefore. auto.
Qed.

Lemma insert_index_last (i : N) (k : string) (v : Json) (o : list (string * Json)) :
  array_index k = Some i ->
  forallb (fun kv' => key_before (fst kv') k) o = true ->
  insert_index i k v o = o ++ [(k, v)].
Proof.
  intros Hk. induction o as [|p o IH]; simpl; [reflexivity|].
  intros [Hp Ho]%andb_true_iff. unfold key_before in Hp. rewrite Hk in Hp.
  destruct (array_index (fst p)) as [j|]; [|discriminate Hp].
  rewrite Hp, (IH Ho). reflexivity.
Qed.

Lemma obj_set_last (k : string) (v : Json) (o : list (string * Json)) :
  has_key k o = false ->
  forallb (fun kv' => key_before (fst kv') k) o = true ->
  obj_set k v o = o ++ [(k, v)].
Proof.
  intros Hnew Hbefore. unfold obj_set. rewrite Hnew.
  destruct (array_index k) as [i|] eqn:Hk; [|reflexivity].
  apply insert_index_last; assumption.
Qed.

Lemma fold_obj_set (l pre : list (string * Json)) :
  props_ordered (pre ++ l) = true ->
  fold_left (fun o kv => obj_set (fst kv) (snd kv) o) l pre = pre ++ l.
Proof.
  revert pre. induction l as [|[k v] l IH]; intros pre H; simpl.
  - symmetry. apply app_nil_r.
  - destruct (props_ordered_app_inv pre (k, v) l H) as [Hnew Hbefore].
    rewrite (obj_set_last k v pre Hnew Hbefore).
    rewrite IH; rewrite <- app_assoc; [reflexivity | exact H].
Qed.

(** An object whose properties stand in enumeration order is rebuilt as it
    was from its members. *)
Lemma object_of_members_ordered (props : list (string * Json)) :
  props_ordered props = true -> object_of_members props = props.
Proof. intros H. apply (fold_obj_set props []). exact H. Qed.

(** *** Values *)

Lemma Json_induction (P : Json -> Prop) :
  P JNull ->
  (forall b, P (JBool b)) ->
  (forall n, P (JNumber n)) ->
  (forall s, P (JString s)) ->
  (forall items, Forall P items -> P (JArray items)) ->
  (forall props, Forall (fun kv => P (snd kv)) props -> P (JObject props)) ->
  forall v, P v.
Proof.
  intros Hnull Hbool Hnum Hstr Harr Hobj.
  fix IH 1. intros [ | b | n | s | items | props].
  - exact Hnull.
  - apply Hbool.
  - apply Hnum.
  - apply Hstr.
  - apply Harr. induction items as [|x items IHitems]; constructor.
    + apply IH.
    + exact IHitems.
  - apply Hobj. induction props as [|kv props IHprops]; constructor.
    + apply IH.
    + exact IHprops.
Qed.

Lemma weight_pos (v : Json) : (1 <= weight v)%nat.
Proof. destruct v; simpl; lia. Qed.

Lemma value_start_facts (c : ascii) :
  value_start c = true ->
  is_ws c = false /\ Ascii.eqb c "]" = false /\ Ascii.eqb c "}" = false.
Proof.
  destruct c as [[|] [|] [|] [|] [|] [|] [|] [|]]; intros H;
    try discriminate H; repeat split.
Qed.

Lemma number_start_facts (c : ascii) :
  is_Some (digit_of c) \/ c = "-"%char ->
  value_start c = true
  /\ Ascii.eqb c "n" = false /\ Ascii.eqb c "t" = false /\ Ascii.eqb c "f" = false
  /\ Ascii.eqb c DQUOTE = false /\ Ascii.eqb c "[" = false /\ Ascii.eqb c "{" = false.
Proof.
  destruct c as [[|] [|] [|] [|] [|] [|] [|] [|]]; intros [[d H]|H];
    try discriminate H; repeat split.
Qed.

Lemma Number_toString_head (x : Number) :
  js_number x = true ->
  exists c s, Number_toString x = String c s
              /\ (is_Some (digit_of c) \/ c = "-"%char).
Proof.
  destruct x as [ | neg | neg | neg p n]; try discriminate; intros _; simpl.
  - eexists _, _. split; [reflexivity|]. left. simpl. eauto.
  - destruct neg.
    + eexists _, _. split; [reflexivity|]. right. reflexivity.
    + destruct (decimal_text_head p n) as (c & s & E & Hc).
      exists c, s. split; [exact E|]. apply digit_facts, Hc.
Qed.

Lemma js_number_text (x : Number) :
  js_number x = true -> number_text x = Number_toString x.
Proof. destruct x; try discriminate; reflexivity. Qed.

Lemma stringify_head (v : Json) :
  exists c s, JSON_stringify v = String c s /\ value_start c = true.
Proof.
  destruct v as [ | [|] | n | s | items | props]; simpl;
    try (eexists _, _; split; reflexivity).
  destruct (number_text_head n) as (c & s & E & [Hc|[Hc|Hc]]);
    exists c, s; (split; [exact E|]).
  - apply number_start_facts. left. exact Hc.
  - apply number_start_facts. right. exact Hc.
  - subst c. reflexivity.
Qed.

Lemma parse_value_unfold (fuel : nat) (c : ascii) (s' : string) :
  is_ws c = false ->
  parse_value (S fuel) (String c s')
  = if Ascii.eqb c "n" then expect "ull" s' JNull
    else if Ascii.eqb c "t" then expect "rue" s' (JBool true)
    else if Ascii.eqb c "f" then expect "alse" s' (JBool false)
    else if Ascii.eqb c DQUOTE then
      match parse_chars s' with
      | Some (str, rest) => Some (JString str, rest)
      | None => None
      end
    else if Ascii.eqb c "[" then
      match skip_ws s' with
      | String c' rest =>
          if Ascii.eqb c' "]" then Some (JArray [], rest)
          else
            match parse_elements fuel s' with
            | Some (items, rest) => Some (JArray items, rest)
            | None => None
            end
      | EmptyString => None
      end
    else if Ascii.eqb c "{" then
      match skip_ws s' with
      | String c' rest =>
          if Ascii.eqb c' "}" then Some (JObject [], rest)
          else
            match parse_members fuel s' with
            | Some (ms, rest) => Some (JObject (object_of_members ms), rest)
            | None => None
            end
      | EmptyString => None
      end
    else
      match parse_number (String c s') with
      | Some (n, rest) => Some (JNumber n, rest)
      | None => None
      end.
Proof. intros H. simpl. rewrite H. reflexivity. Qed.

Lemma expect_app (word rest : string) (v : Json) :
  expect word (word +:+ rest) v = Some (v, rest).
Proof. unfold expect. rewrite strip_prefix_app. reflexivity. Qed.

Lemma parse_elements_items (items : list Json) :
  Forall reads_back items ->
  forallb js_value items = true ->
  items <> [] ->
  forall fuel rest,
    (list_sum (map (fun x => S (weight x)) items) <= fuel)%nat ->
    parse_elements fuel
      (join_comma (map JSON_stringify items) +:+ String "]" rest)
    = Some (items, rest).
Proof.
  induction 1 as [|x items Hx _ IH]; [congruence|].
  intros [Hjx Hjs]%andb_true_iff _ fuel rest Hfuel.
  simpl in Hfuel. destruct fuel as [|fuel]; [lia|].
  destruct items as [|y items].
  - simpl join_comma. simpl parse_elements.
    rewrite (Hx Hjx fuel (String "]" rest)) by (simpl in *; try lia; reflexivity).
    reflexivity.
  - change (join_comma (map JSON_stringify (x :: y :: items)))
      with (JSON_stringify x +:+ String "," (join_comma (map JSON_stringify (y :: items)))).
    rewrite append_assoc, append_cons. simpl parse_elements.
    rewrite (Hx Hjx fuel) by (simpl in *; try lia; reflexivity).
    simpl skip_ws. cbn [Ascii.eqb Bool.eqb].
    rewrite (IH Hjs) by (simpl in *; try lia; congruence).
    reflexivity.
Qed.

Lemma member_text_app (kv : string * Json) (tail : string) :
  member_text kv +:+ tail
  = String DQUOTE (quote_body (fst kv)
      +:+ String DQUOTE (String ":" (JSON_stringify (snd kv) +:+ tail))).
Proof.
  unfold member_text, QuoteJSONString, str1.
  repeat (progress rewrite ?append_cons, ?append_assoc, ?append_empty_l).
  reflexivity.
Qed.

Lemma parse_members_props (props : list (string * Json)) :
  Forall (fun kv => reads_back (snd kv)) props ->
  forallb (fun kv => js_value (snd kv)) props = true ->
  props <> [] ->
  forall fuel rest,
    (list_sum (map (fun kv => S (weight (snd kv))) props) <= fuel)%nat ->
    parse_members fuel
      (join_comma (map member_text props) +:+ String "}" rest)
    = Some (props, rest).
Proof.
  induction 1 as [|[k v] props Hx _ IH]; [congruence|].
  intros [Hjx Hjs]%andb_true_iff _ fuel rest Hfuel.
  simpl in Hfuel, Hx, Hjx. destruct fuel as [|fuel]; [lia|].
  destruct props as [|y props].
  - simpl join_comma. rewrite member_text_app. simpl parse_members.
    rewrite parse_chars_quote_body. simpl skip_ws. cbn [Ascii.eqb Bool.eqb].
    cbn [fst snd].
    rewrite (Hx Hjx fuel (String "}" rest)) by (simpl in *; try lia; reflexivity).
    reflexivity.
  - change (join_comma (map member_text ((k, v) :: y :: props)))
      with (member_text (k, v) +:+ String "," (join_comma (map member_text (y :: props)))).
    rewrite append_assoc, member_text_app, append_cons. simpl parse_members.
    rewrite parse_chars_quote_body. simpl skip_ws. cbn [Ascii.eqb Bool.eqb].
    cbn [fst snd].
    rewrite (Hx Hjx fuel) by (simpl in *; try lia; reflexivity).
    simpl skip_ws. cbn [Ascii.eqb Bool.eqb].
    rewrite (IH Hjs) by (simpl in *; try lia; congruence).
    reflexivity.
Qed.

Lemma join_comma_head (items : list Json) :
  items <> [] ->
  exists c s, join_comma (map JSON_stringify items) = String c s
              /\ value_start c = true.
Proof.
  destruct items as [|x items]; [congruence|]. intros _.
  destruct (stringify_head x) as (c & s & E & Hc).
  destruct items as [|y items]; simpl join_comma; rewrite E.
  - eauto.
  - rewrite append_cons. eauto.
Qed.

Lemma stringify_object (props : list (string * Json)) :
  JSON_stringify (JObject props)
  = String "{" (join_comma (map member_text props) +:+ "}").
Proof. reflexivity. Qed.

(** Every value that is a JavaScript value is read back, given fuel for its
    weight, before a text that does not continue a number. *)
Lemma parse_value_stringify (v : Json) : reads_back v.
Proof.
  induction v as [ | b | n | s | items IH | props IH ] using Json_induction;
    intros Hjs fuel rest Hfuel Hrest;
    (destruct fuel as [|fuel]; [simpl in Hfuel; lia|]).
  - reflexivity.
  - destruct b; reflexivity.
  - simpl in Hjs. destruct (Number_toString_head n Hjs) as (c & s & E & Hc).
    destruct (number_start_facts c Hc) as (Hv & Hn & Ht & Hf & Hq & Ha & Ho).
    destruct (value_start_facts c Hv) as (Hws & _).
    simpl JSON_stringify. rewrite (js_number_text n Hjs), E, append_cons.
    rewrite (parse_value_unfold fuel c _ Hws), Hn, Ht, Hf, Hq, Ha, Ho.
    rewrite <- append_cons, <- E.
    rewrite (parse_number_toString n rest Hjs Hrest). reflexivity.
  - simpl JSON_stringify. unfold QuoteJSONString, str1.
    rewrite append_cons, append_assoc, append_cons, append_empty_l.
    rewrite parse_value_unfold by reflexivity. cbn [Ascii.eqb Bool.eqb DQUOTE].
    change (Ascii false true false false false true false false) with DQUOTE.
    rewrite parse_chars_quote_body. reflexivity.
  - simpl JSON_stringify. rewrite append_cons, append_assoc, append_cons, append_empty_l.
    rewrite parse_value_unfold by reflexivity. cbn [Ascii.eqb Bool.eqb DQUOTE].
    destruct items as [|x items].
    + reflexivity.
    + destruct (join_comma_head (x :: items)) as (c & s & E & Hc); [congruence|].
      destruct (value_start_facts c Hc) as (Hws & Hclose & _).
      rewrite E at 1. rewrite append_cons. simpl skip_ws. rewrite Hws, Hclose.
      rewrite (parse_elements_items (x :: items) IH Hjs) by (simpl in *; try lia; congruence).
      reflexivity.
  - rewrite stringify_object. rewrite append_cons, append_assoc, append_cons, append_empty_l.
    rewrite parse_value_unfold by reflexivity. cbn [Ascii.eqb Bool.eqb DQUOTE].
    simpl in Hjs. apply andb_true_iff in Hjs as [Hord Hjs].
    destruct props as [|kv props].
    + reflexivity.
    + assert (E : exists s, join_comma (map member_text (kv :: props))
                            +:+ String "}" rest = String DQUOTE s).
      { destruct props; simpl join_comma; [|rewrite append_assoc];
          rewrite member_text_app; eauto. }
      destruct E as [s E]. rewrite E at 1. simpl skip_ws. cbn [Ascii.eqb Bool.eqb DQUOTE].
      rewrite (parse_members_props (kv :: props) IH Hjs) by (simpl in *; try lia; congruence).
      rewrite (object_of_members_ordered _ Hord). reflexivity.
Qed.

Lemma weight_items_le (items : list Json) :
  Forall (fun v => (weight v <= String.length (JSON_stringify v))%nat) items ->
  (list_sum (map (fun x => S (weight x)) items)
   <= S (String.length (join_comma (map JSON_stringify items))))%nat.
Proof.
  induction 1 as [|x items Hx _ IH]; [simpl; lia|].
  destruct items as [|y items].
  - simpl. lia.
  - change (join_comma (map JSON_stringify (x :: y :: items)))
      with (JSON_stringify x +:+ String "," (join_comma (map JSON_stringify (y :: items)))).
    remember (join_comma (map JSON_stringify (y :: items))) as rest eqn:Er.
    rewrite length_append. simpl String.length.
    simpl list_sum in *. lia.
Qed.

Lemma weight_props_le (props : list (string * Json)) :
  Forall (fun kv => (weight (snd kv) <= String.length (JSON_stringify (snd kv)))%nat) props ->
  (list_sum (map (fun kv => S (weight (snd kv))) props)
   <= S (String.length (join_comma (map member_text props))))%nat.
Proof.
  assert (Hm : forall kv : string * Json,
             (String.length (JSON_stringify (snd kv)) <= String.length (member_text kv))%nat).
  { intros kv. unfold member_text. rewrite length_append. simpl. lia. }
  induction 1 as [|x props Hx _ IH]; [simpl; lia|].
  pose proof (Hm x).
  destruct props as [|y props].
  - cbn [list_sum fold_right map join_comma]. lia.
  - change (join_comma (map member_text (x :: y :: props)))
      with (member_text x +:+ String "," (join_comma (map member_text (y :: props)))).
    remember (join_comma (map member_text (y :: props))) as rest eqn:Er.
    remember (member_text x) as mx eqn:Em.
    rewrite length_append. cbn [String.length].
    cbn [list_sum fold_right map] in *. lia.
Qed.

(** The text of a value is at least as long as the fuel the value needs. *)
Lemma weight_le_length (v : Json) :
  (weight v <= String.length (JSON_stringify v))%nat.
Proof.
  induction v as [ | b | n | s | items IH | props IH ] using Json_induction.
  - simpl. lia.
  - destruct b; simpl; lia.
  - destruct (number_text_head n) as (c & s & E & _).
    simpl JSON_stringify. rewrite E. simpl. lia.
  - simpl. lia.
  - pose proof (weight_items_le items IH).
    simpl JSON_stringify. simpl String.length. rewrite length_append.
    simpl. lia.
  - pose proof (weight_props_le props IH).
    rewrite stringify_object. simpl String.length. rewrite length_append.
    simpl. lia.
Qed.

(** [JSON.parse(JSON.stringify(v))] is [v]. *)
Lemma JSON_parse_stringify (v : Json) :
  js_value v = true -> JSON_parse (JSON_stringify v) = Some v.
Proof.
  intros Hjs. unfold JSON_parse.
  rewrite <- (append_empty_r (JSON_stringify v)) at 2.
  rewrite (parse_value_stringify v Hjs) by (pose proof (weight_le_length v); simpl; lia || reflexivity).
  reflexivity.
Qed.

(** *** The text of a value fits on one line *)

Lemma no_LF_join_comma (parts : list string) :
  Forall (fun p => no_LF p = true) parts -> no_LF (join_comma parts) = true.
Proof.
  induction 1 as [|p parts Hp _ IH]; [reflexivity|].
  destruct parts as [|q parts]; [exact Hp|].
  change (join_comma (p :: q :: parts)) with (p +:+ String "," (join_comma (q :: parts))).
  rewrite no_LF_app, Hp. simpl. exact IH.
Qed.

Lemma no_LF_stringify (v : Json) : no_LF (JSON_stringify v) = true.
Proof.
  induction v as [ | b | n | s | items IH | props IH ] using Json_induction.
  - reflexivity.
  - destruct b; reflexivity.
  - apply no_LF_number_text.
  - apply no_LF_QuoteJSONString.
  - simpl JSON_stringify.
    change (no_LF (str1 "[" +:+ (join_comma (map JSON_stringify items) +:+ "]")) = true).
    rewrite !no_LF_app, no_LF_join_comma; [reflexivity|].
    apply Forall_map. exact IH.
  - rewrite stringify_object.
    change (no_LF (str1 "{" +:+ (join_comma (map member_text props) +:+ "}")) = true).
    rewrite !no_LF_app, no_LF_join_comma; [reflexivity|].
    apply Forall_map. eapply Forall_impl; [exact IH|].
    intros kv Hkv. unfold member_text.
    change (no_LF (QuoteJSONString (fst kv)
                   +:+ (str1 ":" +:+ JSON_stringify (snd kv))) = true).
    rewrite !no_LF_app, no_LF_QuoteJSONString, Hkv. reflexivity.
Qed.

(* ================================================================= *)
(** ** Messages on the stream *)

Lemma read_message_chunk (m : Json) :
  js_value m = true ->
  read_event (message_chunk m) = Some ("message", JSON_stringify m)
  /\ read_message (message_chunk m) = Some m.
Proof.
  intros Hjs.
  assert (E : read_event (message_chunk m) = Some ("message", JSON_stringify m)).
  { apply read_event_eventData; [reflexivity | apply no_LF_stringify]. }
  split; [exact E|]. unfold read_message. rewrite E. simpl.
  apply JSON_parse_stringify, Hjs.
Qed.

(** Number::toString on an integer, a fraction, a small and a large number,
    and what [JSON.stringify] and [JSON.parse] make of the numbers that JSON
    does not hold: a number that is not finite is written as [null], and
    negative zero as [0]. *)
Example numbers_as_text :
  map Number_toString
      [integer 42; integer (-1200); Finite false 5 0; Finite false 12345 3;
       Finite true 1 (-5); Finite false 15 (-6); Finite false 1 21;
       Finite false 15 22; Finite false 5 (-323)]
  = ["42"; "-1200"; "0.5"; "123.45"; "-0.000001"; "1.5e-7";
     "100000000000000000000"; "1.5e+21"; "5e-324"]
  /\ read_message (message_chunk (JNumber NaN)) = Some JNull
  /\ read_message (message_chunk (JNumber (Infinity false))) = Some JNull
  /\ read_message (message_chunk (JNumber (Zero true))) = Some (JNumber (Zero false)).
Proof. repeat split. Qed.

(** C9: on a connected transport, [send(m1)] then [send(m2)] both return
    normally and append to the stream two chunks, in that order, each one
    [message] event; a client reading the first gets the event [message]
    with the text of [m1] and decodes it back to [m1], and likewise the
    second and [m2].  The messages are JSON values: their numbers are any
    finite numbers, integers or not and of any size, but negative zero, and
    their objects have distinct properties. *)
Theorem two_sends_write_two_messages_in_order
    (parse : unknown -> JsError + Json) (t : Transport) (m1 m2 : Json) :
  reachable parse t ->
  _isConnected t = true ->
  js_value m1 = true ->
  js_value m2 = true ->
  completion (send m1 t) = Normal tt
  /\ completion (send m2 (state_after (send m1 t))) = Normal tt
  /\ chunks (_stream (state_after (send m2 (state_after (send m1 t)))))
     = chunks (_stream t) ++ [message_chunk m1; message_chunk m2]
  /\ read_event (message_chunk m1) = Some ("message", JSON_stringify m1)
  /\ read_event (message_chunk m2) = Some ("message", JSON_stringify m2)
  /\ read_message (message_chunk m1) = Some m1
  /\ read_message (message_chunk m2) = Some m2.
Proof.
  intros Hreach Hc Hj1 Hj2.
  pose proof (sound_readable t (reachable_sound parse t Hreach) Hc) as Hr.
  destruct (send_connected t m1 Hc) as (E1 & S1 & _).
  rewrite (sendEvent_open_run t "message" _ Hc Hr) in E1, S1.
  projections. rewrite E1, S1.
  set (t1 := set_stream _ t).
  assert (Hc1 : _isConnected t1 = true) by exact Hc.
  assert (Hr1 : readable (_stream t1) = true) by reflexivity.
  destruct (send_connected t1 m2 Hc1) as (E2 & S2 & _).
  rewrite (sendEvent_open_run t1 "message" _ Hc1 Hr1) in E2, S2.
  projections. rewrite E2, S2.
  destruct (read_message_chunk m1 Hj1) as [Hev1 Hm1].
  destruct (read_message_chunk m2 Hj2) as [Hev2 Hm2].
  repeat split; try assumption.
  subst t1. simpl. rewrite <- app_assoc. reflexivity.
Qed.

(** A response and a notification sent one after the other. *)
Lemma two_sends_write_two_messages_in_order_witness :
  chunks (_stream (state_after (send progress (state_after (send pong a_transport)))))
  = chunks (_stream a_transport) ++ [message_chunk pong; message_chunk progress]
  /\ read_message (message_chunk pong) = Some pong
  /\ read_message (message_chunk progress) = Some progress.
Proof.
  pose proof (two_sends_write_two_messages_in_order envelope_parse a_transport
                pong progress
                (reachable_step envelope_parse do_start _
                   (reachable_new envelope_parse "/messages" a_context 5))
                eq_refl eq_refl eq_refl)
    as (_ & _ & Hchunks & _ & _ & H1 & H2).
  split; [exact Hchunks|]. split; [exact H1 | exact H2].
Defined.

(* ================================================================= *)
(** * Further properties of the transport *)

(** ** [start] *)

Lemma bound_bound (t : Transport) : bound (bound t) = bound t.
Proof. reflexivity. Qed.

(** Starting twice leaves the transport as starting once does (whatever the
    state of the transport and of its stream), and when the first [start()]
    left it connected the second returns normally, calls nothing and writes
    nothing. *)
Theorem start_twice_is_start_once (t : Transport) :
  state_after (start (state_after (start t))) = state_after (start t)
  /\ (_isConnected (state_after (start t)) = true ->
      completion (start (state_after (start t))) = Normal tt
      /\ calls (trace (start (state_after (start t)))) = []).
Proof.
  assert (Hnoop : forall u, _isConnected u = true ->
            state_after (start u) = u
            /\ completion (start u) = Normal tt
            /\ calls (trace (start u)) = []).
  { intros u Hu. destruct (start_connected_run u Hu) as (tr & -> & Hcalls). auto. }
  destruct (_isConnected t) eqn:Hc.
  - destruct (start_connected_run t Hc) as (tr & E & _). rewrite E. projections.
    destruct (Hnoop t Hc) as (-> & H2 & H3). auto.
  - destruct (locked (_stream t)) eqn:Hl.
    + destruct (start_locked_run t Hc Hl) as (tr & E & _). rewrite E. projections.
      rewrite E. projections. split; [reflexivity | congruence].
    + destruct (readable (_stream t)) eqn:Hr.
      * destruct (start_open_run t Hc Hl Hr) as (tr & E & _). rewrite E. projections.
        destruct (Hnoop (started t) eq_refl) as (-> & H2 & H3). auto.
      * destruct (start_broken_run t Hc Hl Hr) as (tr & E & _). rewrite E. projections.
        destruct (start_broken_run (bound t) Hc Hl Hr) as (tr' & E' & _).
        rewrite E'. projections. split; [reflexivity|]. simpl. congruence.
Qed.

(** When the response cannot be bound to the stream (a reader holds it),
    [start()] on a transport that is not connected throws that error, leaves
    the transport as it was, not connected and with nothing written, and
    reports the error once to [onerror] when the slot is set. *)
Theorem start_throws_when_the_stream_is_locked (t : Transport) :
  _isConnected t = false ->
  locked (_stream t) = true ->
  completion (start t) = Throw (ThrownError body_unusable)
  /\ state_after (start t) = t
  /\ calls (trace (start t))
     = match onerror t with
       | Some h => [call_onerror h body_unusable]
       | None => []
       end.
Proof.
  intros Hc Hl. destruct (start_locked_run t Hc Hl) as (tr & -> & Hcalls). auto.
Qed.

Lemma start_throws_when_the_stream_is_locked_witness :
  completion (start (state_after (ReadableStream_getReader
                                    (constructor "/messages" a_context 5))))
  = Throw (ThrownError body_unusable).
Proof.
  apply (start_throws_when_the_stream_is_locked
           (state_after (ReadableStream_getReader (constructor "/messages" a_context 5)))
           eq_refl eq_refl).
Defined.

(** A cancel disturbs the stream, which can then no longer be the body of
    a response: after the stream of a transport was cancelled, [start()]
    throws the error of the response, as it does on a locked stream; the
    transport stays as the cancel left it, not connected and with nothing
    more written, the error is reported once to [onerror] when the slot is
    set, and a [send] that follows throws. *)
Theorem start_on_a_cancelled_stream_throws (t : Transport) (m : Json) :
  readable (_stream t) = true ->
  let c := state_after (ReadableStream_cancel t) in
  _isConnected c = false
  /\ completion (start c) = Throw (ThrownError body_unusable)
  /\ state_after (start c) = c
  /\ chunks (_stream (state_after (start c))) = chunks (_stream t)
  /\ calls (trace (start c))
     = match onerror t with
       | Some h => [call_onerror h body_unusable]
       | None => []
       end
  /\ completion (send m (state_after (start c)))
     = Throw (ThrownError (new_Error "Not connected")).
Proof.
  intros Hr c. subst c. destruct (cancel_run t) as (tr & -> & _). projections.
  rewrite Hr, andb_false_r.
  set (c := set_isConnected false _).
  destruct (start_locked_run c eq_refl eq_refl) as (tr1 & -> & Hcalls).
  projections.
  destruct (send_closed_run c m eq_refl) as (tr2 & -> & _).
  repeat split. exact Hcalls.
Qed.

(** A transport is created and started, and its client goes away. *)
Lemma start_on_a_cancelled_stream_throws_witness :
  let c := state_after (ReadableStream_cancel a_transport) in
  completion (start c) = Throw (ThrownError body_unusable)
  /\ state_after (start c) = c.
Proof.
  pose proof (start_on_a_cancelled_stream_throws a_transport ping eq_refl)
    as (_ & H1 & H2 & _).
  split; [exact H1 | exact H2].
Defined.

(** [close()] only clears the connected flag: the stream stays as it is, so
    a [start()] after [close()] connects the transport again and appends a
    second [endpoint] event, unless a reader has locked the stream, in which
    case that [start()] throws. *)
Theorem start_after_close_connects_again (t : Transport) :
  readable (_stream t) = true ->
  _stream (state_after (close t)) = _stream t
  /\ (locked (_stream t) = false ->
      completion (start (state_after (close t))) = Normal tt
      /\ _isConnected (state_after (start (state_after (close t)))) = true
      /\ chunks (_stream (state_after (start (state_after (close t)))))
         = chunks (_stream t) ++ [endpoint_chunk t])
  /\ (locked (_stream t) = true ->
      completion (start (state_after (close t))) = Throw (ThrownError body_unusable)
      /\ _isConnected (state_after (start (state_after (close t)))) = false).
Proof.
  intros Hr. destruct (close_run t) as (tr & -> & _). projections.
  split; [reflexivity|]. split; intros Hl.
  - destruct (start_open_run (set_isConnected false t) eq_refl Hl Hr) as (tr' & -> & _).
    projections. repeat split.
  - destruct (start_locked_run (set_isConnected false t) eq_refl Hl) as (tr' & -> & _).
    projections. repeat split.
Qed.

Lemma start_after_close_connects_again_witness :
  chunks (_stream (state_after (start (state_after (close a_transport)))))
  = chunks (_stream a_transport) ++ [endpoint_chunk a_transport].
Proof.
  pose proof (start_after_close_connects_again a_transport eq_refl) as (_ & H & _).
  apply H. reflexivity.
Defined.

(** ** Cancellation *)

(** When the consumer cancels the stream, the stream is left closed and
    disturbed, with its chunks untouched.  If the stream was readable until
    then, the hook of the transport runs: the transport is left not
    connected and [onclose] is called once when the slot is set; after that
    [send] throws and a posted message is answered with 500.  If the stream
    was closed already, the hook does not run: nothing is called and the
    connected flag stays as it was. *)
Theorem cancel_closes_the_transport
    (parse : unknown -> JsError + Json) (t : Transport) (m : Json) (ctx : Context) :
  let c := state_after (ReadableStream_cancel t) in
  completion (ReadableStream_cancel t) = Normal tt
  /\ readable (_stream c) = false
  /\ locked (_stream c) = true
  /\ chunks (_stream c) = chunks (_stream t)
  /\ (readable (_stream t) = true ->
      _isConnected c = false
      /\ calls (trace (ReadableStream_cancel t))
         = match onclose t with
           | Some h => [call_onclose h]
           | None => []
           end
      /\ completion (send m c) = Throw (ThrownError (new_Error "Not connected"))
      /\ completion (handlePostMessage parse ctx c)
         = Normal (_createErrorResponse "SSE connection not established" 500))
  /\ (readable (_stream t) = false ->
      _isConnected c = _isConnected t
      /\ calls (trace (ReadableStream_cancel t)) = []).
Proof.
  intros c. subst c. destruct (cancel_run t) as (tr & -> & Hcalls). projections.
  do 4 (split; [reflexivity|]). split; intros Hr; rewrite Hr in *.
  - rewrite andb_false_r.
    set (c := set_isConnected false _).
    destruct (send_closed_run c m eq_refl) as (tr1 & -> & _).
    destruct (handlePostMessage_closed_run parse c ctx eq_refl) as (tr2 & -> & _).
    repeat split. exact Hcalls.
  - rewrite andb_true_r. split; [reflexivity | exact Hcalls].
Qed.

(** ** The stream *)

Lemma send_chunks (t : Transport) (m : Json) :
  exists extra,
    chunks (_stream (state_after (send m t))) = chunks (_stream t) ++ extra
    /\ (extra = [] \/ (_isConnected t = true /\ extra = [message_chunk m])).
Proof.
  destruct (_isConnected t) eqn:Hc.
  - destruct (send_connected t m Hc) as (_ & -> & _).
    destruct (readable (_stream t)) eqn:Hr.
    + rewrite (sendEvent_open_run t _ _ Hc Hr). eexists. split; [reflexivity|].
      right. split; reflexivity.
    + destruct (sendEvent_broken_run t "message" (JSON_stringify m) Hc Hr)
        as (tr & -> & _).
      exists []. rewrite app_nil_r. split; [reflexivity | left; reflexivity].
  - destruct (send_closed_run t m Hc) as (tr & -> & _).
    exists []. rewrite app_nil_r. split; [reflexivity | left; reflexivity].
Qed.

Lemma start_chunks (t : Transport) :
  exists extra,
    chunks (_stream (state_after (start t))) = chunks (_stream t) ++ extra
    /\ (extra = [] \/ (_isConnected t = false /\ extra = [endpoint_chunk t])).
Proof.
  destruct (_isConnected t) eqn:Hc.
  - destruct (start_connected_run t Hc) as (tr & -> & _).
    exists []. rewrite app_nil_r. split; [reflexivity | left; reflexivity].
  - destruct (locked (_stream t)) eqn:Hl.
    + destruct (start_locked_run t Hc Hl) as (tr & -> & _).
      exists []. rewrite app_nil_r. split; [reflexivity | left; reflexivity].
    + destruct (readable (_stream t)) eqn:Hr.
      * destruct (start_open_run t Hc Hl Hr) as (tr & -> & _).
        eexists. split; [reflexivity|]. right. split; reflexivity.
      * destruct (start_broken_run t Hc Hl Hr) as (tr & -> & _).
        exists []. rewrite app_nil_r. split; [reflexivity | left; reflexivity].
Qed.

Section Stream.

Variable parse : unknown -> JsError + Json.

(** What an action adds to the stream. *)
Lemma perform_chunks (a : Action) (t : Transport) :
  exists extra,
    chunks (_stream (state_after (perform parse a t))) = chunks (_stream t) ++ extra
    /\ (extra = []
        \/ (a = do_start /\ _isConnected t = false /\ extra = [endpoint_chunk t])
        \/ (exists m, a = do_send m /\ _isConnected t = true
                      /\ extra = [message_chunk m])).
Proof.
  assert (Hsame : forall u : Transport,
            chunks (_stream u) = chunks (_stream t) ->
            exists extra,
              chunks (_stream u) = chunks (_stream t) ++ extra
              /\ (extra = []
                  \/ (a = do_start /\ _isConnected t = false
                      /\ extra = [endpoint_chunk t])
                  \/ (exists m, a = do_send m /\ _isConnected t = true
                                /\ extra = [message_chunk m]))).
  { intros u Hu. exists []. rewrite app_nil_r. auto. }
  destruct a; cbn [perform].
  - destruct (start_chunks t) as (extra & E & [->|[Hc ->]]).
    + exists []. auto.
    + eexists. split; [exact E|]. right. left. auto.
  - destruct (send_chunks t message) as (extra & E & [->|[Hc ->]]).
    + exists []. auto.
    + eexists. split; [exact E|]. right. right. exists message. auto.
  - apply Hsame. pose proof (handlePostMessage_state parse t ctx) as E.
    unfold state_after, bind in *.
    destruct (handlePostMessage parse ctx t) as [[[r|x] t'] tr]; simpl in *;
      subst; reflexivity.
  - apply Hsame. rewrite handleMessage_state. reflexivity.
  - apply Hsame. destruct (close_run t) as (tr & -> & _). reflexivity.
  - apply Hsame. destruct (cancel_run t) as (tr & -> & _). reflexivity.
  - apply Hsame. reflexivity.
  - apply Hsame. reflexivity.
  - apply Hsame. reflexivity.
  - apply Hsame. reflexivity.
Qed.

(** The stream is append-only.  Whatever is done to a transport, be it a
    call of [start], [send] or [close], a cancel or a lock of its stream, or
    an assignment to a callback slot, the chunks it had written stay, in
    order, at the front of the stream; at most one chunk is added, and only
    by a [start()] of a transport that was not connected (its [endpoint]
    event) or by a [send] on a connected transport (the [message] event of
    that message).  The intake of a posted message is left out: what the
    protocol layer sends in answer while it is handed the message is a
    [send] of its own. *)
Theorem stream_is_append_only (a : Action) (t : Transport) :
  is_intake a = false ->
  exists extra,
    chunks (_stream (state_after (perform parse a t))) = chunks (_stream t) ++ extra
    /\ (extra = []
        \/ (a = do_start /\ _isConnected t = false /\ extra = [endpoint_chunk t])
        \/ (exists m, a = do_send m /\ _isConnected t = true
                      /\ extra = [message_chunk m])).
Proof. intros _. apply perform_chunks. Qed.

Lemma endpoint_perform (a : Action) (t : Transport) :
  _endpoint (state_after (perform parse a t)) = _endpoint t.
Proof.
  destruct a; cbn [perform].
  - destruct (_isConnected t) eqn:Hc.
    + destruct (start_connected_run t Hc) as (tr & -> & _). reflexivity.
    + destruct (locked (_stream t)) eqn:Hl.
      * destruct (start_locked_run t Hc Hl) as (tr & -> & _). reflexivity.
      * destruct (readable (_stream t)) eqn:Hr.
        -- destruct (start_open_run t Hc Hl Hr) as (tr & -> & _). reflexivity.
        -- destruct (start_broken_run t Hc Hl Hr) as (tr & -> & _). reflexivity.
  - destruct (_isConnected t) eqn:Hc.
    + destruct (send_connected t message Hc) as (_ & -> & _).
      destruct (readable (_stream t)) eqn:Hr.
      * rewrite (sendEvent_open_run t _ _ Hc Hr). reflexivity.
      * destruct (sendEvent_broken_run t "message" (JSON_stringify message) Hc Hr)
          as (tr & -> & _). reflexivity.
    + destruct (send_closed_run t message Hc) as (tr & -> & _). reflexivity.
  - pose proof (handlePostMessage_state parse t ctx) as E.
    unfold state_after, bind in *.
    destruct (handlePostMessage parse ctx t) as [[[r|x] t'] tr]; simpl in *;
      subst; reflexivity.
  - rewrite handleMessage_state. reflexivity.
  - destruct (close_run t) as (tr & -> & _). reflexivity.
  - destruct (cancel_run t) as (tr & -> & _). reflexivity.
  - reflexivity.
  - reflexivity.
  - reflexivity.
  - reflexivity.
Qed.

Lemma endpointUrl_perform (a : Action) (t : Transport) :
  endpointUrl (state_after (perform parse a t)) = endpointUrl t.
Proof.
  unfold endpointUrl. rewrite endpoint_perform, sessionId_perform. reflexivity.
Qed.

Lemma reachable_chunks_are_events (t : Transport) :
  reachable parse t ->
  Forall (endpoint_or_message t) (chunks (_stream t)).
Proof.
  induction 1 as [endpoint ctx r | a t Hreach IH].
  - constructor.
  - pose proof (reachable_sound parse t Hreach) as Hs.
    destruct (perform_chunks a t) as (extra & -> & Hextra).
    assert (Hold : Forall (endpoint_or_message (state_after (perform parse a t)))
                          (chunks (_stream t))).
    { eapply Forall_impl; [exact IH|]. intros c Hc. unfold endpoint_or_message.
      rewrite endpointUrl_perform. exact Hc. }
    apply Forall_app. split; [exact Hold|].
    destruct Hextra as [->|[(_ & _ & ->)|(m & _ & _ & ->)]].
    + constructor.
    + constructor; [|constructor]. left. rewrite endpointUrl_perform.
      unfold endpoint_chunk. apply read_event_eventData; [reflexivity|].
      apply endpointUrl_no_LF, (sound_uuid t Hs).
    + constructor; [|constructor]. right. exists m.
      apply read_event_eventData; [reflexivity | apply no_LF_stringify].
Qed.

(** Every chunk on the stream of a transport that exists is one complete
    event that a client can read back: the transport's own [endpoint] event,
    or a [message] event whose payload is the JSON text of a message. *)
Theorem every_chunk_is_an_event (t : Transport) :
  reachable parse t ->
  Forall (endpoint_or_message t) (chunks (_stream t)).
Proof. apply reachable_chunks_are_events. Qed.

(** On a transport that exists, [send] has two outcomes only: not connected,
    it throws and writes nothing; connected, it returns normally, stays
    connected and appends the one [message] chunk.  It never calls a
    callback: the write cannot fail while the transport is connected. *)
Theorem send_writes_or_throws (t : Transport) (m : Json) :
  reachable parse t ->
  calls (trace (send m t)) = []
  /\ (_isConnected t = true ->
      completion (send m t) = Normal tt
      /\ _isConnected (state_after (send m t)) = true
      /\ chunks (_stream (state_after (send m t)))
         = chunks (_stream t) ++ [message_chunk m])
  /\ (_isConnected t = false ->
      completion (send m t) = Throw (ThrownError (new_Error "Not connected"))
      /\ state_after (send m t) = t).
Proof.
  intros Hreach. pose proof (reachable_sound parse t Hreach) as Hs.
  destruct (_isConnected t) eqn:Hc.
  - destruct (send_connected t m Hc) as (E1 & E2 & E3).
    rewrite (sendEvent_open_run t _ _ Hc (sound_readable t Hs Hc)) in E1, E2, E3.
    projections. rewrite E1, E2, E3.
    split; [reflexivity|]. split; [|discriminate]. intros _. repeat split. exact Hc.
  - destruct (send_closed_run t m Hc) as (tr & -> & Hcalls). projections.
    split; [exact Hcalls|]. split; [discriminate|]. auto.
Qed.

(** ** Posted messages *)

(** [handlePostMessage] never throws; its reply is a JSON response with
    status 202, 400 or 500: 500 exactly when the transport is not connected
    (then the body is not even validated and nothing is called), 202 exactly
    when it is connected and the schema accepts the body, and 400 exactly
    when it is connected and the schema rejects the body. *)
Theorem handlePostMessage_outcomes (ctx : Context) (t : Transport) :
  exists resp,
       completion (handlePostMessage parse ctx t) = Normal resp
       /\ headers resp = [("content-type", "application/json")]
       /\ (status resp = 500 <-> _isConnected t = false)
       /\ (status resp = 202
           <-> _isConnected t = true /\ exists m, parse (ctx_body ctx) = inr m)
       /\ (status resp = 400
           <-> _isConnected t = true /\ exists e, parse (ctx_body ctx) = inl e)
       /\ (_isConnected t = false ->
           resp = _createErrorResponse "SSE connection not established" 500
           /\ calls (trace (handlePostMessage parse ctx t)) = []).
Proof.
  destruct (_isConnected t) eqn:Hc.
  - destruct (parse (ctx_body ctx)) as [e|m] eqn:Hp.
    + destruct (handlePostMessage_invalid_run parse t ctx e Hc Hp) as (tr & -> & _).
      eexists. split; [reflexivity|]. projections. simpl.
      repeat split; try discriminate; try (intros [_ [? ?]]; discriminate); eauto.
    + destruct (handlePostMessage_valid_run parse t ctx m Hc Hp) as (tr & -> & _).
      eexists. split; [reflexivity|]. projections. simpl.
      repeat split; try discriminate; try (intros [_ [? ?]]; discriminate); eauto.
  - destruct (handlePostMessage_closed_run parse t ctx Hc) as (tr & -> & Hcalls).
    eexists. split; [reflexivity|]. projections. simpl.
    repeat split; try discriminate; try (intros [? _]; discriminate); eauto.
Qed.

End Stream.

(** A [send] on a started transport. *)
Lemma stream_is_append_only_witness :
  exists extra,
    chunks (_stream (state_after (perform envelope_parse (do_send ping) a_transport)))
    = chunks (_stream a_transport) ++ extra
    /\ (extra = []
        \/ (do_send ping = do_start /\ _isConnected a_transport = false
            /\ extra = [endpoint_chunk a_transport])
        \/ (exists m, do_send ping = do_send m /\ _isConnected a_transport = true
                      /\ extra = [message_chunk m])).
Proof.
  apply (stream_is_append_only envelope_parse (do_send ping) a_transport).
  reflexivity.
Defined.

Lemma every_chunk_is_an_event_witness :
  Forall (endpoint_or_message (state_after (send ping a_transport)))
         (chunks (_stream (state_after (send ping a_transport)))).
Proof.
  apply (every_chunk_is_an_event envelope_parse).
  apply (reachable_step envelope_parse (do_send ping)).
  apply (reachable_step envelope_parse do_start). apply reachable_new.
Defined.

Lemma send_writes_or_throws_witness :
  chunks (_stream (state_after (send ping a_transport)))
  = chunks (_stream a_transport) ++ [message_chunk ping].
Proof.
  pose proof (send_writes_or_throws envelope_parse a_transport ping
                (reachable_step envelope_parse do_start _
                   (reachable_new envelope_parse "/messages" a_context 5)))
    as (_ & H & _).
  apply H. reflexivity.
Defined.

(** ** The two variants of the transport *)

Ltac unfold_keepalive :=
  unfold Keepalive.perform, Keepalive.start, Keepalive.send, Keepalive.close,
         Keepalive.handlePostMessage, Keepalive.handleMessage,
         Keepalive._sendEvent, Keepalive.ReadableStream_cancel,
         Keepalive.stream_cancel_hook, Keepalive._stopKeepalive,
         Keepalive.console_error_with, Keepalive.lift, perform in *.

Lemma keepalive_perform_alike
    (parse : unknown -> JsError + Json) (a : Action) (kt : Keepalive.Transport) :
  completion (Keepalive.perform parse a kt) = completion (perform parse a (Keepalive.base kt))
  /\ Keepalive.base (state_after (Keepalive.perform parse a kt))
     = state_after (perform parse a (Keepalive.base kt))
  /\ calls (trace (Keepalive.perform parse a kt))
     = calls (trace (perform parse a (Keepalive.base kt)))
  /\ (Keepalive._keepaliveInterval kt = None ->
      Keepalive._keepaliveInterval (state_after (Keepalive.perform parse a kt)) = None).
Proof.
  destruct kt as [[sid c [cs rd lk] ep cx oc oe om] k].
  destruct a as [ | m | ctx | b | | | | h | h | h ];
    unfold_keepalive; unfold_transport; unfold_monad; cbn [Keepalive.base Keepalive._keepaliveInterval];
    simpl.
  all: try solve [repeat split; congruence].
  all: try destruct (parse (ctx_body ctx)) as [e|v] eqn:Hp.
  all: try destruct (parse b) as [e|v] eqn:Hp.
  all: destruct c; simpl; try solve [destruct k, oc, oe, om; repeat split; congruence].
  all: try solve [destruct rd; simpl; destruct k, oc; repeat split; congruence].
  all: destruct lk, rd; simpl; destruct k, oe; repeat split; congruence.
Qed.

Lemma keepalive_reply_alike
    (parse : unknown -> JsError + Json) (ctx : Context) (kt : Keepalive.Transport) :
  completion (Keepalive.handlePostMessage parse ctx kt)
  = completion (handlePostMessage parse ctx (Keepalive.base kt)).
Proof.
  destruct kt as [[sid c [cs rd lk] ep cx oc oe om] k].
  unfold_keepalive; unfold_transport; unfold_monad;
    cbn [Keepalive.base Keepalive._keepaliveInterval]; simpl.
  destruct c; simpl; [|reflexivity].
  destruct (parse (ctx_body ctx)) as [e|v]; simpl; destruct oe, om; reflexivity.
Qed.

(** The variant with the keep-alive timer behaves as the first variant:
    whatever happens to a transport, both end the same way (the same thrown
    error if any), leave the same transport and make the same callback calls
    in the same order; the timer handle, which is never set, stays unset;
    and a posted message gets the same reply from both. *)
Theorem keepalive_variant_behaves_alike
    (parse : unknown -> JsError + Json) (a : Action) (kt : Keepalive.Transport) :
  completion (Keepalive.perform parse a kt) = completion (perform parse a (Keepalive.base kt))
  /\ Keepalive.base (state_after (Keepalive.perform parse a kt))
     = state_after (perform parse a (Keepalive.base kt))
  /\ calls (trace (Keepalive.perform parse a kt))
     = calls (trace (perform parse a (Keepalive.base kt)))
  /\ (Keepalive._keepaliveInterval kt = None ->
      Keepalive._keepaliveInterval (state_after (Keepalive.perform parse a kt)) = None)
  /\ (forall ctx,
        completion (Keepalive.handlePostMessage parse ctx kt)
        = completion (handlePostMessage parse ctx (Keepalive.base kt))).
Proof.
  destruct (keepalive_perform_alike parse a kt) as (H1 & H2 & H3 & H4).
  repeat split; try assumption.
  intros ctx. apply keepalive_reply_alike.
Qed.

(* ================================================================= *)
(** * Further properties of the routes *)

Lemma server_connect_fresh (endpoint : string) (ctx : Context) (r : N) :
  exists tr,
    Index.server_connect None (constructor endpoint ctx r)
    = (Normal tt, served (constructor endpoint ctx r), tr)
    /\ calls tr = [].
Proof.
  set (t := set_onmessage (Some Index.Protocol_onmessage)
              (set_onerror (Some Index.Protocol_onerror)
                 (set_onclose (Some Index.Protocol_onclose)
                    (constructor endpoint ctx r)))).
  destruct (start_open_run t eq_refl eq_refl eq_refl) as (tr & E & Hcalls).
  exists tr. split; [|exact Hcalls].
  unfold Index.server_connect. unfold bind at 1. unfold modify at 1.
  unfold bind at 1. unfold modify at 1. unfold bind at 1. unfold modify at 1.
  fold t. rewrite E. simpl. reflexivity.
Qed.

Lemma snoc_put {A} (l : list A) (x y : A) : <[length l := y]> (l ++ [x]) = l ++ [y].
Proof.
  replace (length l) with (length l + 0)%nat at 1 by lia.
  rewrite insert_app_r. reflexivity.
Qed.

(** The route of [GET /sse] when the protocol layer takes the transport. *)
Lemma handleSSEConnection_run (context : Context) (r : N) (s : Index.Server) :
  exists tr,
    Index.handleSSEConnection context r None s
    = (Normal (Some (mkResponse 200 [] body_stream)),
       Index.mkServer (Index.objects s ++ [served (fresh_transport context r)])
                      (<[randomUUID r := length (Index.objects s)]> (Index.transports s)),
       tr)
    /\ calls tr = [].
Proof.
  destruct (server_connect_fresh "/messages"
              (set_headers (sse_headers_on context) context) r) as (tr & E & Hcalls).
  unfold Index.handleSSEConnection. fold (sse_headers_on context).
  unfold bind at 1. unfold emit at 1. unfold try_catch.
  unfold bind at 1. unfold emit at 1.
  unfold bind at 1. unfold emit at 1.
  unfold bind at 1. unfold get at 1.
  unfold bind at 1. unfold modify at 1.
  unfold bind at 1. unfold get at 1.
  unfold bind at 1. unfold emit at 1.
  unfold bind at 1. unfold Index.at_object.
  cbn [Index.objects Index.transports].
  rewrite list_lookup_middle by reflexivity.
  rewrite E. unfold bind, emit, get, ret.
  cbn [Index.objects Index.transports]. rewrite snoc_put.
  rewrite list_lookup_middle by reflexivity.
  eexists. split; [reflexivity|].
  calls_norm. rewrite Hcalls. reflexivity.
Qed.

(** The route of [GET /sse] when the protocol layer refuses the transport. *)
Lemma handleSSEConnection_refused_run (context : Context) (r : N) (x : Thrown)
    (s : Index.Server) :
  exists tr,
    Index.handleSSEConnection context r (Some x) s
    = (Normal (Some (Index.createErrorResponse "Transport error" 500
                       (Some (Index.error_details x)))),
       Index.mkServer (Index.objects s ++ [fresh_transport context r])
                      (<[randomUUID r := length (Index.objects s)]> (Index.transports s)),
       tr)
    /\ calls tr = [].
Proof.
  unfold Index.handleSSEConnection. fold (sse_headers_on context).
  unfold bind at 1. unfold emit at 1. unfold try_catch.
  unfold bind at 1. unfold emit at 1.
  unfold bind at 1. unfold emit at 1.
  unfold bind at 1. unfold get at 1.
  unfold bind at 1. unfold modify at 1.
  unfold bind at 1. unfold get at 1.
  unfold bind at 1. unfold emit at 1.
  unfold bind at 1. unfold Index.at_object.
  cbn [Index.objects Index.transports].
  rewrite list_lookup_middle by reflexivity.
  unfold Index.server_connect, throw. unfold bind, emit, get, ret.
  cbn [Index.objects Index.transports]. rewrite snoc_put.
  eexists. split; [reflexivity|]. reflexivity.
Qed.

Lemma get_sse_run (context : Context) (r : N) (s : Index.Server) :
  exists tr,
    Inline.get_sse context r None s
    = (Normal (Some (mkResponse 200 [] body_stream)),
       Index.mkServer (Index.objects s ++ [served (fresh_transport context r)])
                      (<[randomUUID r := length (Index.objects s)]> (Index.transports s)),
       tr)
    /\ calls tr = [].
Proof.
  destruct (server_connect_fresh "/messages"
              (set_headers (sse_headers_on context) context) r) as (tr & E & Hcalls).
  unfold Inline.get_sse.
  change (Index.header_set "connection" "keep-alive"
            (Index.header_set "cache-control" "no-cache"
               (Index.header_set "content-type" "text/event-stream"
                  (ctx_set_headers context))))
    with (sse_headers_on context).
  unfold bind at 1. unfold emit at 1. unfold try_catch at 1.
  unfold bind at 1. unfold emit at 1. unfold try_catch at 1.
  unfold bind at 1. unfold emit at 1.
  unfold bind at 1. unfold emit at 1.
  unfold bind at 1. unfold emit at 1.
  unfold bind at 1. unfold get at 1.
  unfold bind at 1. unfold modify at 1.
  unfold bind at 1. unfold get at 1.
  unfold bind at 1. unfold emit at 1.
  unfold bind at 1. unfold emit at 1.
  unfold bind at 1. unfold Index.at_object.
  cbn [Index.objects Index.transports].
  rewrite list_lookup_middle by reflexivity.
  rewrite E. unfold bind, emit, get, ret.
  cbn [Index.objects Index.transports]. rewrite snoc_put.
  rewrite list_lookup_middle by reflexivity.
  eexists. split; [reflexivity|].
  calls_norm. rewrite Hcalls. reflexivity.
Qed.

(** The members of the answer of the inline route beside [error]. *)
Lemma get_sse_refused_run (context : Context) (r : N) (x : Thrown) (s : Index.Server) :
  exists tr,
    Inline.get_sse context r (Some x) s
    = (Normal (Some (mkResponse 500 [("content-type", "application/json")]
                 (body_text (JSON_stringify
                    (JObject (("error", JString "Transport error") ::
                              match Index.error_details x with
                              | JObject props => props
                              | _ => []
                              end)))))),
       Index.mkServer (Index.objects s ++ [fresh_transport context r])
                      (<[randomUUID r := length (Index.objects s)]> (Index.transports s)),
       tr)
    /\ calls tr = [].
Proof.
  unfold Inline.get_sse.
  change (Index.header_set "connection" "keep-alive"
            (Index.header_set "cache-control" "no-cache"
               (Index.header_set "content-type" "text/event-stream"
                  (ctx_set_headers context))))
    with (sse_headers_on context).
  unfold bind at 1. unfold emit at 1. unfold try_catch at 1.
  unfold bind at 1. unfold emit at 1. unfold try_catch at 1.
  unfold bind at 1. unfold emit at 1.
  unfold bind at 1. unfold emit at 1.
  unfold bind at 1. unfold emit at 1.
  unfold bind at 1. unfold get at 1.
  unfold bind at 1. unfold modify at 1.
  unfold bind at 1. unfold get at 1.
  unfold bind at 1. unfold emit at 1.
  unfold bind at 1. unfold emit at 1.
  unfold bind at 1. unfold Index.at_object.
  cbn [Index.objects Index.transports].
  rewrite list_lookup_middle by reflexivity.
  unfold Index.server_connect, throw. unfold bind, emit, get, ret.
  cbn [Index.objects Index.transports]. rewrite snoc_put.
  eexists. split; [reflexivity|]. reflexivity.
Qed.

Lemma randomUUID_nonempty (r : N) : exists c s, randomUUID r = String c s.
Proof. unfold randomUUID, hex_bytes, hex2. eauto. Qed.

Section RouteProperties.

Variable parse : unknown -> JsError + Json.

Lemma handlePostMessage_returns (ctx : Context) (t : Transport) :
  exists resp tr, handlePostMessage parse ctx t = (Normal resp, t, tr).
Proof.
  destruct (_isConnected t) eqn:Hc.
  - destruct (parse (ctx_body ctx)) as [e|m] eqn:Hp.
    + destruct (handlePostMessage_invalid_run parse t ctx e Hc Hp) as (tr & -> & _).
      eauto.
    + destruct (handlePostMessage_valid_run parse t ctx m Hc Hp) as (tr & -> & _).
      eauto.
  - destruct (handlePostMessage_closed_run parse t ctx Hc) as (tr & -> & _). eauto.
Qed.

(** The route of [POST /messages] when the session id names a transport. *)
Lemma handleMessage_route_found (context : Context) (s : Index.Server)
    (sid : string) (a : nat) (t : Transport) :
  ctx_sessionId context = Some sid ->
  sid <> EmptyString ->
  Index.transports s !! sid = Some a ->
  Index.objects s !! a = Some t ->
  completion (Index.handleMessage parse context s)
  = completion (handlePostMessage parse context t)
  /\ calls (trace (Index.handleMessage parse context s))
     = calls (trace (handlePostMessage parse context t)).
Proof.
  intros Hsid Hne Hk Ha.
  destruct (handlePostMessage_returns context t) as (resp & tr & E).
  unfold Index.handleMessage. unfold_monad. rewrite Hsid.
  destruct sid as [|c sid']; [congruence|]. simpl. rewrite Hk.
  unfold Index.at_object. rewrite Ha, E. simpl.
  repeat split.
Qed.

Lemma handleMessage_route_not_found (context : Context) (s : Index.Server) :
  no_such_session context s ->
  exists tr,
    Index.handleMessage parse context s
    = (Normal (Index.createErrorResponse "Invalid or missing session ID" 400 None), s, tr)
    /\ calls tr = [].
Proof.
  unfold no_such_session. intros H.
  unfold Index.handleMessage. unfold_monad.
  destruct (ctx_sessionId context) as [[|c sid]|]; simpl.
  - eexists; split; reflexivity.
  - destruct H as [H|H]; [discriminate H|]. rewrite H. simpl.
    eexists; split; reflexivity.
  - eexists; split; reflexivity.
Qed.

Lemma served_reachable (endpoint : string) (ctx : Context) (r : N) :
  reachable parse (served (constructor endpoint ctx r)).
Proof.
  set (t0 := constructor endpoint ctx r).
  set (t3 := set_onmessage (Some Index.Protocol_onmessage)
               (set_onerror (Some Index.Protocol_onerror)
                  (set_onclose (Some Index.Protocol_onclose) t0))).
  destruct (start_open_run t3 eq_refl eq_refl eq_refl) as (tr & E & _).
  replace (served t0) with (state_after (perform parse do_start t3))
    by (cbn [perform]; rewrite E; reflexivity).
  apply reachable_step.
  apply (reachable_step parse (do_set_onmessage (Some Index.Protocol_onmessage))).
  apply (reachable_step parse (do_set_onerror (Some Index.Protocol_onerror))).
  apply (reachable_step parse (do_set_onclose (Some Index.Protocol_onclose))).
  apply reachable_new.
Qed.

(** Every transport of the process is one that the life of a transport
    allows, and was created on the path [/messages]. *)
Lemma reachable_objects (s : Index.Server) :
  Index.reachable_state parse s ->
  Forall (fun t => reachable parse t /\ _endpoint t = "/messages") (Index.objects s).
Proof.
  induction 1 as [|h s _ IH].
  - constructor.
  - destruct h as [context r [x|] | context | a act].
    + rewrite happen_GET_state.
      destruct (handleSSEConnection_refused_run context r x s) as (tr & -> & _).
      projections. cbn [Index.objects].
      apply Forall_app. split; [exact IH|]. constructor; [|constructor].
      split; [apply reachable_new | reflexivity].
    + rewrite happen_GET_state.
      destruct (handleSSEConnection_run context r s) as (tr & -> & _).
      projections. cbn [Index.objects].
      apply Forall_app. split; [exact IH|]. constructor; [|constructor].
      split; [apply served_reachable | reflexivity].
    + rewrite happen_POST_state. exact IH.
    + rewrite happen_on_transport_state.
      destruct (Index.objects s !! a) as [t|] eqn:Ha; [|exact IH].
      cbn [Index.objects]. apply Forall_insert; [exact IH|].
      destruct (proj1 (Forall_lookup _ _) IH a t Ha) as [Hr He].
      split; [apply reachable_step, Hr|].
      rewrite endpoint_perform. exact He.
Qed.

Lemma registered_key_nonempty (s : Index.Server) (sid : string) (a : nat) :
  Index.reachable_state parse s ->
  Index.transports s !! sid = Some a ->
  sid <> EmptyString.
Proof.
  intros Hreach Hk.
  destruct (Index.key_leads_to_its_transport s (reachable_registry_ok parse s Hreach)
              sid a Hk) as (t & Ha & Hid).
  destruct (proj1 (Forall_lookup _ _) (reachable_objects s Hreach) a t Ha) as [Hr _].
  destruct (sound_uuid t (reachable_sound parse t Hr)) as [r Hu].
  destruct (randomUUID_nonempty r) as (c & rest & E).
  unfold sessionId in Hid. congruence.
Qed.

(** A message posted with no session id, an empty one, or one the registry
    does not hold is answered with 400 and
    [{"error":"Invalid or missing session ID"}]; no transport is touched, the
    registry is unchanged and nothing is called. *)
Theorem post_with_unknown_session_is_rejected (context : Context) (s : Index.Server) :
  no_such_session context s ->
  completion (Index.handleMessage parse context s)
  = Normal (Index.createErrorResponse "Invalid or missing session ID" 400 None)
  /\ status (Index.createErrorResponse "Invalid or missing session ID" 400 None) = 400
  /\ body (Index.createErrorResponse "Invalid or missing session ID" 400 None)
     = body_text (JSON_stringify (JObject [("error", JString "Invalid or missing session ID")]))
  /\ state_after (Index.handleMessage parse context s) = s
  /\ calls (trace (Index.handleMessage parse context s)) = [].
Proof.
  intros H. destruct (handleMessage_route_not_found context s H) as (tr & -> & Hcalls).
  repeat split. exact Hcalls.
Qed.

(** A message posted with a session id the registry holds is handled by the
    transport registered under that id, whose own session id it is: the
    route answers what that transport's [handlePostMessage] answers and makes
    the calls it makes. *)
Theorem post_is_handled_by_the_registered_transport
    (context : Context) (s : Index.Server) (sid : string) (a : nat) :
  Index.reachable_state parse s ->
  ctx_sessionId context = Some sid ->
  Index.transports s !! sid = Some a ->
  exists t,
    Index.objects s !! a = Some t
    /\ sessionId t = sid
    /\ completion (Index.handleMessage parse context s)
       = completion (handlePostMessage parse context t)
    /\ calls (trace (Index.handleMessage parse context s))
       = calls (trace (handlePostMessage parse context t)).
Proof.
  intros Hreach Hsid Hk.
  pose proof (reachable_registry_ok parse s Hreach) as Hok.
  destruct (Index.key_leads_to_its_transport s Hok sid a Hk) as (t & Ha & Hid).
  exists t. split; [exact Ha|]. split; [exact Hid|].
  pose proof (registered_key_nonempty s sid a Hreach Hk) as Hne.
  apply (handleMessage_route_found context s sid a t Hsid Hne Hk Ha).
Qed.

(** The registry keeps the key of a transport that was closed or whose
    stream was cancelled, so a message posted to such a session is answered
    with 500 and [{"error":"SSE connection not established"}], not with the
    400 of an unknown session; nothing is called. *)
Theorem post_to_a_closed_session_is_answered_500
    (context : Context) (s : Index.Server) (sid : string) (a : nat) (act : Action) :
  Index.reachable_state parse s ->
  ctx_sessionId context = Some sid ->
  Index.transports s !! sid = Some a ->
  act = do_close \/ act = do_cancel ->
  let s' := state_after (Index.happen parse (Index.on_transport a act) s) in
  completion (Index.handleMessage parse context s')
  = Normal (_createErrorResponse "SSE connection not established" 500)
  /\ status (_createErrorResponse "SSE connection not established" 500) = 500
  /\ calls (trace (Index.handleMessage parse context s')) = [].
Proof.
  intros Hreach Hsid Hk Hact s'.
  assert (Hreach' : Index.reachable_state parse s')
    by (apply Index.reachable_happen, Hreach).
  pose proof (reachable_registry_ok parse s Hreach) as Hok.
  destruct (Index.key_leads_to_its_transport s Hok sid a Hk) as (t & Ha & Hid).
  destruct (proj1 (Forall_lookup _ _) (reachable_objects s Hreach) a t Ha) as [Hrt _].
  pose proof (reachable_sound parse t Hrt) as Hs.
  assert (Hk' : Index.transports s' !! sid = Some a).
  { subst s'. rewrite happen_on_transport_state, Ha. exact Hk. }
  assert (Ha' : Index.objects s' !! a = Some (state_after (perform parse act t))).
  { subst s'. rewrite happen_on_transport_state, Ha. cbn [Index.objects].
    apply list_lookup_insert_eq. eapply lookup_lt_Some, Ha. }
  assert (Hclosed : _isConnected (state_after (perform parse act t)) = false).
  { destruct Hact as [-> | ->]; cbn [perform].
    - destruct (close_run t) as (tr & -> & _). reflexivity.
    - destruct (cancel_run t) as (tr & -> & _). projections. simpl.
      destruct (_isConnected t) eqn:Hc; [|reflexivity].
      rewrite (sound_readable t Hs Hc). reflexivity. }
  pose proof (registered_key_nonempty s sid a Hreach Hk) as Hne.
  destruct (handleMessage_route_found context s' sid a _ Hsid Hne Hk' Ha')
    as (-> & ->).
  destruct (handlePostMessage_closed_run parse _ context Hclosed) as (tr & -> & Hcalls).
  repeat split. exact Hcalls.
Qed.

End RouteProperties.

Lemma header_get_set_same (k v : string) (hs : list (string * string)) :
  header_get k (Index.header_set k v hs) = Some v.
Proof.
  induction hs as [|kv hs IH]; simpl.
  - rewrite String.eqb_refl. reflexivity.
  - destruct (String.eqb k (fst kv)) eqn:E; simpl.
    + rewrite String.eqb_refl. reflexivity.
    + rewrite E. exact IH.
Qed.

Lemma header_get_set_other (k k' v : string) (hs : list (string * string)) :
  String.eqb k k' = false ->
  header_get k (Index.header_set k' v hs) = header_get k hs.
Proof.
  intros Hne. induction hs as [|kv hs IH]; simpl.
  - rewrite Hne. reflexivity.
  - destruct (String.eqb k' (fst kv)) eqn:E; simpl.
    + apply String.eqb_eq in E. rewrite <- E, Hne. reflexivity.
    + rewrite IH. reflexivity.
Qed.

(** The route of [GET /sse] registers the transport under its session id
    before it connects it, and calls nothing itself.  When the protocol
    layer takes the transport, the route answers with the stream (status
    200) and the transport is left connected, with the protocol layer's
    three callbacks in its slots and exactly its [endpoint] event for
    [/messages?sessionId=<id>] on its stream, the context carrying the three
    event-stream headers whatever headers it carried before.  When the
    protocol layer refuses the transport, the route answers 500, and the
    transport stays registered all the same, not connected and with nothing
    on its stream. *)
Theorem get_sse_registers_the_transport_and_connects_it
    (context : Context) (r : N) (refusal : option Thrown) (s : Index.Server) :
  let run := Index.handleSSEConnection context r refusal s in
  calls (trace run) = []
  /\ Index.transports (state_after run) !! randomUUID r = Some (length (Index.objects s))
  /\ exists t,
       Index.objects (state_after run) !! length (Index.objects s) = Some t
       /\ sessionId t = randomUUID r
       /\ endpointUrl t = "/messages?sessionId=" +:+ randomUUID r
       /\ header_get "content-type" (ctx_set_headers (_ctx t)) = Some "text/event-stream"
       /\ header_get "cache-control" (ctx_set_headers (_ctx t)) = Some "no-cache"
       /\ header_get "connection" (ctx_set_headers (_ctx t)) = Some "keep-alive"
       /\ (refusal = None ->
           completion run = Normal (Some (mkResponse 200 [] body_stream))
           /\ ctx_response (_ctx t) = Some (mkResponse 200 [] body_stream)
           /\ _isConnected t = true
           /\ onclose t = Some Index.Protocol_onclose
           /\ onerror t = Some Index.Protocol_onerror
           /\ onmessage t = Some Index.Protocol_onmessage
           /\ chunks (_stream t) = [endpoint_chunk t])
       /\ (refusal <> None ->
           (exists resp, completion run = Normal (Some resp) /\ status resp = 500)
           /\ _isConnected t = false
           /\ chunks (_stream t) = []).
Proof.
  assert (Hh : header_get "content-type" (sse_headers_on context) = Some "text/event-stream"
               /\ header_get "cache-control" (sse_headers_on context) = Some "no-cache"
               /\ header_get "connection" (sse_headers_on context) = Some "keep-alive").
  { unfold sse_headers_on. cbn [fold_left Index.SSE_HEADERS fst snd].
    repeat split.
    - rewrite header_get_set_other by reflexivity.
      rewrite header_get_set_other by reflexivity.
      apply header_get_set_same.
    - rewrite header_get_set_other by reflexivity.
      apply header_get_set_same.
    - apply header_get_set_same. }
  destruct Hh as (Hh1 & Hh2 & Hh3).
  intros run. subst run. destruct refusal as [x|].
  - destruct (handleSSEConnection_refused_run context r x s) as (tr & -> & Hcalls).
    projections. cbn [Index.objects Index.transports].
    split; [exact Hcalls|]. split; [apply lookup_insert_eq|].
    exists (fresh_transport context r).
    split; [apply list_lookup_middle; reflexivity|].
    do 5 (split; [first [reflexivity | assumption]|]).
    split; [discriminate|].
    intros _. split; [eexists; repeat split|]. repeat split.
  - destruct (handleSSEConnection_run context r s) as (tr & -> & Hcalls).
    projections. cbn [Index.objects Index.transports].
    split; [exact Hcalls|]. split; [apply lookup_insert_eq|].
    exists (served (fresh_transport context r)).
    split; [apply list_lookup_middle; reflexivity|].
    do 5 (split; [first [reflexivity | assumption]|]).
    split; [|congruence].
    intros _. repeat split.
Qed.

Section Sessions.

Variable parse : unknown -> JsError + Json.

(** A client can post to the session id it was given.  Right after a
    [GET /sse] whose transport the protocol layer took, a message posted
    with that session id is answered with 202 and delivered once to the
    protocol layer's [onmessage] when the schema accepts it, and answered
    with 400 and [{error: String(e)}] and reported once to the protocol
    layer's [onerror] when the schema rejects it with [e].  After a
    [GET /sse] whose transport the protocol layer refused, the session id is
    known all the same, and the message is answered with 500. *)
Theorem connect_then_post_reaches_the_protocol_layer
    (context posted : Context) (r : N) (s : Index.Server) :
  ctx_sessionId posted = Some (randomUUID r) ->
  let s1 := state_after (Index.handleSSEConnection context r None s) in
  (forall m, parse (ctx_body posted) = inr m ->
     completion (Index.handleMessage parse posted s1) = Normal _createSuccessResponse
     /\ calls (trace (Index.handleMessage parse posted s1))
        = [call_onmessage Index.Protocol_onmessage m])
  /\ (forall e, parse (ctx_body posted) = inl e ->
        completion (Index.handleMessage parse posted s1)
        = Normal (_createErrorResponse (String_of (ThrownError e)) 400)
        /\ calls (trace (Index.handleMessage parse posted s1))
           = [call_onerror Index.Protocol_onerror e])
  /\ (forall x,
        let s2 := state_after (Index.handleSSEConnection context r (Some x) s) in
        completion (Index.handleMessage parse posted s2)
        = Normal (_createErrorResponse "SSE connection not established" 500)
        /\ calls (trace (Index.handleMessage parse posted s2)) = []).
Proof.
  intros Hsid s1.
  assert (Hne : randomUUID r <> EmptyString).
  { destruct (randomUUID_nonempty r) as (c & rest & ->). discriminate. }
  split; [|split].
  - intros m Hp.
    destruct (handleSSEConnection_run context r s) as (tr & E & _).
    set (t := served (fresh_transport context r)) in *.
    assert (Hk : Index.transports s1 !! randomUUID r = Some (length (Index.objects s))).
    { subst s1. rewrite E. apply lookup_insert_eq. }
    assert (Ha : Index.objects s1 !! length (Index.objects s) = Some t).
    { subst s1. rewrite E. apply list_lookup_middle. reflexivity. }
    destruct (handleMessage_route_found parse posted s1 _ _ t Hsid Hne Hk Ha)
      as (-> & ->).
    destruct (handlePostMessage_valid_run parse t posted m eq_refl Hp)
      as (tr' & -> & Hcalls).
    split; [reflexivity | exact Hcalls].
  - intros e Hp.
    destruct (handleSSEConnection_run context r s) as (tr & E & _).
    set (t := served (fresh_transport context r)) in *.
    assert (Hk : Index.transports s1 !! randomUUID r = Some (length (Index.objects s))).
    { subst s1. rewrite E. apply lookup_insert_eq. }
    assert (Ha : Index.objects s1 !! length (Index.objects s) = Some t).
    { subst s1. rewrite E. apply list_lookup_middle. reflexivity. }
    destruct (handleMessage_route_found parse posted s1 _ _ t Hsid Hne Hk Ha)
      as (-> & ->).
    destruct (handlePostMessage_invalid_run parse t posted e eq_refl Hp)
      as (tr' & -> & Hcalls).
    split; [reflexivity | exact Hcalls].
  - intros x s2.
    destruct (handleSSEConnection_refused_run context r x s) as (tr & E & _).
    set (t := fresh_transport context r) in *.
    assert (Hk : Index.transports s2 !! randomUUID r = Some (length (Index.objects s))).
    { subst s2. rewrite E. apply lookup_insert_eq. }
    assert (Ha : Index.objects s2 !! length (Index.objects s) = Some t).
    { subst s2. rewrite E. apply list_lookup_middle. reflexivity. }
    destruct (handleMessage_route_found parse posted s2 _ _ t Hsid Hne Hk Ha)
      as (-> & ->).
    destruct (handlePostMessage_closed_run parse t posted eq_refl)
      as (tr' & -> & Hcalls).
    split; [reflexivity | exact Hcalls].
Qed.

(** The routes as first written inline and the routes as refactored leave
    the registry and the transports alike and make the same callback calls
    on every request.  They give the same answer to every [POST /messages],
    and to a [GET /sse] whose transport the protocol layer takes.  When the
    protocol layer refuses the transport both answer 500, but never with the
    same body: the inline route puts the error's message and stack beside
    [error], the refactored one under [details]. *)
Theorem inline_routes_answer_alike_unless_connect_fails :
  (forall context r refusal s,
     state_after (Inline.get_sse context r refusal s)
     = state_after (Index.handleSSEConnection context r refusal s)
     /\ calls (trace (Inline.get_sse context r refusal s))
        = calls (trace (Index.handleSSEConnection context r refusal s))
     /\ (refusal = None ->
         completion (Inline.get_sse context r refusal s)
         = completion (Index.handleSSEConnection context r refusal s))
     /\ (refusal <> None ->
         exists resp resp',
           completion (Inline.get_sse context r refusal s) = Normal (Some resp)
           /\ completion (Index.handleSSEConnection context r refusal s)
              = Normal (Some resp')
           /\ status resp = 500 /\ status resp' = 500
           /\ body resp <> body resp'))
  /\ (forall context s,
        completion (Inline.post_messages parse context s)
        = completion (Index.handleMessage parse context s)
        /\ state_after (Inline.post_messages parse context s)
           = state_after (Index.handleMessage parse context s)
        /\ calls (trace (Inline.post_messages parse context s))
           = calls (trace (Index.handleMessage parse context s))).
Proof.
  split.
  - intros context r [x|] s.
    + destruct (handleSSEConnection_refused_run context r x s) as (tr & -> & C).
      destruct (get_sse_refused_run context r x s) as (tr' & -> & C').
      projections. rewrite C, C'.
      split; [reflexivity|]. split; [reflexivity|]. split; [discriminate|].
      intros _. eexists _, _. split; [reflexivity|]. split; [reflexivity|].
      split; [reflexivity|]. split; [reflexivity|].
      unfold Index.createErrorResponse. cbn [body].
      destruct x as [e|text]; cbn [Index.error_details]; intros H;
        injection H as H; simpl in H; discriminate H.
    + destruct (handleSSEConnection_run context r s) as (tr & -> & C).
      destruct (get_sse_run context r s) as (tr' & -> & C').
      projections. rewrite C, C'.
      split; [reflexivity|]. split; [reflexivity|]. split; [reflexivity|].
      intros H. congruence.
  - intros context s.
    unfold Inline.post_messages, Index.handleMessage, Index.createErrorResponse.
    unfold_monad.
    destruct (ctx_sessionId context) as [[|c sid]|]; simpl;
      [repeat split | | repeat split].
    destruct (Index.transports s !! String c sid) as [a|]; simpl; [|repeat split].
    unfold Index.at_object. destruct (Index.objects s !! a) as [t|]; simpl;
      [|repeat split].
    destruct (handlePostMessage parse context t) as [[[resp|x] t'] tr]; simpl;
      repeat split; calls_norm; reflexivity.
Qed.

(** In every state the process can reach, each transport advertises the URL
    [/messages?sessionId=<its own id>], that id is a key of the registry, so
    a client can post to the URL it was given; every chunk on the transport's
    stream is a complete event, the first one being that [endpoint] event;
    and a connected transport has sent it. *)
Theorem every_session_advertises_a_registered_id
    (s : Index.Server) (a : nat) (t : Transport) :
  Index.reachable_state parse s ->
  Index.objects s !! a = Some t ->
  endpointUrl t = "/messages?sessionId=" +:+ sessionId t
  /\ is_Some (Index.transports s !! sessionId t)
  /\ Forall (endpoint_or_message t) (chunks (_stream t))
  /\ (forall c, head (chunks (_stream t)) = Some c ->
        read_event c = Some ("endpoint", "/messages?sessionId=" +:+ sessionId t))
  /\ (_isConnected t = true -> chunks (_stream t) <> []).
Proof.
  intros Hreach Ha.
  destruct (proj1 (Forall_lookup _ _) (reachable_objects parse s Hreach) a t Ha)
    as [Hr He].
  pose proof (reachable_sound parse t Hr) as Hs.
  assert (Hurl : endpointUrl t = "/messages?sessionId=" +:+ sessionId t).
  { unfold endpointUrl, sessionId. rewrite He. reflexivity. }
  split; [exact Hurl|].
  split; [apply (Index.created_is_registered s (reachable_registry_ok parse s Hreach) a t Ha)|].
  split; [apply (reachable_chunks_are_events parse t Hr)|].
  split; [|apply (sound_written t Hs)].
  intros c Hc. rewrite (sound_first t Hs c Hc), <- Hurl.
  unfold endpoint_chunk. apply read_event_eventData; [reflexivity|].
  apply endpointUrl_no_LF, (sound_uuid t Hs).
Qed.

End Sessions.

(** A message posted to a session id nobody was given. *)
Lemma post_with_unknown_session_is_rejected_witness :
  completion (Index.handleMessage envelope_parse
                (post_of (Some "does-not-exist") (Some ping)) one_session)
  = Normal (Index.createErrorResponse "Invalid or missing session ID" 400 None).
Proof.
  apply (post_with_unknown_session_is_rejected envelope_parse
           (post_of (Some "does-not-exist") (Some ping)) one_session).
  right. vm_compute. reflexivity.
Defined.

(** A message posted to the one session of the process. *)
Lemma post_is_handled_by_the_registered_transport_witness :
  exists t,
    Index.objects one_session !! 0%nat = Some t
    /\ sessionId t = randomUUID 5
    /\ completion (Index.handleMessage envelope_parse
                     (post_of (Some (randomUUID 5)) (Some ping)) one_session)
       = completion (handlePostMessage envelope_parse
                       (post_of (Some (randomUUID 5)) (Some ping)) t)
    /\ calls (trace (Index.handleMessage envelope_parse
                       (post_of (Some (randomUUID 5)) (Some ping)) one_session))
       = calls (trace (handlePostMessage envelope_parse
                         (post_of (Some (randomUUID 5)) (Some ping)) t)).
Proof.
  apply (post_is_handled_by_the_registered_transport envelope_parse
           (post_of (Some (randomUUID 5)) (Some ping)) one_session (randomUUID 5) 0%nat).
  - apply Index.reachable_happen, Index.reachable_init.
  - reflexivity.
  - vm_compute. reflexivity.
Defined.

(** A message posted to the one session after its transport was closed. *)
Lemma post_to_a_closed_session_is_answered_500_witness :
  completion (Index.handleMessage envelope_parse
                (post_of (Some (randomUUID 5)) (Some ping)) one_session_closed)
  = Normal (_createErrorResponse "SSE connection not established" 500).
Proof.
  apply (post_to_a_closed_session_is_answered_500 envelope_parse
           (post_of (Some (randomUUID 5)) (Some ping)) one_session (randomUUID 5)
           0%nat do_close).
  - apply Index.reachable_happen, Index.reachable_init.
  - reflexivity.
  - vm_compute. reflexivity.
  - left. reflexivity.
Defined.

(** The first client of the process connects and posts a [ping]. *)
Lemma connect_then_post_reaches_the_protocol_layer_witness :
  completion (Index.handleMessage envelope_parse
                (post_of (Some (randomUUID 5)) (Some ping))
                (state_after (Index.handleSSEConnection a_context 5 None Index.init)))
  = Normal _createSuccessResponse.
Proof.
  pose proof (connect_then_post_reaches_the_protocol_layer envelope_parse a_context
                (post_of (Some (randomUUID 5)) (Some ping)) 5 Index.init eq_refl)
    as [H _].
  apply (H ping). reflexivity.
Defined.

(** The one session of the process. *)
Lemma every_session_advertises_a_registered_id_witness :
  endpointUrl (served (fresh_transport a_context 5))
  = "/messages?sessionId=" +:+ sessionId (served (fresh_transport a_context 5))
  /\ is_Some (Index.transports one_session
                !! sessionId (served (fresh_transport a_context 5))).
Proof.
  pose proof (every_session_advertises_a_registered_id envelope_parse one_session 0%nat
                (served (fresh_transport a_context 5))
                (Index.reachable_happen envelope_parse _ _
                   (Index.reachable_init envelope_parse))
                eq_refl) as (H1 & H2 & _).
  split; [exact H1 | exact H2].
Defined.

(* ================================================================= *)
(** * The [get-weather] tool *)

Lemma lower_char_not_upper (c : ascii) :
  (N_of_ascii c <? 128)%N = true ->
  is_upper (if is_upper c then ascii_of_N (N_of_ascii c + 32) else c) = false.
Proof.
  destruct c as [[|] [|] [|] [|] [|] [|] [|] [|]]; intros H; try discriminate H;
    reflexivity.
Qed.

Lemma toLowerCase_no_upper (s l : string) :
  toLowerCase s = Some l -> all_chars (fun c => negb (is_upper c)) l = true.
Proof.
  revert l. induction s as [|c s IH]; simpl; intros l.
  - intros [= <-]. reflexivity.
  - destruct (N_of_ascii c <? 128)%N eqn:Hc; [|discriminate].
    destruct (toLowerCase s) as [l'|]; [|discriminate].
    intros [= <-]. simpl. rewrite (lower_char_not_upper c Hc), (IH l' eq_refl).
    reflexivity.
Qed.

Lemma inherited_lower_names (l : string) :
  all_chars (fun c => negb (is_upper c)) l = true ->
  existsb (String.eqb l) Object_prototype_names
  = String.eqb l "constructor" || String.eqb l "__proto__".
Proof.
  intros Hl.
  assert (Hno : forall name : string,
             all_chars (fun c => negb (is_upper c)) name = false ->
             String.eqb l name = false).
  { intros name Hn. destruct (String.eqb_spec l name) as [->|]; [congruence | reflexivity]. }
  unfold Object_prototype_names. cbn [existsb].
  rewrite (Hno "__defineGetter__"), (Hno "__defineSetter__"), (Hno "hasOwnProperty"),
    (Hno "__lookupGetter__"), (Hno "__lookupSetter__"), (Hno "isPrototypeOf"),
    (Hno "propertyIsEnumerable"), (Hno "toString"), (Hno "valueOf"),
    (Hno "toLocaleString") by reflexivity.
  cbn [orb]. rewrite !orb_false_r. reflexivity.
Qed.

Lemma own_property_known (l : string) (w : WeatherData) :
  own_property l mockWeatherData = Some w ->
  In (l, w) mockWeatherData.
Proof.
  unfold mockWeatherData. cbn [own_property fst snd].
  repeat (match goal with
          | |- context [String.eqb l ?k] => destruct (String.eqb_spec l k) as [->|_]
          end; [intros [= <-]; cbn [In]; tauto |]).
  discriminate.
Qed.

(** A city that is none of the four known ones gets the default reply,
    unless its lower-case form is [constructor] or [__proto__]. *)
Theorem get_weather_of_an_unknown_city (city cityLower : string) :
  toLowerCase city = Some cityLower ->
  ~ In cityLower (map fst mockWeatherData) ->
  cityLower <> "constructor" -> cityLower <> "__proto__" ->
  get_weather city
  = Some (text_reply ("Weather in " +:+ city +:+ ": 25°C, Unknown")).
Proof.
  intros Hl Hown Hc Hp. unfold get_weather, text_reply. rewrite Hl.
  do 7 f_equal. unfold property.
  destruct (own_property cityLower mockWeatherData) as [w|] eqn:Ho.
  - exfalso. apply Hown. apply own_property_known in Ho.
    apply (in_map fst) in Ho. exact Ho.
  - rewrite (inherited_lower_names _ (toLowerCase_no_upper _ _ Hl)).
    destruct (String.eqb_spec cityLower "constructor"); [contradiction|].
    destruct (String.eqb_spec cityLower "__proto__"); [contradiction|].
    reflexivity.
Qed.

(** A city whose lower-case form is [constructor] or [__proto__] finds a
    property of [Object.prototype], and the reply reads [undefined] for both
    the temperature and the condition. *)
Theorem get_weather_of_an_inherited_name (city cityLower : string) :
  toLowerCase city = Some cityLower ->
  cityLower = "constructor" \/ cityLower = "__proto__" ->
  get_weather city
  = Some (text_reply ("Weather in " +:+ city +:+ ": undefined°C, undefined")).
Proof.
  intros Hl H. unfold get_weather, text_reply. rewrite Hl.
  destruct H as [-> | ->]; reflexivity.
Qed.

(** A city whose lower-case form is one of the four known ones gets the
    temperature and the condition recorded for it, whatever the case it was
    written in, and the reply repeats the city as it was given. *)
Theorem get_weather_of_a_known_city (city cityLower : string) (w : WeatherData) :
  toLowerCase city = Some cityLower ->
  In (cityLower, w) mockWeatherData ->
  get_weather city
  = Some (text_reply ("Weather in " +:+ city +:+ ": " +:+ Number_toString (temp w)
                        +:+ "°C, " +:+ condition w)).
Proof.
  intros Hl Hin. unfold get_weather, text_reply. rewrite Hl.
  cbn [In mockWeatherData] in Hin.
  destruct Hin as [H|[H|[H|[H|[]]]]]; injection H as <- <-; reflexivity.
Qed.

Lemma get_weather_of_an_unknown_city_witness :
  get_weather "Paris" = Some (text_reply ("Weather in Paris: 25°C, Unknown")).
Proof.
  apply (get_weather_of_an_unknown_city "Paris" "paris").
  - reflexivity.
  - cbn. intros [H|[H|[H|[H|[]]]]]; discriminate H.
  - discriminate.
  - discriminate.
Defined.

Lemma get_weather_of_an_inherited_name_witness :
  get_weather "Constructor"
  = Some (text_reply ("Weather in Constructor: undefined°C, undefined")).
Proof.
  apply (get_weather_of_an_inherited_name "Constructor" "constructor").
  - reflexivity.
  - left. reflexivity.
Defined.

Lemma get_weather_of_a_known_city_witness :
  get_weather "LonDon" = Some (text_reply "Weather in LonDon: 18°C, Rainy").
Proof.
  apply (get_weather_of_a_known_city "LonDon" "london" (mkWeather (integer 18) "Rainy")).
  - reflexivity.
  - right. left. reflexivity.
Defined.
